(** * Braille autocorrect: a shallow embedding of [braille.py] and [test2.py]

    The development follows the Python sources function by function.

    - Python [int]s are [Z]; Python [float]s, and the arithmetic that mixes
      them with [int]s, are the canonical rationals [Qc] (exact arithmetic:
      rounding of binary floating point is not part of the model).
    - [str] is [string], read as a sequence of code points below 256
      (one [ascii] is one code point, not a byte of an encoding);
      [str.lower] is the lower-casing of these code points.
    - The recursion of the traversals is structural and total: the frame
      limit of the interpreter, which a trie with a word of about a
      thousand letters exhausts, is not part of the model (see [shallow]).
    - A [dict] whose iteration order is used ([DOT_TO_KEY], the letter
      tables, [TrieNode.children]) is an association list in insertion
      order; the two [defaultdict]s of [BrailleAutocorrect] are [gmap]s with
      the insert-on-read behaviour of [defaultdict.__getitem__] written out.
    - A [set] of strings or dots is a [gset].
    - Exceptions are values of [exn]; a method that can raise returns an
      [outcome]; a method that reads or writes [self] is a state
      transformer on [BrailleAutocorrect]. *)

From Stdlib Require Import QArith Qcanon ZArith Ascii String.
From stdpp Require Import base numbers list strings gmap sorting.

Local Open Scope Z_scope.
Local Open Scope string_scope.
Local Open Scope list_scope.

(** ** Exceptions and outcomes *)

(** [ValueError] is raised by [keys_to_dots]; its message prints the set of
    offending key symbols and the set of valid key symbols.  [KeyError] is
    what [self.braille_maps[language]] raises in [add_word]. *)
Inductive exn : Type :=
  | ValueError (offending valid : gset string)
  | KeyError (key : string).

Inductive outcome (A : Type) : Type :=
  | Return (a : A)
  | Raise (e : exn).
Arguments Return {A} a.
Arguments Raise {A} e.

Definition obind {A B} (m : outcome A) (k : A → outcome B) : outcome B :=
  match m with
  | Return a => k a
  | Raise e => Raise e
  end.

(** ** Strings *)

Module Str.

  (** [str.isspace] on one code point below 256. *)
Definition isspace (c : ascii) : bool :=
    let n := nat_of_ascii c in
    ((9 <=? n)%nat && (n <=? 13)%nat) || ((28 <=? n)%nat && (n <=? 32)%nat)
    || (n =? 133)%nat || (n =? 160)%nat.

  (** [s.split()]: the maximal runs of non-whitespace characters. [cur] is
      the run being read. *)
Fixpoint split_go (cur : string) (s : string) : list string :=
    match s with
    | EmptyString => if decide (cur = "") then [] else [cur]
    | String c r =>
        if isspace c
        then (if decide (cur = "") then split_go "" r else cur :: split_go "" r)
        else split_go (cur +:+ String c "") r
    end.

Definition split (s : string) : list string := split_go "" s.

  (** [s.split(sep)] for a one-character separator: every occurrence of
      [sep] ends a segment, so the result is never empty and may contain
      empty segments. *)
Fixpoint split_on (sep : ascii) (s : string) : list string :=
    match s with
    | EmptyString => [""]
    | String c r =>
        if decide (c = sep) then "" :: split_on sep r
        else match split_on sep r with
             | seg :: segs => String c seg :: segs
             | [] => [String c ""]
             end
    end.

  (** [c.lower()] for one code point below 256: the capitals [A]-[Z]
      (65-90) and the capitals of Latin-1 (192-214 and 216-222; 215 is the
      multiplication sign) have their lower-case form 32 places up, and no
      other code point changes. *)
Definition lower_ascii (c : ascii) : ascii :=
    let n := nat_of_ascii c in
    if ((65 <=? n)%nat && (n <=? 90)%nat)
       || ((192 <=? n)%nat && (n <=? 214)%nat)
       || ((216 <=? n)%nat && (n <=? 222)%nat)
    then ascii_of_nat (n + 32) else c.

  (** [s.lower()] *)
Fixpoint lower (s : string) : string :=
    match s with
    | EmptyString => EmptyString
    | String c r => String (lower_ascii c) (lower r)
    end.

End Str.

(** ** Module-level tables *)

Definition DOT_TO_KEY : list (Z * string) :=
  [(1, "D"); (2, "W"); (3, "Q"); (4, "K"); (5, "O"); (6, "P")].

Definition ENGLISH_BRAILLE : list (ascii * list Z) :=
  [("a"%char, [1]); ("b"%char, [1; 2]); ("c"%char, [1; 4]);
   ("d"%char, [1; 4; 5]); ("e"%char, [1; 5]); ("f"%char, [1; 2; 4]);
   ("g"%char, [1; 2; 4; 5]); ("h"%char, [1; 2; 5]); ("i"%char, [2; 4]);
   ("j"%char, [2; 4; 5]); ("k"%char, [1; 3]); ("l"%char, [1; 2; 3]);
   ("m"%char, [1; 3; 4]); ("n"%char, [1; 3; 4; 5]); ("o"%char, [1; 3; 5]);
   ("p"%char, [1; 2; 3; 4]); ("q"%char, [1; 2; 3; 4; 5]);
   ("r"%char, [1; 2; 3; 5]); ("s"%char, [2; 3; 4]); ("t"%char, [2; 3; 4; 5]);
   ("u"%char, [1; 3; 6]); ("v"%char, [1; 2; 3; 6]); ("w"%char, [2; 4; 5; 6]);
   ("x"%char, [1; 3; 4; 6]); ("y"%char, [1; 3; 4; 5; 6]);
   ("z"%char, [1; 3; 5; 6])].

(** [FRENCH_BRAILLE = ENGLISH_BRAILLE.copy()] *)
Definition FRENCH_BRAILLE : list (ascii * list Z) := ENGLISH_BRAILLE.

Definition CONTRACTIONS : list (string * list Z) :=
  [("the", [2; 3; 4; 6])].

(** [d.get(k, default)] and [d[k]] on an association list. *)
Fixpoint assoc_get {K V} `{EqDecision K} (d : list (K * V)) (k : K) : option V :=
  match d with
  | [] => None
  | (k', v) :: d' => if decide (k' = k) then Some v else assoc_get d' k
  end.

(** ** Key mapping *)

(** [set(DOT_TO_KEY.values())] *)
Definition valid_keys : gset string := list_to_set (DOT_TO_KEY.*2).

(** [sorted(...)] on a list of integers. *)
Definition sorted_Z (l : list Z) : list Z := merge_sort Z.le l.

Definition keys_to_dots (keys : string) : outcome (list Z) :=
  if decide (keys = "") then Return []
  else
    let key_set : gset string := list_to_set (Str.split_on "+"%char keys) in
    if decide (key_set ⊆ valid_keys)
    then Return (sorted_Z
                   ((filter (λ dk : Z * string, dk.2 ∈ key_set) DOT_TO_KEY).*1))
    else Raise (ValueError (key_set ∖ valid_keys) valid_keys).

(** A list comprehension whose body can raise: the elements are evaluated
    left to right and the first exception leaves the comprehension. *)
Fixpoint comprehension {A B} (f : A → outcome B) (l : list A) : outcome (list B) :=
  match l with
  | [] => Return []
  | a :: l' =>
      obind (f a) (λ b, obind (comprehension f l') (λ bs, Return (b :: bs)))
  end.

Definition input_to_braille (input_seq : string) : outcome (list (list Z)) :=
  comprehension keys_to_dots (Str.split input_seq).

(** ** Numbers *)

Local Open Scope Qc_scope.

(** The float literals of the sources. *)
Definition half : Qc := Q2Qc (1 # 2).
Definition tenth : Qc := Q2Qc (1 # 10).

(** [len(l)] as an integer, and an integer used in float arithmetic. *)
Definition len {A} (l : list A) : Z := Z.of_nat (length l).
Definition of_nat (n : nat) : Qc := Qc_of_Z (Z.of_nat n).

(** [min(a, b)] and [min(a, b, c)]: the first smallest argument. *)
Definition min2 (a b : Qc) : Qc := if decide (b < a) then b else a.
Definition min3 (a b c : Qc) : Qc := min2 (min2 a b) c.

(** [row[i]] for an index that is in range, and [row[-1]]. *)
Definition item (row : list Qc) (i : nat) : Qc := default 0 (row !! i).
Definition last_item (row : list Qc) : Qc := default 0 (last row).

(** [l[:k]]: a negative bound counts from the end of the list. *)
Definition slice_to {A} (l : list A) (k : Z) : list A :=
  if decide (k < 0)%Z then take (Z.to_nat (len l + k)) l else take (Z.to_nat k) l.

(** ** The dot-pattern trie *)

#[warnings="-register-all"]
Inductive TrieNode : Type :=
  Node { children : list (list Z * TrieNode);
         is_end : bool;
         word : option string }.

(** [TrieNode()] *)
Definition TrieNode_new : TrieNode := Node [] false None.

(** [d[k] = v] on an insertion-ordered dict: an existing key keeps its
    place, a new key goes last. *)
Fixpoint assoc_set {K V} `{EqDecision K} (d : list (K * V)) (k : K) (v : V)
  : list (K * V) :=
  match d with
  | [] => [(k, v)]
  | (k', v') :: d' =>
      if decide (k' = k) then (k, v) :: d' else (k', v') :: assoc_set d' k v
  end.

(** ** The object state *)

Record BrailleAutocorrect : Type := {
  dictionaries : gmap string TrieNode;
  corrections : gmap string Z
}.

(** [BrailleAutocorrect()]: both stores are empty [defaultdict]s. *)
Definition BrailleAutocorrect_init : BrailleAutocorrect :=
  {| dictionaries := ∅; corrections := ∅ |}.

Definition braille_maps : list (string * list (ascii * list Z)) :=
  [("english", ENGLISH_BRAILLE); ("french", FRENCH_BRAILLE)].

Definition contractions : list (string * list Z) := CONTRACTIONS.

(** [defaultdict.__getitem__]: a missing key is inserted with the default
    value before it is returned. *)
Definition defaultdict_get {V} (dflt : V) (d : gmap string V) (k : string)
  : V * gmap string V :=
  match d !! k with
  | Some v => (v, d)
  | None => (dflt, <[k := dflt]> d)
  end.

(** What a [defaultdict] reads at a key, without the insertion. *)
Definition peek {V} (dflt : V) (d : gmap string V) (k : string) : V :=
  default dflt (d !! k).

(** Methods are state transformers that may raise. *)
Definition method (A : Type) : Type :=
  BrailleAutocorrect → outcome A * BrailleAutocorrect.

(** *** [add_word] *)

(** The loop of [add_word] below [node], followed by the two assignments
    to the final node.  The nodes are mutated in place in the source; here
    the updated subtree is returned.  [self.braille_maps[language]] raises
    [KeyError] for a language without a letter table; this happens in the
    first iteration, before any node has been changed. *)
Fixpoint add_word_from (language : string) (chars : list ascii) (w : string)
    (node : TrieNode) : outcome TrieNode :=
  match chars with
  | [] => Return (Node (children node) true (Some w))
  | char :: chars' =>
      match assoc_get braille_maps language with
      | None => Raise (KeyError language)
      | Some table =>
          let dots := default [] (assoc_get table char) in
          let child := default TrieNode_new (assoc_get (children node) dots) in
          obind (add_word_from language chars' w child) (λ child',
            Return (Node (assoc_set (children node) dots child')
                         (is_end node) (word node)))
      end
  end.

Definition add_word (w : string) (language : string) : method unit :=
  λ self,
    let '(root, dicts) := defaultdict_get TrieNode_new (dictionaries self) language in
    match add_word_from language (list_ascii_of_string (Str.lower w)) w root with
    | Return root' =>
        (Return (),
         {| dictionaries := <[language := root']> dicts;
            corrections := corrections self |})
    | Raise e =>
        (Raise e, {| dictionaries := dicts; corrections := corrections self |})
    end.

(** *** [load_dictionary] *)

Fixpoint add_words (words : list string) (language : string) : method unit :=
  λ self,
    match words with
    | [] => (Return (), self)
    | w :: words' =>
        match add_word w language self with
        | (Return _, self') => add_words words' language self'
        | (Raise e, self') => (Raise e, self')
        end
    end.

(** One iteration of the contraction loop on the root [node]. *)
Definition add_contraction (w : string) (dots : list Z) (node : TrieNode)
  : TrieNode :=
  let child := default TrieNode_new (assoc_get (children node) dots) in
  Node (assoc_set (children node) dots (Node (children child) true (Some w)))
       (is_end node) (word node).

Definition add_contractions (language : string) (self : BrailleAutocorrect)
  : BrailleAutocorrect :=
  foldl (λ (self : BrailleAutocorrect) (wd : string * list Z),
           let '(root, dicts) :=
             defaultdict_get TrieNode_new (dictionaries self) language in
           {| dictionaries := <[language := add_contraction wd.1 wd.2 root]> dicts;
              corrections := corrections self |})
        self contractions.

Definition load_dictionary (words : list string) (language : string)
  : method unit :=
  λ self,
    match add_words words language self with
    | (Return _, self') =>
        if decide (language = "english")
        then (Return (), add_contractions language self')
        else (Return (), self')
    | (Raise e, self') => (Raise e, self')
    end.

(** ** The scorer *)

Definition hamming_distance (dots1 dots2 : list Z) : Z :=
  let set1 : gset Z := list_to_set dots1 in
  let set2 : gset Z := list_to_set dots2 in
  Z.of_nat (size ((set1 ∖ set2) ∪ (set2 ∖ set1))).

Definition normalized_dot_distance (dots1 dots2 : list Z) : Qc :=
  let set1 : gset Z := list_to_set dots1 in
  let set2 : gset Z := list_to_set dots2 in
  let intersection := size (set1 ∩ set2) in
  let union := size (set1 ∪ set2) in
  if decide (union = 0%nat) then 1
  else 1 - (of_nat intersection / of_nat union).

(** The inner [for j, c2 in enumerate(word_dots)] loop; [j] is the index of
    the head of [word_dots]. *)
Fixpoint levenshtein_inner (subst : list Z → list Z → Qc)
    (c1 : list Z) (previous_row : list Qc)
    (word_dots : list (list Z)) (j : nat) (current_row : list Qc) : list Qc :=
  match word_dots with
  | [] => current_row
  | c2 :: word_dots' =>
      let insertions := item previous_row (j + 1) + 1 in
      let deletions := item current_row j + 1 in
      let substitutions := item previous_row j + subst c1 c2 in
      levenshtein_inner subst c1 previous_row word_dots' (S j)
        (current_row ++ [min3 insertions deletions substitutions])
  end.

(** The outer [for i, c1 in enumerate(input_dots)] loop. *)
Fixpoint levenshtein_rows (subst : list Z → list Z → Qc)
    (input_dots word_dots : list (list Z)) (i : nat) (previous_row : list Qc)
  : list Qc :=
  match input_dots with
  | [] => previous_row
  | c1 :: input_dots' =>
      let current_row :=
        levenshtein_inner subst c1 previous_row word_dots 0 [of_nat (i + 1)] in
      levenshtein_rows subst input_dots' word_dots (S i) current_row
  end.

(** The body shared by the two sources; they differ in the substitution
    cost only. *)
Definition levenshtein_with (subst : list Z → list Z → Qc)
    (input_dots word_dots : list (list Z)) : Qc :=
  let len_diff_penalty := Qc_of_Z (Z.abs (len input_dots - len word_dots)) * half in
  let '(input_dots, word_dots) :=
    if decide (len input_dots < len word_dots)%Z
    then (word_dots, input_dots) else (input_dots, word_dots) in
  match word_dots with
  | [] => Qc_of_Z (len input_dots) + len_diff_penalty
  | _ =>
      let previous_row := of_nat <$> seq 0 (length word_dots + 1) in
      last_item (levenshtein_rows subst input_dots word_dots 0 previous_row)
      + len_diff_penalty
  end.

Definition levenshtein_distance : list (list Z) → list (list Z) → Qc :=
  levenshtein_with normalized_dot_distance.

(** ** The ranker *)

(** A recorded suggestion [(score, dist, word)]. *)
Definition suggestion : Type := Qc * Qc * string.

(** [x < y] on these tuples: the first component at which they differ
    decides. *)
Definition tuple_ltb (x y : suggestion) : bool :=
  if decide (x.1.1 = y.1.1) then
    if decide (x.1.2 = y.1.2) then String.ltb x.2 y.2
    else bool_decide (x.1.2 < y.1.2)
  else bool_decide (x.1.1 < y.1.1).

(** The order in which [list.sort] leaves the list: no element is smaller
    than one before it. *)
Definition tuple_le (x y : suggestion) : Prop := tuple_ltb y x = false.

Global Instance tuple_le_dec : RelDecision tuple_le.
Proof. intros x y. unfold tuple_le. apply _. Defined.

(** [heapq._siftdown(heap, 0, pos)] with [newitem = heap[pos]]; [fuel]
    bounds the iterations of the [while] loop, and [pos] iterations are
    enough because [pos] decreases. *)
Fixpoint siftdown (fuel : nat) (heap : list suggestion) (newitem : suggestion)
    (pos : nat) : list suggestion :=
  match fuel with
  | O => <[pos := newitem]> heap
  | S fuel' =>
      if decide (0 < pos)%nat then
        let parentpos := ((pos - 1) / 2)%nat in
        match heap !! parentpos with
        | Some parent =>
            if tuple_ltb newitem parent
            then siftdown fuel' (<[pos := parent]> heap) newitem parentpos
            else <[pos := newitem]> heap
        | None => <[pos := newitem]> heap
        end
      else <[pos := newitem]> heap
  end.

(** [heapq.heappush(heap, item)] *)
Definition heappush (heap : list suggestion) (item : suggestion)
  : list suggestion :=
  let heap' := heap ++ [item] in
  siftdown (length heap' - 1) heap' item (length heap' - 1).

(** [node.is_end and node.word]: the word is set and not the empty string. *)
Definition carries_word (is_end : bool) (word : option string) : option string :=
  match word with
  | Some w => if is_end && bool_decide (w ≠ "") then Some w else None
  | None => None
  end.

(** The closure [dfs] of [suggest_word].  It appends to [suggestions] and
    reads [self.corrections], a [defaultdict]; both are threaded through. *)
Fixpoint dfs (input_dots : list (list Z)) (node : TrieNode)
    (current_dots : list (list Z)) (st : list suggestion * gmap string Z)
  : list suggestion * gmap string Z :=
  match node with
  | Node cs e w =>
      let st1 :=
        match carries_word e w with
        | Some wd =>
            let dist := levenshtein_distance input_dots current_dots in
            let '(count, corr) := defaultdict_get 0%Z st.2 (Str.lower wd) in
            let learn_bonus := min2 half (tenth * Qc_of_Z count) in
            let score := dist - learn_bonus in
            (heappush st.1 (score, dist, wd), corr)
        | None => st
        end in
      (fix for_children (cs : list (list Z * TrieNode))
           (st : list suggestion * gmap string Z) :=
         match cs with
         | [] => st
         | (dots, child) :: cs' =>
             for_children cs' (dfs input_dots child (current_dots ++ [dots]) st)
         end) cs st1
  end.

Definition suggest_word (input_seq : string) (language : string)
    (max_suggestions : Z) : method (list string) :=
  λ self,
    match input_to_braille input_seq with
    | Raise e => (Raise e, self)
    | Return input_dots =>
        if decide (input_dots = []) then (Return [], self)
        else
          let '(root, dicts) :=
            defaultdict_get TrieNode_new (dictionaries self) language in
          let '(suggestions, corr) :=
            dfs input_dots root [] ([], corrections self) in
          let suggestions := merge_sort tuple_le suggestions in
          (Return ((slice_to suggestions max_suggestions).*2),
           {| dictionaries := dicts; corrections := corr |})
    end.

Definition learn_correction (input_seq : string) (corrected_word : string)
  : method unit :=
  λ self,
    let key := Str.lower corrected_word in
    let '(count, corr) := defaultdict_get 0%Z (corrections self) key in
    (Return (),
     {| dictionaries := dictionaries self;
        corrections := <[key := (count + 1)%Z]> corr |}).

Definition process_input (input_seq : string) (language : string)
  : method (list string) :=
  suggest_word input_seq language 1.

(** ** The variant of [test2.py] *)

Module Test2.

  (** The substitution term of its [levenshtein_distance]:
      [hamming / 6 if hamming > 0 else 0]. *)
Definition substitution_cost (c1 c2 : list Z) : Qc :=
    let hamming := hamming_distance c1 c2 in
    if decide (0 < hamming)%Z then Qc_of_Z hamming / Qc_of_Z 6 else 0.

Definition levenshtein_distance : list (list Z) → list (list Z) → Qc :=
    levenshtein_with substitution_cost.

  (** The closure [search_trie]; the count is read at [node.word], not at
      its lower-case form. *)
Fixpoint search_trie (input_dots : list (list Z)) (node : TrieNode)
      (current_dots : list (list Z)) (st : list suggestion * gmap string Z)
    : list suggestion * gmap string Z :=
    match node with
    | Node cs e w =>
        let st1 :=
          match carries_word e w with
          | Some wd =>
              let distance := levenshtein_distance input_dots current_dots in
              let length_adjustment :=
                Qc_of_Z (Z.abs (len current_dots - len input_dots)) * half in
              let '(count, corr) := defaultdict_get 0%Z st.2 wd in
              let learning_adjustment := min2 half (tenth * Qc_of_Z count) in
              let score := distance + length_adjustment - learning_adjustment in
              (heappush st.1 (score, distance, wd), corr)
          | None => st
          end in
        (fix for_children (cs : list (list Z * TrieNode))
             (st : list suggestion * gmap string Z) :=
           match cs with
           | [] => st
           | (dots, child) :: cs' =>
               for_children cs'
                 (search_trie input_dots child (current_dots ++ [dots]) st)
           end) cs st1
    end.

Definition suggest_word (input_seq : string) (language : string)
      (max_suggestions : Z) : method (list string) :=
    λ self,
      match input_to_braille input_seq with
      | Raise e => (Raise e, self)
      | Return input_dots =>
          if decide (input_dots = []) then (Return [], self)
          else
            let '(root, dicts) :=
              defaultdict_get TrieNode_new (dictionaries self) language in
            let '(suggestions, corr) :=
              search_trie input_dots root [] ([], corrections self) in
            let suggestions := merge_sort tuple_le suggestions in
            (Return ((slice_to suggestions max_suggestions).*2),
             {| dictionaries := dicts; corrections := corr |})
      end.

End Test2.

(** ** Auxiliary notions used in the statements *)

(** Every character is whitespace. *)
Fixpoint all_space (s : string) : bool :=
  match s with
  | EmptyString => true
  | String c r => Str.isspace c && all_space r
  end.

(** The six key symbols. *)
Definition six_keys : gset string :=
  {["D"]} ∪ {["W"]} ∪ {["Q"]} ∪ {["K"]} ∪ {["O"]} ∪ {["P"]}.

(** A token has a symbol (a ['+']-separated segment) outside the valid
    key set. *)
Definition has_invalid_symbol (token : string) : Prop :=
  Exists (λ seg, seg ∉ valid_keys) (Str.split_on "+"%char token).

Global Instance has_invalid_symbol_dec token : Decision (has_invalid_symbol token).
Proof. unfold has_invalid_symbol. apply _. Defined.

(** The offending symbols of a token, as a set. *)
Definition offending_symbols (token : string) : gset string :=
  list_to_set (filter (λ seg, seg ∉ valid_keys) (Str.split_on "+"%char token)).

(** The shapes of a token with an empty segment. *)
Definition leading_plus (keys : string) : Prop := ∃ r, keys = "+" +:+ r.
Definition trailing_plus (keys : string) : Prop := ∃ l, keys = l +:+ "+".
Definition doubled_plus (keys : string) : Prop := ∃ l r, keys = l +:+ "++" +:+ r.

(** The substitution cost of the specification, on dot sets:
    [1 - |p ∩ q| / |p ∪ q|], and 1 when both sets are empty. *)
Definition subCost (p q : gset Z) : Qc :=
  if decide (size (p ∪ q) = 0%nat) then 1
  else 1 - of_nat (size (p ∩ q)) / of_nat (size (p ∪ q)).

(** The table of the standard edit-distance dynamic program for the
    sequences [A] and [B]: cell [(i, j)] compares the first [i] elements
    of [A] with the first [j] elements of [B]; insertion and deletion cost
    1, substituting [A[i-1]] by [B[j-1]] costs [cost A[i-1] B[j-1]]. *)
Fixpoint edit_cell (cost : list Z → list Z → Qc) (A B : list (list Z))
    (i : nat) : nat → Qc :=
  match i with
  | O => λ j, of_nat j
  | S i' =>
      fix row (j : nat) : Qc :=
        match j with
        | O => of_nat (S i')
        | S j' =>
            min3 (edit_cell cost A B i' (S j') + 1)
                 (row j' + 1)
                 (edit_cell cost A B i' j'
                  + cost (default [] (A !! i')) (default [] (B !! j')))
        end
  end.

(** Its final cell, with the substitution cost of the specification. *)
Definition standard_edit_distance (A B : list (list Z)) : Qc :=
  edit_cell (λ p q, subCost (list_to_set p) (list_to_set q)) A B
    (length A) (length B).

(** A canonical dot pattern: strictly increasing, hence without
    duplicates. *)
Definition canonical (dots : list Z) : Prop := StronglySorted Z.lt dots.

Global Instance canonical_dec dots : Decision (canonical dots).
Proof. unfold canonical. apply _. Defined.

(** The invariant of a trie built by [add_word] and [load_dictionary]:
    the keys of every node are canonical patterns and pairwise distinct (the
    node's [children] is a dict). *)
Fixpoint trie_ok (node : TrieNode) : Prop :=
  match node with
  | Node cs _ _ =>
      NoDup (cs.*1) ∧
      (fix all (cs : list (list Z * TrieNode)) : Prop :=
         match cs with
         | [] => True
         | (dots, child) :: cs' => canonical dots ∧ trie_ok child ∧ all cs'
         end) cs
  end.

(** The invariant of the object: every registered trie is well formed and
    its root carries no word; no correction count is negative. *)
Definition root_ok (root : TrieNode) : Prop :=
  trie_ok root ∧ carries_word (is_end root) (word root) = None.

Definition dict_ok (dicts : gmap string TrieNode) : Prop :=
  ∀ language root, dicts !! language = Some root → root_ok root.

Definition counts_ok (counts : gmap string Z) : Prop :=
  ∀ w count, counts !! w = Some count → (0 ≤ count)%Z.

Definition state_ok (self : BrailleAutocorrect) : Prop :=
  dict_ok (dictionaries self) ∧ counts_ok (corrections self).

(** The states an object goes through: it is created empty and changed by
    calls of its methods only. *)
Inductive reachable : BrailleAutocorrect → Prop :=
  | reachable_init : reachable BrailleAutocorrect_init
  | reachable_add_word self w language :
      reachable self → reachable (add_word w language self).2
  | reachable_load_dictionary self words language :
      reachable self → reachable (load_dictionary words language self).2
  | reachable_suggest_word self input_seq language k :
      reachable self → reachable (suggest_word input_seq language k self).2
  | reachable_learn_correction self input_seq w :
      reachable self → reachable (learn_correction input_seq w self).2.

(** The order of the claims on recorded suggestions: score first, then
    distance, then the word, lexicographically. *)
Definition lex_le (x y : suggestion) : Prop :=
  x.1.1 < y.1.1 ∨
  (x.1.1 = y.1.1 ∧ (x.1.2 < y.1.2 ∨ (x.1.2 = y.1.2 ∧ String.le x.2 y.2))).

(** The learning bonus read off a correction count. *)
Definition learn_bonus_of (count : Z) : Qc := min2 half (tenth * Qc_of_Z count).

(** The triples [(score, dist, word)] of the terminals below [node], in the
    order of the traversal, for given correction counts; [current_dots] is
    the path from the root to [node]. *)
Fixpoint recorded (input_dots : list (list Z)) (counts : gmap string Z)
    (node : TrieNode) (current_dots : list (list Z)) : list suggestion :=
  match node with
  | Node cs e w =>
      match carries_word e w with
      | Some wd =>
          let dist := levenshtein_distance input_dots current_dots in
          [(dist - learn_bonus_of (peek 0%Z counts (Str.lower wd)), dist, wd)]
      | None => []
      end
      ++ (fix below (cs : list (list Z * TrieNode)) : list suggestion :=
            match cs with
            | [] => []
            | (dots, child) :: cs' =>
                recorded input_dots counts child (current_dots ++ [dots])
                ++ below cs'
            end) cs
  end.

(** The node reached from [node] along [path]. *)
Fixpoint trie_lookup (node : TrieNode) (path : list (list Z)) : option TrieNode :=
  match path with
  | [] => Some node
  | dots :: path' =>
      match assoc_get (children node) dots with
      | Some child => trie_lookup child path'
      | None => None
      end
  end.

(** [w] is the word stored at the end of [path]. *)
Definition stored_at (root : TrieNode) (path : list (list Z)) (w : string) : Prop :=
  ∃ node, trie_lookup root path = Some node ∧
          carries_word (is_end node) (word node) = Some w.

(** Two count stores that read the same at every key. *)
Definition same_counts (c1 c2 : gmap string Z) : Prop :=
  ∀ k, peek 0%Z c1 k = peek 0%Z c2 k.

(** [d'] is [d] with, possibly, some missing keys added at the default
    value: what reads of a [defaultdict] do to it. *)
Definition default_extends {V} (dflt : V) (d d' : gmap string V) : Prop :=
  ∀ k, d' !! k = d !! k ∨ (d !! k = None ∧ d' !! k = Some dflt).

(** The two halves of the body of [dfs], named for the proofs. *)
Definition dfs_visit (input_dots : list (list Z)) (e : bool) (w : option string)
    (current_dots : list (list Z)) (st : list suggestion * gmap string Z)
  : list suggestion * gmap string Z :=
  match carries_word e w with
  | Some wd =>
      let dist := levenshtein_distance input_dots current_dots in
      let '(count, corr) := defaultdict_get 0%Z st.2 (Str.lower wd) in
      let learn_bonus := min2 half (tenth * Qc_of_Z count) in
      let score := dist - learn_bonus in
      (heappush st.1 (score, dist, wd), corr)
  | None => st
  end.

Fixpoint dfs_children (input_dots : list (list Z))
    (cs : list (list Z * TrieNode)) (current_dots : list (list Z))
    (st : list suggestion * gmap string Z) : list suggestion * gmap string Z :=
  match cs with
  | [] => st
  | (dots, child) :: cs' =>
      dfs_children input_dots cs' current_dots
        (dfs input_dots child (current_dots ++ [dots]) st)
  end.

Fixpoint recorded_children (input_dots : list (list Z)) (counts : gmap string Z)
    (cs : list (list Z * TrieNode)) (current_dots : list (list Z))
  : list suggestion :=
  match cs with
  | [] => []
  | (dots, child) :: cs' =>
      recorded input_dots counts child (current_dots ++ [dots])
      ++ recorded_children input_dots counts cs' current_dots
  end.

(** [n] calls of [learn_correction] for the same word. *)
Definition learn_times (n : nat) (input_seq corrected_word : string)
    (self : BrailleAutocorrect) : BrailleAutocorrect :=
  Nat.iter n (λ s, (learn_correction input_seq corrected_word s).2) self.

(** The stored correction count of a word. *)
Definition count_of (self : BrailleAutocorrect) (w : string) : Z :=
  peek 0%Z (corrections self) (Str.lower w).

(** The sample dictionaries of [run_tests]. *)
Definition english_words : list string :=
  ["cat"; "hat"; "the"; "hello"; "dog"; "bad"].
Definition french_words : list string := ["chat"; "ami"; "amie"].

Definition sample : BrailleAutocorrect :=
  (load_dictionary french_words "french"
     (load_dictionary english_words "english" BrailleAutocorrect_init).2).2.


(** A two-word dictionary. *)
Definition two_words : BrailleAutocorrect :=
  (load_dictionary ["a"; "t"] "french" BrailleAutocorrect_init).2.

(** ** Further notions: the contents of a trie *)

(** The word carried by the node at the end of [path], if there is one. *)
Definition word_at (node : TrieNode) (path : list (list Z)) : option string :=
  match trie_lookup node path with
  | Some n => carries_word (is_end n) (word n)
  | None => None
  end.

(** The path [add_word] walks for [w] with a letter table: one pattern for
    each character of [w.lower()], the empty pattern for a character the
    table does not have. *)
Definition word_path (table : list (ascii * list Z)) (w : string)
  : list (list Z) :=
  (λ char, default [] (assoc_get table char))
    <$> list_ascii_of_string (Str.lower w).

(** The words carried by the nodes below [node], in the order of the
    traversal. *)
Fixpoint trie_words (node : TrieNode) : list string :=
  match node with
  | Node cs e w =>
      match carries_word e w with
      | Some wd => [wd]
      | None => []
      end
      ++ (fix below (cs : list (list Z * TrieNode)) : list string :=
            match cs with
            | [] => []
            | (_, child) :: cs' => trie_words child ++ below cs'
            end) cs
  end.

(** ** Further notions: the traversal of [test2.py] *)

(** The triples of the terminals below [node] as [search_trie] computes
    them, written with the table of the edit distance: [cell] is the final
    cell for the input and the path, [diff] the difference of their
    lengths. *)
Definition test2_triple (input_dots current_dots : list (list Z))
    (counts : gmap string Z) (wd : string) : suggestion :=
  let cell := edit_cell Test2.substitution_cost input_dots current_dots
                (length input_dots) (length current_dots) in
  let diff := Qc_of_Z (Z.abs (len input_dots - len current_dots)) in
  (cell + diff - learn_bonus_of (peek 0%Z counts wd), cell + half * diff, wd).

Fixpoint test2_recorded (input_dots : list (list Z)) (counts : gmap string Z)
    (node : TrieNode) (current_dots : list (list Z)) : list suggestion :=
  match node with
  | Node cs e w =>
      match carries_word e w with
      | Some wd => [test2_triple input_dots current_dots counts wd]
      | None => []
      end
      ++ (fix below (cs : list (list Z * TrieNode)) : list suggestion :=
            match cs with
            | [] => []
            | (dots, child) :: cs' =>
                test2_recorded input_dots counts child (current_dots ++ [dots])
                ++ below cs'
            end) cs
  end.

Fixpoint test2_recorded_children (input_dots : list (list Z))
    (counts : gmap string Z) (cs : list (list Z * TrieNode))
    (current_dots : list (list Z)) : list suggestion :=
  match cs with
  | [] => []
  | (dots, child) :: cs' =>
      test2_recorded input_dots counts child (current_dots ++ [dots])
      ++ test2_recorded_children input_dots counts cs' current_dots
  end.

(** The two halves of the body of [search_trie], named for the proofs. *)
Definition test2_visit (input_dots : list (list Z)) (e : bool)
    (w : option string) (current_dots : list (list Z))
    (st : list suggestion * gmap string Z) : list suggestion * gmap string Z :=
  match carries_word e w with
  | Some wd =>
      let distance := Test2.levenshtein_distance input_dots current_dots in
      let length_adjustment :=
        Qc_of_Z (Z.abs (len current_dots - len input_dots)) * half in
      let '(count, corr) := defaultdict_get 0%Z st.2 wd in
      let learning_adjustment := min2 half (tenth * Qc_of_Z count) in
      let score := distance + length_adjustment - learning_adjustment in
      (heappush st.1 (score, distance, wd), corr)
  | None => st
  end.

Fixpoint test2_children (input_dots : list (list Z))
    (cs : list (list Z * TrieNode)) (current_dots : list (list Z))
    (st : list suggestion * gmap string Z) : list suggestion * gmap string Z :=
  match cs with
  | [] => st
  | (dots, child) :: cs' =>
      test2_children input_dots cs' current_dots
        (Test2.search_trie input_dots child (current_dots ++ [dots]) st)
  end.

(** A triple scored again from its distance, with the bonus read in
    [counts]. *)
Definition rescore (counts : gmap string Z) (t : suggestion) : suggestion :=
  (t.1.2 - learn_bonus_of (peek 0%Z counts (Str.lower t.2)), t.1.2, t.2).

(** ** Further notions: the depth of a trie *)

(** The length of the longest path below [node]: the number of calls of the
    traversal that are nested below the call for [node]. *)
Fixpoint trie_depth (node : TrieNode) : nat :=
  match node with
  | Node cs _ _ =>
      (fix below (cs : list (list Z * TrieNode)) : nat :=
         match cs with
         | [] => 0%nat
         | (_, child) :: cs' => Nat.max (S (trie_depth child)) (below cs')
         end) cs
  end.

(** The traversal of the source is a recursive closure that takes one
    interpreter frame for each level of the trie, and the interpreter
    refuses a call beyond its frame limit (1000 frames by default) with
    [RecursionError].  The traversal of the model is total: it is the
    traversal of the source on tries that stay below that limit.  A trie is
    called shallow when its depth is at most half the default limit, which
    leaves the other half to the callers of the request and to the
    functions the traversal calls. *)
Definition shallow (node : TrieNode) : Prop := (trie_depth node ≤ 500)%nat.

Global Instance shallow_dec node : Decision (shallow node).
Proof. unfold shallow. apply _. Defined.
(** * Checks on the sample dictionaries of [run_tests] *)

Example keys_to_dots_DK : keys_to_dots "D+K" = Return [1; 4]%Z.
Proof. vm_compute. reflexivity. Qed.

Example input_to_braille_cat :
  input_to_braille "D+K D W+Q+O" = Return [[1; 4]; [1]; [2; 3; 5]]%Z.
Proof. vm_compute. reflexivity. Qed.

Example suggest_cat :
  (process_input "D+K D W+Q+O" "english" sample).1 = Return ["cat"].
Proof. vm_compute. reflexivity. Qed.

Example suggest_the :
  (process_input "W+Q+K+P" "english" sample).1 = Return ["the"].
Proof. vm_compute. reflexivity. Qed.

Example suggest_chat :
  (process_input "D+K D+K+O D W+Q+O" "french" sample).1 = Return ["chat"].
Proof. vm_compute. reflexivity. Qed.

(** * Parsing *)

Module StrFacts.

Lemma split_go_all_space s :
    all_space s = true → Str.split_go "" s = [].
  Proof.
    induction s as [|c r IH]; simpl; [done|].
    intros [Hc Hr]%andb_prop. rewrite Hc. simpl. auto.
  Qed.

Lemma app_nonempty (s : string) c : s +:+ String c "" ≠ "".
  Proof. destruct s; discriminate. Qed.

  (** [split()] never yields an empty token. *)
Lemma split_go_nonempty s : ∀ cur, Forall (λ t, t ≠ "") (Str.split_go cur s).
  Proof.
    induction s as [|c r IH]; intros cur; simpl.
    - destruct (decide (cur = "")); repeat constructor; done.
    - destruct (Str.isspace c).
      + destruct (decide (cur = "")); [apply IH|].
        constructor; [done | apply IH].
      + apply IH.
  Qed.

Lemma split_nonempty s : Forall (λ t, t ≠ "") (Str.split s).
  Proof. apply split_go_nonempty. Qed.

Lemma split_on_not_nil sep s : Str.split_on sep s ≠ [].
  Proof.
    destruct s as [|c r]; simpl; [done|].
    destruct (decide (c = sep)); [done|].
    destruct (Str.split_on sep r); done.
  Qed.

  (** [(l + sep + r).split(sep) == l.split(sep) + r.split(sep)] *)
Lemma split_on_app sep l r :
    Str.split_on sep (l +:+ String sep r)
    = Str.split_on sep l ++ Str.split_on sep r.
  Proof.
    induction l as [|c l IH]; simpl.
    - destruct (decide (sep = sep)); done.
    - destruct (decide (c = sep)); [by rewrite IH|].
      rewrite IH. pose proof (split_on_not_nil sep l).
      destruct (Str.split_on sep l); done.
  Qed.

End StrFacts.

Section key_mapping.

Lemma valid_keys_six : valid_keys = six_keys.
  Proof. apply set_eq. intros x. unfold valid_keys, six_keys. simpl. set_solver. Qed.

Lemma offending_symbols_difference token :
    offending_symbols token
    = list_to_set (Str.split_on "+"%char token) ∖ valid_keys.
  Proof.
    apply set_eq. intros x. unfold offending_symbols.
    rewrite elem_of_list_to_set, list_elem_of_filter, elem_of_difference,
      elem_of_list_to_set. tauto.
  Qed.

Lemma has_invalid_symbol_not_subseteq token :
    has_invalid_symbol token ↔
    ¬ (list_to_set (Str.split_on "+"%char token) : gset string) ⊆ valid_keys.
  Proof.
    split.
    - intros (seg & Hin & Hbad)%Exists_exists Hsub. apply Hbad, Hsub.
      by apply elem_of_list_to_set.
    - intros Hsub. destruct (decide (has_invalid_symbol token)) as [|Hno]; [done|].
      destruct Hsub. intros seg Hin%elem_of_list_to_set.
      destruct (decide (seg ∈ valid_keys)); [done|].
      destruct Hno. apply Exists_exists. eauto.
  Qed.

Lemma keys_to_dots_invalid token :
    token ≠ "" → has_invalid_symbol token →
    keys_to_dots token = Raise (ValueError (offending_symbols token) valid_keys).
  Proof.
    intros Hne Hbad. unfold keys_to_dots.
    destruct (decide (token = "")); [done|].
    apply has_invalid_symbol_not_subseteq in Hbad.
    destruct (decide _); [done|].
    by rewrite offending_symbols_difference.
  Qed.

Lemma keys_to_dots_valid token :
    ¬ has_invalid_symbol token → ∃ dots, keys_to_dots token = Return dots.
  Proof.
    intros Hok. unfold keys_to_dots.
    destruct (decide (token = "")); [eauto|].
    destruct (decide _) as [|Hsub]; [eauto|].
    by apply has_invalid_symbol_not_subseteq in Hsub.
  Qed.

Lemma comprehension_first_raise (pre post : list string) token e :
    Forall (λ t, ∃ dots, keys_to_dots t = Return dots) pre →
    keys_to_dots token = Raise e →
    comprehension keys_to_dots (pre ++ token :: post) = Raise e.
  Proof.
    intros Hpre Htok. induction Hpre as [|t pre [dots Ht] _ IH]; simpl.
    - by rewrite Htok.
    - by rewrite Ht, IH.
  Qed.

  (** The leftmost element of a list that satisfies a decidable property. *)
Lemma Exists_leftmost {A} (P : A → Prop) `{∀ x, Decision (P x)} (l : list A) :
    Exists P l →
    ∃ pre x post, l = pre ++ x :: post ∧ Forall (λ y, ¬ P y) pre ∧ P x.
  Proof.
    induction 1 as [x l Hx|x l _ IH].
    - exists [], x, l. by repeat split.
    - destruct (decide (P x)) as [Hx|Hx].
      + exists [], x, l. by repeat split.
      + destruct IH as (pre & y & post & -> & Hpre & Hy).
        exists (x :: pre), y, post. repeat split; [|done]. by constructor.
  Qed.

End key_mapping.

(** * Error handling of the parser *)

(** C10. A token with a leading, trailing or doubled ['+'] has the empty
    string among its segments; [keys_to_dots] raises the invalid-key error
    for it, and the empty string is one of the reported offending symbols
    (the reported set being the segments outside the valid key set). *)
Theorem keys_to_dots_empty_segment (keys : string) :
  leading_plus keys ∨ trailing_plus keys ∨ doubled_plus keys →
  "" ∈ Str.split_on "+"%char keys ∧
  ∃ offending,
    keys_to_dots keys = Raise (ValueError offending valid_keys) ∧
    "" ∈ offending ∧
    offending = offending_symbols keys.
Proof.
  intros Hshape.
  assert (keys ≠ "" ∧ "" ∈ Str.split_on "+"%char keys) as [Hne Hin].
  { destruct Hshape as [[r ->]|[[l ->]|(l & r & ->)]].
    - split; [done|]. simpl. left.
    - split; [by destruct l|].
      rewrite (StrFacts.split_on_app "+"%char l ""). simpl.
      apply elem_of_app. right. left.
    - split; [by destruct l|].
      change (l +:+ "++" +:+ r) with (l +:+ String "+"%char (String "+"%char r)).
      rewrite StrFacts.split_on_app. simpl.
      apply elem_of_app. right. left. }
  split; [done|].
  assert (has_invalid_symbol keys) as Hbad.
  { apply Exists_exists. exists "". split; [done|]. by vm_compute. }
  exists (offending_symbols keys). split; [by apply keys_to_dots_invalid|].
  split; [|done].
  unfold offending_symbols. rewrite elem_of_list_to_set, list_elem_of_filter.
  split; [by vm_compute | done].
Qed.

Lemma keys_to_dots_empty_segment_witness :
  (leading_plus "D++K" ∨ trailing_plus "D++K" ∨ doubled_plus "D++K") ∧
  ∃ offending,
    keys_to_dots "D++K" = Raise (ValueError offending valid_keys) ∧
    "" ∈ offending.
Proof.
  assert (doubled_plus "D++K") as H by (by exists "D", "K").
  split; [by right; right|].
  destruct (keys_to_dots_empty_segment "D++K") as (_ & off & ? & ? & _);
    [by right; right | by exists off].
Defined.

(** C8. On an empty or whitespace-only input [suggest_word] returns the
    empty list at once: no error is raised, and neither the tries nor the
    correction counts are read, so the state is the one before the call,
    whatever language is named and whatever its trie holds. *)
Theorem suggest_word_blank_input (input_seq language : string)
    (max_suggestions : Z) (self : BrailleAutocorrect) :
  all_space input_seq = true →
  input_to_braille input_seq = Return [] ∧
  suggest_word input_seq language max_suggestions self = (Return [], self) ∧
  process_input input_seq language self = (Return [], self).
Proof.
  intros Hblank.
  assert (input_to_braille input_seq = Return []) as Hparse.
  { unfold input_to_braille, Str.split.
    by rewrite StrFacts.split_go_all_space. }
  split; [done|].
  unfold process_input, suggest_word. by rewrite Hparse.
Qed.

Lemma suggest_word_blank_input_witness :
  all_space "  " = true ∧
  suggest_word "  " "english" 1 sample = (Return [], sample).
Proof.
  split; [reflexivity|].
  apply (suggest_word_blank_input "  " "english" 1 sample). reflexivity.
Defined.

(** C4. When some token of the input has a symbol outside the six valid
    keys, parsing raises the invalid-key error of the leftmost such token:
    it carries exactly the offending symbols of that token and the valid key
    set.  [suggest_word] and [process_input] propagate this error, return no
    suggestion list, and leave the state as it was. *)
Theorem suggest_word_invalid_key (input_seq language : string)
    (max_suggestions : Z) (self : BrailleAutocorrect) :
  Exists has_invalid_symbol (Str.split input_seq) →
  ∃ pre token post,
    Str.split input_seq = pre ++ token :: post ∧
    Forall (λ t, ¬ has_invalid_symbol t) pre ∧
    has_invalid_symbol token ∧
    let e := ValueError (offending_symbols token) six_keys in
    keys_to_dots token = Raise e ∧
    input_to_braille input_seq = Raise e ∧
    suggest_word input_seq language max_suggestions self = (Raise e, self) ∧
    process_input input_seq language self = (Raise e, self).
Proof.
  intros Hbad.
  destruct (Exists_leftmost _ _ Hbad) as (pre & token & post & Hsplit & Hpre & Htok).
  exists pre, token, post. repeat (split; [done|]). simpl.
  assert (token ≠ "") as Hne.
  { pose proof (StrFacts.split_nonempty input_seq) as Hall.
    rewrite Hsplit in Hall. apply Forall_app in Hall as [_ Hall].
    by apply Forall_cons_1 in Hall as [? _]. }
  rewrite <- valid_keys_six.
  assert (keys_to_dots token
          = Raise (ValueError (offending_symbols token) valid_keys)) as Hraise
    by by apply keys_to_dots_invalid.
  assert (input_to_braille input_seq
          = Raise (ValueError (offending_symbols token) valid_keys)) as Hparse.
  { unfold input_to_braille. rewrite Hsplit.
    apply comprehension_first_raise; [|done].
    eapply Forall_impl; [exact Hpre|]. intros t. apply keys_to_dots_valid. }
  repeat split; [done..| |]; unfold process_input, suggest_word; by rewrite Hparse.
Qed.

Lemma suggest_word_invalid_key_witness :
  Exists has_invalid_symbol (Str.split "D A+B C+D") ∧
  ∃ token,
    has_invalid_symbol token ∧
    suggest_word "D A+B C+D" "english" 1 sample
    = (Raise (ValueError (offending_symbols token) six_keys), sample).
Proof.
  assert (Exists has_invalid_symbol (Str.split "D A+B C+D")) as H.
  { apply Exists_cons_tl, Exists_cons_hd, Exists_cons_hd. by vm_compute. }
  split; [exact H|].
  destruct (suggest_word_invalid_key "D A+B C+D" "english" 1 sample H)
    as (pre & token & post & _ & _ & Htok & _ & _ & Hs & _).
  exists token. split; [exact Htok | exact Hs].
Defined.

Example suggest_word_invalid_key_AB :
  suggest_word "D A+B C+D" "english" 1 sample
  = (Raise (ValueError ({["A"]} ∪ {["B"]}) valid_keys), sample).
Proof. vm_compute. reflexivity. Qed.

(** * The order on recorded suggestions *)

Section order.

Lemma string_ltb_false_le (s1 s2 : string) :
  String.ltb s2 s1 = false ↔ String.le s1 s2.
Proof.
  unfold String.le, String.ltb, String.leb.
  rewrite (String.compare_antisym s2 s1).
  destruct (String.compare s1 s2); simpl; intuition congruence.
Qed.

(** [list.sort] orders by [<] on tuples; this is the lexicographic order
    on (score, distance, word). *)
Lemma tuple_le_lex (x y : suggestion) : tuple_le x y ↔ lex_le x y.
Proof.
  destruct x as [[s1 d1] w1], y as [[s2 d2] w2].
  unfold tuple_le, tuple_ltb, lex_le. simpl.
  destruct (decide (s2 = s1)) as [->|Hs].
  - destruct (decide (d2 = d1)) as [->|Hd].
    + rewrite string_ltb_false_le. split; [by auto|].
      intros [H|[_ [H|[_ H]]]]; [| |done]; by apply Qclt_not_eq in H.
    + rewrite bool_decide_eq_false, <- Qcle_ngt. split.
      * intros H. right. split; [done|]. left.
        apply Qcle_lt_or_eq in H as [|]; [done|congruence].
      * intros [H|[_ [H|[H _]]]]; [by apply Qclt_not_eq in H| |congruence].
        by apply Qclt_le_weak.
  - rewrite bool_decide_eq_false, <- Qcle_ngt. split.
    + intros H. left. apply Qcle_lt_or_eq in H as [|]; [done|congruence].
    + intros [H|[H _]]; [by apply Qclt_le_weak | congruence].
Qed.

Global Instance tuple_le_total : Total tuple_le.
Proof.
  intros [[s1 d1] w1] [[s2 d2] w2]. rewrite !tuple_le_lex. unfold lex_le. simpl.
  destruct (Qclt_le_dec s1 s2) as [|Hs]; [by auto|].
  apply Qcle_lt_or_eq in Hs as [?| ->]; [by auto|].
  destruct (Qclt_le_dec d1 d2) as [|Hd]; [by auto 6|].
  apply Qcle_lt_or_eq in Hd as [?| ->]; [by auto 6|].
  destruct (total String.le w1 w2); auto 8.
Qed.

Global Instance tuple_le_trans : Transitive tuple_le.
Proof.
  intros [[s1 d1] w1] [[s2 d2] w2] [[s3 d3] w3].
  rewrite !tuple_le_lex. unfold lex_le. simpl.
  intros [H12|[-> H12]] [H23|[-> H23]];
    [left; by etrans | by left | by left | right; split; [done|]].
  destruct H12 as [H12|[-> H12]], H23 as [H23|[-> H23]];
    [left; by etrans | by left | by left | right; split; [done|]].
  by etrans.
Qed.

Global Instance tuple_le_antisym : AntiSymm (=) tuple_le.
Proof.
  intros [[s1 d1] w1] [[s2 d2] w2].
  rewrite !tuple_le_lex. unfold lex_le. simpl. intros H12 H21.
  assert (s1 = s2) as ->.
  { destruct H12 as [H12|[? _]]; [|done].
    destruct H21 as [H21|[? _]]; [|done].
    exfalso. eapply (irreflexivity Qclt). by etrans. }
  assert (d1 = d2) as ->.
  { destruct H12 as [H12|[_ H12]]; [by apply Qclt_not_eq in H12|].
    destruct H21 as [H21|[_ H21]]; [by apply Qclt_not_eq in H21|].
    destruct H12 as [H12|[? _]]; [|done].
    destruct H21 as [H21|[? _]]; [|done].
    exfalso. eapply (irreflexivity Qclt). by etrans. }
  f_equal.
  destruct H12 as [H12|[_ H12]]; [by apply Qclt_not_eq in H12|].
  destruct H21 as [H21|[_ H21]]; [by apply Qclt_not_eq in H21|].
  destruct H12 as [H12|[_ H12]]; [by apply Qclt_not_eq in H12|].
  destruct H21 as [H21|[_ H21]]; [by apply Qclt_not_eq in H21|].
  by apply (anti_symm String.le).
Qed.

(** Sorting erases the order in which the suggestions were collected. *)
Lemma merge_sort_tuple_le_perm (l1 l2 : list suggestion) :
  l1 ≡ₚ l2 → merge_sort tuple_le l1 = merge_sort tuple_le l2.
Proof.
  intros Hperm. apply (Sorted_unique tuple_le).
  - apply (Sorted_merge_sort _).
  - apply (Sorted_merge_sort _).
  - by rewrite !merge_sort_Permutation.
Qed.

End order.

(** * The heap *)

Section heap.

Lemma delete_insert_same {A} (l : list A) i x :
  delete i (<[i := x]> l) = delete i l.
Proof.
  revert i. induction l as [|y l IH]; intros [|i]; simpl; [done..|].
  by rewrite IH.
Qed.

(** Overwriting position [i] with the element of position [j], and
    position [j] with [x], rearranges the list that has [x] at [i]. *)
Lemma insert_swap_Permutation {A} (l : list A) i j x y :
  i ≠ j → (i < length l)%nat → l !! j = Some y →
  <[j := x]> (<[i := y]> l) ≡ₚ <[i := x]> l.
Proof.
  intros Hij Hi Hj.
  assert (j < length l)%nat as Hjlt by (by eapply lookup_lt_Some).
  destruct (lookup_lt_is_Some_2 l i Hi) as [z Hz].
  set (l' := <[i := y]> l).
  assert (l' !! j = Some y) as Hj'
    by (unfold l'; by rewrite list_lookup_insert_ne).
  assert (l' !! i = Some y) as Hi'
    by (unfold l'; by rewrite list_lookup_insert_eq).
  rewrite (delete_Permutation (<[j := x]> l') j x)
    by (apply list_lookup_insert_eq; unfold l'; by rewrite length_insert).
  rewrite (delete_Permutation (<[i := x]> l) i x)
    by (by apply list_lookup_insert_eq).
  rewrite !delete_insert_same. f_equiv.
  apply (Permutation_cons_inv (a := y)).
  rewrite <- (delete_Permutation l' j y) by done.
  rewrite (delete_Permutation l' i y) by done.
  unfold l'. by rewrite delete_insert_same.
Qed.

Lemma siftdown_Permutation fuel : ∀ heap newitem pos,
  (pos < length heap)%nat →
  siftdown fuel heap newitem pos ≡ₚ <[pos := newitem]> heap.
Proof.
  induction fuel as [|fuel IH]; intros heap newitem pos Hpos;
    cbn [siftdown]; [done|].
  destruct (decide (0 < pos)%nat) as [Hgt|]; [|done].
  destruct (heap !! ((pos - 1) / 2)%nat) as [parent|] eqn:Hparent; [|done].
  destruct (tuple_ltb newitem parent); [|done].
  assert ((pos - 1) / 2 < pos)%nat as Hlt.
  { apply Nat.Div0.div_lt_upper_bound. lia. }
  rewrite IH by (rewrite length_insert; lia).
  apply insert_swap_Permutation; [lia | done | done].
Qed.

(** [heappush] adds the item and keeps every other element. *)
Lemma heappush_Permutation heap item : heappush heap item ≡ₚ heap ++ [item].
Proof.
  unfold heappush.
  rewrite siftdown_Permutation by (rewrite length_app; simpl; lia).
  rewrite length_app. simpl.
  replace (length heap + 1 - 1)%nat with (length heap + 0)%nat by lia.
  by rewrite insert_app_r.
Qed.

(** The fuel of [siftdown] is never exhausted before the loop ends: with
    at least [pos] units, more fuel changes nothing. *)
Lemma siftdown_fuel fuel : ∀ fuel' heap newitem pos,
  (pos ≤ fuel)%nat → (pos ≤ fuel')%nat →
  siftdown fuel heap newitem pos = siftdown fuel' heap newitem pos.
Proof.
  induction fuel as [|fuel IH]; intros [|fuel'] heap newitem pos H1 H2;
    cbn [siftdown]; try done.
  - destruct (decide (0 < pos)%nat); [lia|done].
  - destruct (decide (0 < pos)%nat); [lia|done].
  - destruct (decide (0 < pos)%nat) as [Hgt|]; [|done].
    destruct (heap !! ((pos - 1) / 2)%nat) as [parent|]; [|done].
    destruct (tuple_ltb newitem parent); [|done].
    assert ((pos - 1) / 2 < pos)%nat as Hlt.
    { apply Nat.Div0.div_lt_upper_bound. lia. }
    apply IH; lia.
Qed.

End heap.

(** * The traversal *)

Section traversal.

(** Induction on tries: the property of a node follows from the property
    of its children. *)
Lemma TrieNode_rect_children (P : TrieNode → Prop) :
  (∀ cs e w, Forall (λ kc, P kc.2) cs → P (Node cs e w)) → ∀ node, P node.
Proof.
  intros Hnode. fix IH 1. intros [cs e w]. apply Hnode.
  induction cs as [|[k c] cs IHcs]; constructor; [apply IH | apply IHcs].
Qed.

Lemma dfs_unfold input_dots cs e w current_dots st :
  dfs input_dots (Node cs e w) current_dots st
  = dfs_children input_dots cs current_dots
      (dfs_visit input_dots e w current_dots st).
Proof.
  simpl. fold (dfs_visit input_dots e w current_dots st).
  generalize (dfs_visit input_dots e w current_dots st).
  induction cs as [|[dots child] cs IH]; intros st'; simpl; [done|].
  by rewrite IH.
Qed.

Lemma recorded_unfold input_dots counts cs e w current_dots :
  recorded input_dots counts (Node cs e w) current_dots
  = match carries_word e w with
    | Some wd =>
        let dist := levenshtein_distance input_dots current_dots in
        [(dist - learn_bonus_of (peek 0%Z counts (Str.lower wd)), dist, wd)]
    | None => []
    end ++ recorded_children input_dots counts cs current_dots.
Proof.
  simpl. f_equal.
  induction cs as [|[dots child] cs IH]; simpl; [done|]. by rewrite IH.
Qed.

(** Reading a [defaultdict] leaves what it reads at every key. *)
Lemma peek_defaultdict_get {V} (dflt : V) d k :
  (defaultdict_get dflt d k).1 = peek dflt d k ∧
  ∀ k', peek dflt (defaultdict_get dflt d k).2 k' = peek dflt d k'.
Proof.
  unfold defaultdict_get, peek. destruct (d !! k) eqn:Hk; simpl; [done|].
  split; [done|]. intros k'.
  destruct (decide (k = k')) as [<-|Hne].
  - by rewrite lookup_insert_eq, Hk.
  - by rewrite lookup_insert_ne.
Qed.

Lemma default_extends_refl {V} (dflt : V) d : default_extends dflt d d.
Proof. intros k. by left. Qed.

Lemma default_extends_trans {V} (dflt : V) d1 d2 d3 :
  default_extends dflt d1 d2 → default_extends dflt d2 d3 →
  default_extends dflt d1 d3.
Proof.
  intros H12 H23 k. destruct (H12 k) as [E12|[E1 E2]], (H23 k) as [E23|[E2' E3]].
  - left. congruence.
  - right. split; congruence.
  - right. split; congruence.
  - congruence.
Qed.

Lemma default_extends_get {V} (dflt : V) d k :
  default_extends dflt d (defaultdict_get dflt d k).2.
Proof.
  unfold defaultdict_get. destruct (d !! k) eqn:Hk; simpl.
  - apply default_extends_refl.
  - intros k'. destruct (decide (k = k')) as [<-|Hne].
    + right. by rewrite lookup_insert_eq.
    + left. by rewrite lookup_insert_ne.
Qed.

Lemma default_extends_peek {V} (dflt : V) d d' :
  default_extends dflt d d' → ∀ k, peek dflt d' k = peek dflt d k.
Proof. intros H k. unfold peek. destruct (H k) as [->|[-> ->]]; done. Qed.

Lemma default_extends_same_counts d d' :
  default_extends 0%Z d d' → same_counts d' d.
Proof. intros H k. by apply default_extends_peek. Qed.

Lemma recorded_same_counts input_dots c1 c2 :
  same_counts c1 c2 →
  ∀ node current_dots,
    recorded input_dots c1 node current_dots
    = recorded input_dots c2 node current_dots.
Proof.
  intros Hsame node. induction node as [cs e w IH] using TrieNode_rect_children.
  intros current_dots. rewrite !recorded_unfold. f_equal.
  - destruct (carries_word e w); [|done]. simpl. by rewrite Hsame.
  - induction IH as [|[dots child] cs Hc _ IHcs]; simpl; [done|].
    by rewrite Hc, IHcs.
Qed.

Lemma recorded_children_same_counts input_dots c1 c2 cs current_dots :
  same_counts c1 c2 →
  recorded_children input_dots c1 cs current_dots
  = recorded_children input_dots c2 cs current_dots.
Proof.
  intros Hsame. induction cs as [|[d ch] cs IHcs]; simpl; [done|].
  by rewrite IHcs, (recorded_same_counts input_dots _ _ Hsame).
Qed.

Lemma dfs_visit_spec input_dots e w current_dots heap counts :
  let st' := dfs_visit input_dots e w current_dots (heap, counts) in
  st'.1 ≡ₚ heap ++ match carries_word e w with
                   | Some wd =>
                       let dist := levenshtein_distance input_dots current_dots in
                       [(dist - learn_bonus_of (peek 0%Z counts (Str.lower wd)),
                         dist, wd)]
                   | None => []
                   end
  ∧ default_extends 0%Z counts st'.2.
Proof.
  unfold dfs_visit. destruct (carries_word e w) as [wd|]; simpl.
  - pose proof (peek_defaultdict_get 0%Z counts (Str.lower wd)) as [H1 _].
    pose proof (default_extends_get 0%Z counts (Str.lower wd)) as H2.
    destruct (defaultdict_get 0%Z counts (Str.lower wd)) as [count corr].
    simpl in *. subst count. split; [|done].
    by rewrite heappush_Permutation.
  - rewrite app_nil_r. split; [done | apply default_extends_refl].
Qed.

(** The suggestions collected by [dfs] are those of [recorded], in some
    order; the correction store gains zero entries at most. *)
Lemma dfs_spec input_dots node :
  ∀ current_dots heap counts,
    let st' := dfs input_dots node current_dots (heap, counts) in
    st'.1 ≡ₚ heap ++ recorded input_dots counts node current_dots
    ∧ default_extends 0%Z counts st'.2.
Proof.
  induction node as [cs e w IH] using TrieNode_rect_children.
  intros current_dots heap counts. cbv zeta.
  rewrite dfs_unfold, recorded_unfold.
  pose proof (dfs_visit_spec input_dots e w current_dots heap counts) as [Hv1 Hv2].
  destruct (dfs_visit input_dots e w current_dots (heap, counts)) as [heap1 counts1].
  simpl in Hv1, Hv2. rewrite app_assoc, <- Hv1.
  rewrite <- (recorded_children_same_counts input_dots _ _ cs current_dots
                (default_extends_same_counts _ _ Hv2)).
  clear Hv1. revert heap1 counts1 Hv2.
  induction IH as [|[dots child] cs Hc _ IHcs]; intros heap1 counts1 Hv2; simpl.
  - by rewrite app_nil_r.
  - specialize (Hc (current_dots ++ [dots]) heap1 counts1). simpl in Hc.
    destruct Hc as [Hc1 Hc2].
    destruct (dfs input_dots child (current_dots ++ [dots]) (heap1, counts1))
      as [heap2 counts2]. simpl in Hc1, Hc2.
    destruct (IHcs heap2 counts2) as [H1 H2].
    { eapply default_extends_trans; [exact Hv2 | exact Hc2]. }
    split; [|exact H2].
    rewrite H1, Hc1, <- app_assoc. do 2 f_equiv.
    by rewrite (recorded_children_same_counts input_dots counts2 counts1)
      by by apply default_extends_same_counts.
Qed.

(** What [suggest_word] computes on an input that parses to a non-empty
    sequence: the sorted list of the recorded suggestions, cut at
    [max_suggestions]; the stores gain default entries at most. *)
Lemma suggest_word_parsed input_seq language max_suggestions self input_dots :
  input_to_braille input_seq = Return input_dots → input_dots ≠ [] →
  let root := peek TrieNode_new (dictionaries self) language in
  let r := suggest_word input_seq language max_suggestions self in
  r.1 = Return ((slice_to
                   (merge_sort tuple_le
                      (recorded input_dots (corrections self) root []))
                   max_suggestions).*2)
  ∧ dictionaries r.2 = (defaultdict_get TrieNode_new (dictionaries self) language).2
  ∧ default_extends 0%Z (corrections self) (corrections r.2).
Proof.
  intros Hparse Hne. simpl. unfold suggest_word. rewrite Hparse.
  destruct (decide (input_dots = [])); [done|].
  pose proof (peek_defaultdict_get TrieNode_new (dictionaries self) language)
    as [Hroot _].
  destruct (defaultdict_get TrieNode_new (dictionaries self) language)
    as [root dicts]. simpl in Hroot. subst root.
  pose proof (dfs_spec input_dots (peek TrieNode_new (dictionaries self) language)
                [] [] (corrections self)) as [Hd1 Hd2].
  destruct (dfs input_dots _ [] ([], corrections self)) as [heap corr].
  simpl in *. repeat split; [|done].
  by rewrite (merge_sort_tuple_le_perm _ _ Hd1).
Qed.

End traversal.

(** * Languages without a dictionary, and the frame of a request *)

Section frame.

Lemma recorded_new input_dots counts current_dots :
  recorded input_dots counts TrieNode_new current_dots = [].
Proof. done. Qed.

Lemma defaultdict_get_None {V} (dflt : V) d k :
  d !! k = None → defaultdict_get dflt d k = (dflt, <[k := dflt]> d).
Proof. unfold defaultdict_get. by intros ->. Qed.

Lemma defaultdict_get_Some {V} (dflt : V) d k v :
  d !! k = Some v → defaultdict_get dflt d k = (v, d).
Proof. unfold defaultdict_get. by intros ->. Qed.

Lemma slice_to_nil {A} k : slice_to (@nil A) k = [].
Proof. unfold slice_to. destruct (decide _); by rewrite take_nil. Qed.

(** The three ways a call of [suggest_word] ends, by the parsed input. *)
Lemma suggest_word_cases input_seq language max_suggestions self :
  match input_to_braille input_seq with
  | Raise e =>
      suggest_word input_seq language max_suggestions self = (Raise e, self)
  | Return [] =>
      suggest_word input_seq language max_suggestions self = (Return [], self)
  | Return input_dots =>
      let r := suggest_word input_seq language max_suggestions self in
      r.1 = Return ((slice_to
                       (merge_sort tuple_le
                          (recorded input_dots (corrections self)
                             (peek TrieNode_new (dictionaries self) language) []))
                       max_suggestions).*2)
      ∧ dictionaries r.2
        = (defaultdict_get TrieNode_new (dictionaries self) language).2
      ∧ default_extends 0%Z (corrections self) (corrections r.2)
  end.
Proof.
  destruct (input_to_braille input_seq) as [[|dots input_dots]|e] eqn:Hparse.
  - unfold suggest_word. by rewrite Hparse.
  - by apply suggest_word_parsed.
  - unfold suggest_word. by rewrite Hparse.
Qed.

End frame.

(** C2, as the code has it.  A call of [suggest_word] or [process_input] for
    a language without a dictionary never fails on account of the language:
    the registry is a [defaultdict], so the call registers an empty trie for
    the language and returns the empty list.  The only error is the
    invalid-key error of the parser, and a blank input returns the empty
    list before the registry is read. *)
Theorem suggest_word_unknown_language (input_seq language : string)
    (max_suggestions : Z) (self : BrailleAutocorrect) :
  dictionaries self !! language = None →
  match input_to_braille input_seq with
  | Raise e =>
      suggest_word input_seq language max_suggestions self = (Raise e, self) ∧
      ∃ offending, e = ValueError offending valid_keys
  | Return [] =>
      suggest_word input_seq language max_suggestions self = (Return [], self)
  | Return (_ :: _) =>
      suggest_word input_seq language max_suggestions self
      = (Return [],
         {| dictionaries := <[language := TrieNode_new]> (dictionaries self);
            corrections := corrections self |})
  end.
Proof.
  intros Hnone.
  destruct (input_to_braille input_seq) as [[|dots input_dots]|e] eqn:Hparse.
  - unfold suggest_word. by rewrite Hparse.
  - unfold suggest_word. rewrite Hparse.
    destruct (decide _); [done|].
    rewrite (defaultdict_get_None _ _ _ Hnone).
    change (dfs (dots :: input_dots) TrieNode_new [] ([], corrections self))
      with (@nil suggestion, corrections self).
    cbn. by rewrite slice_to_nil.
  - split; [unfold suggest_word; by rewrite Hparse|].
    unfold input_to_braille in Hparse.
    induction (Str.split input_seq) as [|t ts IH]; simpl in Hparse; [done|].
    destruct (keys_to_dots t) as [d|e'] eqn:Ht; simpl in Hparse.
    + destruct (comprehension keys_to_dots ts); simpl in Hparse; [done|].
      apply IH. congruence.
    + injection Hparse as <-. unfold keys_to_dots in Ht.
      destruct (decide (t = "")); [done|].
      destruct (decide _); [done|]. injection Ht as <-. eauto.
Qed.

Lemma suggest_word_unknown_language_witness :
  dictionaries BrailleAutocorrect_init !! "german" = None ∧
  suggest_word "D+K D" "german" 1 BrailleAutocorrect_init
  = (Return [],
     {| dictionaries := <["german" := TrieNode_new]> ∅; corrections := ∅ |}).
Proof.
  split; [reflexivity|].
  exact (suggest_word_unknown_language "D+K D" "german" 1
           BrailleAutocorrect_init eq_refl).
Defined.

(** C2, as stated, fails: no dictionary was loaded for the language, the
    input is a valid key group, and the call returns the empty list; it
    does not raise. *)
Lemma suggest_word_unknown_language_returns :
  dictionaries sample !! "german" = None ∧
  (suggest_word "D" "german" 1 sample).1 = Return [] ∧
  (process_input "D" "german" sample).1 = Return [] ∧
  ¬ ∃ e, (suggest_word "D" "german" 1 sample).1 = Raise e.
Proof.
  assert ((suggest_word "D" "german" 1 sample).1 = Return []) as H
    by (vm_compute; reflexivity).
  split; [vm_compute; reflexivity|].
  split; [exact H|]. split; [exact H|].
  intros [e He]. rewrite H in He. discriminate He.
Qed.

(** C5, as stated, fails: after a request the correction store holds a
    zero entry for every candidate word it had no entry for, and the
    registry holds an empty trie for a language it did not know. *)
Lemma suggest_word_changes_state :
  (suggest_word "D" "english" 1 sample).2 ≠ sample ∧
  corrections sample !! "cat" = None ∧
  corrections (suggest_word "D" "english" 1 sample).2 !! "cat" = Some 0%Z ∧
  dictionaries sample !! "german" = None ∧
  dictionaries (suggest_word "D" "german" 1 sample).2 !! "german"
  = Some TrieNode_new.
Proof.
  assert (corrections (suggest_word "D" "english" 1 sample).2 !! "cat"
          = Some 0%Z) as H by (vm_compute; reflexivity).
  split.
  { intros Heq. apply (f_equal (λ s, corrections s !! "cat")) in Heq.
    vm_compute in Heq. discriminate Heq. }
  split; [vm_compute; reflexivity|]. split; [exact H|].
  split; vm_compute; reflexivity.
Qed.

(** C5, as the code has it.  A call of [suggest_word] or [process_input]
    keeps the trie of every registered language and the value of every
    stored count; what the two stores read at any key (an empty trie for a
    missing language, 0 for a missing word) is the same before and after.
    The call can add entries at these default values only: an empty trie for
    the requested language, zero counts for words.  [learn_correction]
    changes the count of the lower-cased word by one and nothing else, and
    [add_word] and [load_dictionary] change no count. *)
Theorem suggest_word_frame (input_seq language : string)
    (max_suggestions : Z) (self : BrailleAutocorrect) :
  let self' := (suggest_word input_seq language max_suggestions self).2 in
  (process_input input_seq language self).2
  = (suggest_word input_seq language 1 self).2 ∧
  (∀ l, peek TrieNode_new (dictionaries self') l
        = peek TrieNode_new (dictionaries self) l) ∧
  (∀ l, dictionaries self' !! l = dictionaries self !! l ∨
        (l = language ∧ dictionaries self !! l = None ∧
         dictionaries self' !! l = Some TrieNode_new)) ∧
  (∀ w, peek 0%Z (corrections self') w = peek 0%Z (corrections self) w) ∧
  (∀ w, corrections self' !! w = corrections self !! w ∨
        (corrections self !! w = None ∧ corrections self' !! w = Some 0%Z)) ∧
  (∀ i w,
     let self'' := (learn_correction i w self).2 in
     dictionaries self'' = dictionaries self ∧
     corrections self''
     = <[Str.lower w := (peek 0%Z (corrections self) (Str.lower w) + 1)%Z]>
         (corrections self)) ∧
  (∀ w l, corrections (add_word w l self).2 = corrections self) ∧
  (∀ ws l, corrections (load_dictionary ws l self).2 = corrections self).
Proof.
  simpl. split; [done|].
  assert (default_extends TrieNode_new (dictionaries self)
            (dictionaries (suggest_word input_seq language max_suggestions self).2)
          ∧ (∀ l, dictionaries
                    (suggest_word input_seq language max_suggestions self).2 !! l
                  = dictionaries self !! l ∨ l = language)
          ∧ default_extends 0%Z (corrections self)
              (corrections (suggest_word input_seq language max_suggestions self).2))
    as (Hd & Hl & Hc).
  { pose proof (suggest_word_cases input_seq language max_suggestions self) as H.
    destruct (input_to_braille input_seq) as [[|dots input_dots]|e].
    - rewrite H. repeat split; try apply default_extends_refl. by left.
    - destruct H as (_ & -> & Hc). split; [apply default_extends_get|].
      split; [|done]. intros l. unfold defaultdict_get.
      destruct (dictionaries self !! language); simpl; [by left|].
      destruct (decide (language = l)) as [->|]; [by right|].
      left. by rewrite lookup_insert_ne.
    - rewrite H. repeat split; try apply default_extends_refl. by left. }
  split; [by apply default_extends_peek|].
  split.
  { intros l. destruct (Hd l) as [?|[? ?]]; [by left|].
    destruct (Hl l) as [?| ->]; [by left | by right]. }
  split; [by apply default_extends_peek|].
  split; [done|].
  split.
  { intros i w. unfold learn_correction.
    pose proof (peek_defaultdict_get 0%Z (corrections self) (Str.lower w)) as [H1 _].
    unfold defaultdict_get in *.
    destruct (corrections self !! Str.lower w) eqn:Hw; simpl in *; subst.
    - done.
    - split; [done|]. unfold peek. rewrite Hw. simpl.
      by rewrite insert_insert_eq. }
  assert (∀ w l s, corrections (add_word w l s).2 = corrections s) as Hadd.
  { intros w l s. unfold add_word.
    destruct (defaultdict_get TrieNode_new (dictionaries s) l) as [root dicts].
    by destruct (add_word_from _ _ _ _). }
  split; [intros w l; apply Hadd|].
  intros ws l. unfold load_dictionary.
  assert (∀ s, corrections (add_words ws l s).2 = corrections s) as Hadds.
  { induction ws as [|w ws IH]; intros s; simpl; [done|].
    specialize (Hadd w l s).
    destruct (add_word w l s) as [[[]|e] s']; simpl in *; [|done].
    by rewrite IH. }
  specialize (Hadds self).
  destruct (add_words ws l self) as [[[]|e] s']; simpl in *; [|done].
  destruct (decide (l = "english")); [|done]. simpl.
  unfold add_contractions, contractions, CONTRACTIONS. simpl.
  by destruct (defaultdict_get TrieNode_new (dictionaries s') l).
Qed.

(** * The two scorers *)

Example two_words_braille :
  (suggest_word "W" "french" 2 two_words).1 = Return ["t"; "a"].
Proof. vm_compute. reflexivity. Qed.

Example two_words_test2 :
  (Test2.suggest_word "W" "french" 2 two_words).1 = Return ["a"; "t"].
Proof. vm_compute. reflexivity. Qed.

(** C9. There are a dictionary and an input on which the scorer of
    [braille.py] (overlap-based substitution cost, length penalty added
    once) and the scorer of [test2.py] (symmetric difference over 6, length
    penalty inside the distance and again in the score) rank differently:
    with the words "a" and "t" and the single key group "W", the first
    suggests "t" and the second "a".  So the two [suggest_word] functions
    are not equal. *)
Theorem scorer_variants_disagree :
  (∃ (words : list string) (input_seq language : string) (k : Z),
     let self := (load_dictionary words language BrailleAutocorrect_init).2 in
     (suggest_word input_seq language k self).1
     ≠ (Test2.suggest_word input_seq language k self).1) ∧
  (suggest_word "W" "french" 1 two_words).1 = Return ["t"] ∧
  (Test2.suggest_word "W" "french" 1 two_words).1 = Return ["a"] ∧
  suggest_word ≠ Test2.suggest_word.
Proof.
  assert ((suggest_word "W" "french" 1 two_words).1 = Return ["t"]) as H1
    by (vm_compute; reflexivity).
  assert ((Test2.suggest_word "W" "french" 1 two_words).1 = Return ["a"]) as H2
    by (vm_compute; reflexivity).
  split; [|split; [exact H1|split; [exact H2|]]].
  - exists ["a"; "t"], "W", "french", 1%Z. cbv zeta. fold two_words.
    rewrite H1, H2. discriminate.
  - intros Heq. rewrite Heq, H2 in H1. discriminate H1.
Qed.

(** * The learning store *)

Section learning.

Lemma tenth_five : tenth * Qc_of_Z 5 = half.
Proof. apply Qc_is_canon. reflexivity. Qed.

Lemma tenth_nonneg : 0 ≤ tenth.
Proof. unfold tenth. by apply Qcle_alt. Qed.

(** From a count of 5 on, the bonus is the cap. *)
Lemma learn_bonus_of_capped (count : Z) :
  (5 ≤ count)%Z → learn_bonus_of count = half.
Proof.
  intros Hc. unfold learn_bonus_of, min2.
  destruct (decide (tenth * Qc_of_Z count < half)) as [Hlt|]; [|done].
  exfalso. apply Qclt_not_le in Hlt. apply Hlt.
  rewrite <- tenth_five. apply Qcmult_le_mono_nonneg_l; [apply tenth_nonneg|].
  exact (proj1 (Z2Qc_inj_le 5 count) Hc).
Qed.

Lemma recorded_same_bonus input_dots c1 c2 :
  (∀ k, learn_bonus_of (peek 0%Z c1 k) = learn_bonus_of (peek 0%Z c2 k)) →
  ∀ node current_dots,
    recorded input_dots c1 node current_dots
    = recorded input_dots c2 node current_dots.
Proof.
  intros Hsame node. induction node as [cs e w IH] using TrieNode_rect_children.
  intros current_dots. rewrite !recorded_unfold. f_equal.
  - destruct (carries_word e w); [|done]. simpl. by rewrite Hsame.
  - induction IH as [|[dots child] cs Hc _ IHcs]; simpl; [done|].
    by rewrite Hc, IHcs.
Qed.

(** The score of every recorded suggestion is its distance less the bonus
    of the count stored for its lower-cased word. *)
Lemma recorded_score input_dots counts node :
  ∀ current_dots t,
    t ∈ recorded input_dots counts node current_dots →
    t.1.1 = t.1.2 - min2 half (tenth * Qc_of_Z (peek 0%Z counts (Str.lower t.2))).
Proof.
  induction node as [cs e w IH] using TrieNode_rect_children.
  intros current_dots t. rewrite recorded_unfold, elem_of_app. intros [Ht|Ht].
  - destruct (carries_word e w); [|by apply elem_of_nil in Ht].
    apply list_elem_of_singleton in Ht. by subst t.
  - induction IH as [|[dots child] cs Hc _ IHcs]; simpl in Ht.
    + by apply elem_of_nil in Ht.
    + apply elem_of_app in Ht as [Ht|Ht]; [by eapply Hc | by apply IHcs].
Qed.

Lemma learn_correction_corrections input_seq w self :
  corrections (learn_correction input_seq w self).2
  = <[Str.lower w := (count_of self w + 1)%Z]> (corrections self).
Proof.
  unfold learn_correction, count_of, peek, defaultdict_get.
  destruct (corrections self !! Str.lower w); simpl; [done|].
  by rewrite insert_insert_eq.
Qed.

Lemma learn_correction_dictionaries input_seq w self :
  dictionaries (learn_correction input_seq w self).2 = dictionaries self.
Proof.
  unfold learn_correction.
  by destruct (defaultdict_get 0%Z (corrections self) (Str.lower w)).
Qed.

Lemma learn_correction_count input_seq w self :
  count_of (learn_correction input_seq w self).2 w = (count_of self w + 1)%Z.
Proof.
  unfold count_of at 1. rewrite learn_correction_corrections.
  unfold peek. by rewrite lookup_insert_eq.
Qed.

Lemma learn_correction_other input_seq w self k :
  k ≠ Str.lower w →
  peek 0%Z (corrections (learn_correction input_seq w self).2) k
  = peek 0%Z (corrections self) k.
Proof.
  intros Hk. rewrite learn_correction_corrections. unfold peek.
  by rewrite lookup_insert_ne.
Qed.

Lemma learn_times_count n input_seq w self :
  count_of (learn_times n input_seq w self) w = (count_of self w + Z.of_nat n)%Z.
Proof.
  induction n as [|n IH]; [simpl; lia|].
  change (learn_times (S n) input_seq w self)
    with (learn_correction input_seq w (learn_times n input_seq w self)).2.
  rewrite learn_correction_count, IH. lia.
Qed.

End learning.

(** * The scorer *)

Arguments edit_cell : simpl never.

Section scorer.

Lemma min2_comm a b : min2 a b = min2 b a.
Proof.
  unfold min2. destruct (decide (b < a)) as [Hba|Hba], (decide (a < b)) as [Hab|Hab];
    try done.
  - exfalso. eapply (irreflexivity Qclt). by etrans.
  - apply Qcnot_lt_le in Hba, Hab. by apply Qcle_antisym.
Qed.

Lemma min3_swap a b c : min3 a b c = min3 b a c.
Proof. unfold min3. by rewrite (min2_comm a b). Qed.

Lemma normalized_dot_distance_subCost p q :
  normalized_dot_distance p q = subCost (list_to_set p) (list_to_set q).
Proof. done. Qed.

Lemma subCost_comm p q : subCost p q = subCost q p.
Proof.
  unfold subCost.
  by rewrite (comm_L (∪) p q), (comm_L (∩) p q).
Qed.

Lemma subCost_empty : subCost ∅ ∅ = 1.
Proof. done. Qed.

Lemma of_nat_nonzero n : n ≠ 0%nat → of_nat n ≠ 0.
Proof.
  intros Hn H. unfold of_nat in H. rewrite <- Z2Qc_inj_0 in H.
  apply Z2Qc_inj in H. lia.
Qed.

Lemma subCost_same p : p ≠ ∅ → subCost p p = 0.
Proof.
  intros Hp. unfold subCost.
  rewrite (idemp_L (∪) p), (idemp_L (∩) p).
  assert (size p ≠ 0%nat) as Hsize.
  { apply size_non_empty_iff. by intros ?%leibniz_equiv. }
  destruct (decide (size p = 0%nat)); [done|].
  unfold Qcdiv. rewrite Qcmult_inv_r by (by apply of_nat_nonzero). ring.
Qed.

Section table.
Context (cost : list Z → list Z → Qc) (A B : list (list Z)).

Local Notation "'D'" := (edit_cell cost A B).

Lemma edit_cell_S_S i j :
  D (S i) (S j)
  = min3 (D i (S j) + 1) (D (S i) j + 1)
         (D i j + cost (default [] (A !! i)) (default [] (B !! j))).
Proof. done. Qed.

Lemma item_cells i n j :
  (j < n)%nat → item (D i <$> seq 0 n) j = D i j.
Proof.
  intros Hj. unfold item.
  by rewrite list_lookup_fmap, lookup_seq_lt.
Qed.

(** One pass of the inner loop turns row [i] of the table into row
    [i + 1]. *)
Lemma levenshtein_inner_row i c1 :
  A !! i = Some c1 →
  ∀ word_dots j,
    word_dots = drop j B → (j ≤ length B)%nat →
    levenshtein_inner cost c1 (D i <$> seq 0 (S (length B))) word_dots j
      (D (S i) <$> seq 0 (S j))
    = D (S i) <$> seq 0 (S (length B)).
Proof.
  intros Hc1 word_dots. induction word_dots as [|c2 word_dots IH];
    intros j Hdrop Hj; cbn [levenshtein_inner].
  - symmetry in Hdrop. apply drop_nil_inv in Hdrop.
    by replace j with (length B) by lia.
  - assert (B !! j = Some c2) as Hc2.
    { rewrite <- (Nat.add_0_r j), <- lookup_drop, <- Hdrop. done. }
    assert (j < length B)%nat as Hlt by (by eapply lookup_lt_Some).
    rewrite !item_cells by lia.
    replace (j + 1)%nat with (S j) by lia.
    rewrite <- (IH (S j)); [| |lia].
    + f_equal. rewrite (seq_S (S j)), fmap_app. simpl. do 2 f_equal.
      rewrite edit_cell_S_S. by rewrite Hc1, Hc2.
    + by rewrite (drop_S B c2 j) in Hdrop; [injection Hdrop|].
Qed.

Lemma levenshtein_rows_table :
  ∀ input_dots i,
    input_dots = drop i A → (i ≤ length A)%nat →
    levenshtein_rows cost input_dots B i (D i <$> seq 0 (S (length B)))
    = D (length A) <$> seq 0 (S (length B)).
Proof.
  induction input_dots as [|c1 input_dots IH]; intros i Hdrop Hi;
    cbn [levenshtein_rows].
  - symmetry in Hdrop. apply drop_nil_inv in Hdrop.
    by replace i with (length A) by lia.
  - assert (A !! i = Some c1) as Hc1.
    { rewrite <- (Nat.add_0_r i), <- lookup_drop, <- Hdrop. done. }
    assert (i < length A)%nat as Hlt by (by eapply lookup_lt_Some).
    replace (i + 1)%nat with (S i) by lia.
    change [of_nat (S i)] with (D (S i) <$> seq 0 1).
    rewrite (levenshtein_inner_row i c1 Hc1 B 0); [|done|lia].
    apply (IH (S i)); [|lia].
    by rewrite (drop_S A c1 i) in Hdrop; [injection Hdrop|].
Qed.

Lemma last_item_cells i n : last_item (D i <$> seq 0 (S n)) = D i n.
Proof.
  unfold last_item. rewrite seq_S, fmap_app. simpl. by rewrite last_snoc.
Qed.

End table.

(** The table of the swapped sequences is the transposed table. *)
Lemma edit_cell_transpose cost A B i :
  (∀ p q, cost p q = cost q p) →
  ∀ j, edit_cell cost A B i j = edit_cell cost B A j i.
Proof.
  intros Hsym. induction i as [|i IHi]; intros j.
  - by destruct j.
  - induction j as [|j IHj]; [done|].
    rewrite !edit_cell_S_S, IHj, !IHi, (Hsym (default [] (A !! i))).
    apply min3_swap.
Qed.

Lemma levenshtein_with_table cost A B :
  (∀ p q, cost p q = cost q p) →
  levenshtein_with cost A B
  = edit_cell cost A B (length A) (length B)
    + half * Qc_of_Z (Z.abs (len A - len B)).
Proof.
  intros Hsym. unfold levenshtein_with. rewrite (Qcmult_comm half).
  destruct (decide (len A < len B)%Z) as [Hlt|Hge].
  - (* the sequences are swapped *)
    rewrite (edit_cell_transpose cost A B) by done.
    destruct A as [|a A'].
    + f_equal. by destruct B.
    + f_equal.
      change (of_nat <$> seq 0 (length (a :: A') + 1))
        with (edit_cell cost B (a :: A') 0 <$> seq 0 (length (a :: A') + 1)).
      replace (length (a :: A') + 1)%nat with (S (length (a :: A'))) by lia.
      rewrite (levenshtein_rows_table cost B (a :: A') B 0); [|done|lia].
      apply last_item_cells.
  - destruct B as [|b B'].
    + f_equal. unfold len. by destruct A.
    + f_equal.
      change (of_nat <$> seq 0 (length (b :: B') + 1))
        with (edit_cell cost A (b :: B') 0 <$> seq 0 (length (b :: B') + 1)).
      replace (length (b :: B') + 1)%nat with (S (length (b :: B'))) by lia.
      rewrite (levenshtein_rows_table cost A (b :: B') A 0); [|done|lia].
      apply last_item_cells.
Qed.

End scorer.

(** C3. The distance of the scorer is the final cell of the standard
    edit-distance table of the two sequences (unit insertion and deletion
    cost, substitution cost [subCost]), plus the length penalty
    [0.5 * |n - m|], which is added once, outside the table.  The
    substitution cost the code computes on two patterns is [subCost] of their
    dot sets; it is 1 on two empty patterns, 0 on equal non-empty ones, and
    symmetric. *)
Theorem levenshtein_distance_standard (A B : list (list Z)) :
  levenshtein_distance A B
  = standard_edit_distance A B + half * Qc_of_Z (Z.abs (len A - len B)) ∧
  (∀ p q : list Z,
     normalized_dot_distance p q = subCost (list_to_set p) (list_to_set q)) ∧
  normalized_dot_distance [] [] = 1 ∧
  subCost ∅ ∅ = 1 ∧
  (∀ p : gset Z, p ≠ ∅ → subCost p p = 0) ∧
  (∀ p q : gset Z, subCost p q = subCost q p).
Proof.
  split; [|split; [done|split; [done|split; [done|split]]]].
  - unfold levenshtein_distance, standard_edit_distance.
    apply (levenshtein_with_table
             (λ p q, subCost (list_to_set p) (list_to_set q))).
    intros p q. apply subCost_comm.
  - apply subCost_same.
  - apply subCost_comm.
Qed.

Example levenshtein_distance_cat :
  levenshtein_distance [[1; 4]; [1]; [2; 3; 5]]%Z [[1; 4]; [1]; [2; 3; 4; 5]]%Z
  = Q2Qc (1 # 4).
Proof. apply Qc_is_canon. vm_compute. reflexivity. Qed.

(** * Ranking *)

Section ranking.

Lemma StronglySorted_tuple_le_lex l :
  StronglySorted tuple_le l → StronglySorted lex_le l.
Proof.
  induction 1 as [|x l _ IH Hx]; constructor; [done|].
  eapply Forall_impl; [exact Hx|]. intros y. apply tuple_le_lex.
Qed.

Lemma take_min_length {A} (l : list A) (k : Z) :
  (0 ≤ k)%Z → take (Z.to_nat k) l = take (Z.to_nat (Z.min k (len l))) l.
Proof.
  intros Hk. unfold len. destruct (decide (k ≤ Z.of_nat (length l))%Z).
  - by rewrite Z.min_l.
  - rewrite Z.min_r by lia. rewrite Nat2Z.id, !take_ge; [done|lia|lia].
Qed.

End ranking.

(** C6. For a request that parses to a non-empty sequence and asks for
    [k ≥ 0] suggestions, [suggest_word] returns the words of the first
    [min(k, n)] of the [n] recorded triples [(score, distance, word)] taken
    in ascending order, where triples are compared by score, then by
    distance, then by the word, lexicographically; the sorted list is the one
    sorted rearrangement of the triples the traversal pushed.  When no node
    of the trie carries a word the result is the empty list. *)
Theorem suggest_word_ranking (input_seq language : string) (k : Z)
    (self : BrailleAutocorrect) (input_dots : list (list Z)) :
  input_to_braille input_seq = Return input_dots → input_dots ≠ [] →
  (0 ≤ k)%Z →
  let root := peek TrieNode_new (dictionaries self) language in
  let pushed := (dfs input_dots root [] ([], corrections self)).1 in
  let triples := recorded input_dots (corrections self) root [] in
  pushed ≡ₚ triples ∧
  ∃ sorted,
    sorted ≡ₚ pushed ∧
    StronglySorted lex_le sorted ∧
    (∀ other, other ≡ₚ pushed → StronglySorted lex_le other → other = sorted) ∧
    (suggest_word input_seq language k self).1
    = Return ((take (Z.to_nat (Z.min k (len triples))) sorted).*2) ∧
    (triples = [] → (suggest_word input_seq language k self).1 = Return []).
Proof.
  intros Hparse Hne Hk root pushed triples.
  pose proof (dfs_spec input_dots root [] [] (corrections self)) as [Hperm _].
  cbv zeta in Hperm. rewrite app_nil_l in Hperm.
  fold pushed triples in Hperm. split; [exact Hperm|].
  exists (merge_sort tuple_le triples).
  assert (merge_sort tuple_le triples ≡ₚ pushed) as Hsp
    by (by rewrite merge_sort_Permutation).
  assert (StronglySorted tuple_le (merge_sort tuple_le triples)) as Hss
    by apply (StronglySorted_merge_sort _).
  destruct (suggest_word_parsed input_seq language k self input_dots Hparse Hne)
    as (Hres & _). cbv zeta in Hres. fold root triples in Hres.
  assert ((suggest_word input_seq language k self).1
          = Return ((take (Z.to_nat (Z.min k (len triples)))
                       (merge_sort tuple_le triples)).*2)) as Hres'.
  { rewrite Hres. unfold slice_to. destruct (decide (k < 0)%Z); [lia|].
    rewrite (take_min_length _ k Hk). do 4 f_equal.
    unfold len. by rewrite merge_sort_Permutation. }
  split; [exact Hsp|]. split; [by apply StronglySorted_tuple_le_lex|].
  split.
  { intros other Hother Hsorted. apply (StronglySorted_unique tuple_le).
    - clear -Hsorted. induction Hsorted as [|x l _ IH Hx]; constructor; [done|].
      eapply Forall_impl; [exact Hx|]. intros y. apply tuple_le_lex.
    - exact Hss.
    - by rewrite Hother, Hsp. }
  split; [exact Hres'|].
  intros Hnil. rewrite Hres', Hnil.
  change (merge_sort tuple_le []) with (@nil suggestion). by rewrite take_nil.
Qed.

Lemma suggest_word_ranking_witness :
  input_to_braille "D+K D" = Return [[1; 4]; [1]]%Z ∧
  ∃ sorted,
    StronglySorted lex_le sorted ∧
    (suggest_word "D+K D" "french" 2 two_words).1
    = Return ((take (Z.to_nat
                       (Z.min 2 (len (recorded [[1; 4]; [1]]%Z
                                        (corrections two_words)
                                        (peek TrieNode_new
                                           (dictionaries two_words) "french")
                                        []))))
                 sorted).*2).
Proof.
  assert (input_to_braille "D+K D" = Return [[1; 4]; [1]]%Z) as H
    by (vm_compute; reflexivity).
  split; [exact H|].
  destruct (suggest_word_ranking "D+K D" "french" 2 two_words
              [[1; 4]; [1]]%Z H) as (_ & sorted & _ & Hs & _ & Hr & _);
    [discriminate | lia |].
  exists sorted. split; [exact Hs | exact Hr].
Defined.

Example suggest_word_ranking_sample :
  (suggest_word "D+K D W+Q+O" "english" 3 sample).1
  = Return ["cat"; "hat"; "bad"].
Proof. vm_compute. reflexivity. Qed.

(** A negative [max_suggestions] is a slice bound counted from the end. *)
Example suggest_word_negative_bound :
  (suggest_word "D+K D W+Q+O" "french" (-1) sample).1 = Return ["chat"; "ami"].
Proof. vm_compute. reflexivity. Qed.

(** * Distances that vanish *)

Section zero_distance.

Lemma min2_cases a b : min2 a b = a ∨ min2 a b = b.
Proof. unfold min2. destruct (decide (b < a)); auto. Qed.

Lemma min2_le_l a b : min2 a b ≤ a.
Proof.
  unfold min2. destruct (decide (b < a)); [by apply Qclt_le_weak|].
  apply Qcle_refl.
Qed.

Lemma min2_le_r a b : min2 a b ≤ b.
Proof.
  unfold min2. destruct (decide (b < a)) as [|Hn]; [apply Qcle_refl|].
  by apply Qcnot_lt_le.
Qed.

Lemma min3_cases a b c : min3 a b c = a ∨ min3 a b c = b ∨ min3 a b c = c.
Proof.
  unfold min3. destruct (min2_cases (min2 a b) c) as [->| ->]; [|by auto].
  destruct (min2_cases a b) as [->| ->]; auto.
Qed.

Lemma min3_le_3 a b c : min3 a b c ≤ c.
Proof. apply min2_le_r. Qed.

Lemma of_nat_nonneg n : 0 ≤ of_nat n.
Proof.
  unfold of_nat. rewrite <- Z2Qc_inj_0.
  apply (proj1 (Z2Qc_inj_le 0 (Z.of_nat n))). lia.
Qed.

Lemma Qc_one_pos : (0 : Qc) < 1.
Proof. by apply Qclt_alt. Qed.

Lemma plus_one_pos x : 0 ≤ x → 0 < x + 1.
Proof. intros Hx. apply Qcplus_nonneg_pos; [done | apply Qc_one_pos]. Qed.

Lemma plus_zero_inv x y : 0 ≤ x → 0 ≤ y → x + y = 0 → x = 0 ∧ y = 0.
Proof.
  intros Hx Hy Hxy.
  destruct (Qcle_lt_or_eq _ _ Hx) as [Hpos|<-].
  - exfalso. apply (Qclt_not_eq 0 (x + y)); [|done].
    by apply Qcplus_pos_nonneg.
  - split; [done|]. by rewrite Qcplus_0_l in Hxy.
Qed.

(** The overlap ratio is at most 1. *)
Lemma subCost_nonneg p q : 0 ≤ subCost p q.
Proof.
  unfold subCost. destruct (decide (size (p ∪ q) = 0%nat)) as [|Hu].
  - apply Qclt_le_weak, Qc_one_pos.
  - assert (0 < of_nat (size (p ∪ q))) as Hpos.
    { destruct (Qcle_lt_or_eq _ _ (of_nat_nonneg (size (p ∪ q)))) as [|Heq];
        [done|]. symmetry in Heq. exfalso. revert Heq. by apply of_nat_nonzero. }
    assert (of_nat (size (p ∩ q)) ≤ of_nat (size (p ∪ q))) as Hle.
    { apply (proj1 (Z2Qc_inj_le _ _)), inj_le, subseteq_size. set_solver. }
    assert (of_nat (size (p ∩ q)) / of_nat (size (p ∪ q)) ≤ 1) as Hratio.
    { apply (Qcmult_le_mono_pos_r _ _ (of_nat (size (p ∪ q)))); [done|].
      unfold Qcdiv. rewrite <- Qcmult_assoc, Qcmult_inv_l, Qcmult_1_r, Qcmult_1_l;
        [done|]. intros Hz. rewrite Hz in Hpos.
      by apply (irreflexivity Qclt) in Hpos. }
    apply (Qcplus_le_mono_r _ _ (of_nat (size (p ∩ q)) / of_nat (size (p ∪ q)))).
    rewrite Qcplus_0_l. unfold Qcminus.
    by rewrite <- Qcplus_assoc, (Qcplus_comm (- _)), Qcplus_opp_r, Qcplus_0_r.
Qed.

(** Only equal dot sets are at cost 0. *)
Lemma subCost_zero p q : subCost p q = 0 → p = q.
Proof.
  unfold subCost. destruct (decide (size (p ∪ q) = 0%nat)) as [|Hu].
  { intros H. exfalso. by apply (Qclt_not_eq 0 1 Qc_one_pos). }
  intros H0.
  assert (of_nat (size (p ∩ q)) = of_nat (size (p ∪ q))) as Heq.
  { assert (of_nat (size (p ∩ q)) / of_nat (size (p ∪ q)) = 1) as H1.
    { apply (Qcplus_inj_r (- (of_nat (size (p ∩ q)) / of_nat (size (p ∪ q))))).
      rewrite (Qcplus_comm _ 1). fold (Qcminus 1 (of_nat (size (p ∩ q)) / of_nat (size (p ∪ q)))).
      rewrite H0. by rewrite Qcplus_comm, Qcplus_opp_r. }
    rewrite <- (Qcmult_div_r (of_nat (size (p ∩ q))) (of_nat (size (p ∪ q))))
      by (by apply of_nat_nonzero).
    by rewrite H1, Qcmult_1_r. }
  apply Z2Qc_inj, Nat2Z.inj in Heq.
  assert (p ∩ q = p ∪ q) as Hsets.
  { apply set_subseteq_size_eq; [set_solver|]. by rewrite Heq. }
  apply set_eq. intros x. split; intros Hx.
  - assert (x ∈ p ∩ q) by (rewrite Hsets; set_solver). set_solver.
  - assert (x ∈ p ∩ q) by (rewrite Hsets; set_solver). set_solver.
Qed.

Lemma canonical_NoDup dots : canonical dots → NoDup dots.
Proof.
  induction 1 as [|x l _ IH Hx]; constructor; [|done].
  intros Hin. rewrite Forall_forall in Hx. specialize (Hx x Hin). lia.
Qed.

(** A canonical pattern is determined by its dot set. *)
Lemma canonical_set_eq p q :
  canonical p → canonical q →
  (list_to_set p : gset Z) = list_to_set q → p = q.
Proof.
  intros Hp Hq Hset.
  assert (AntiSymm (=) Z.lt) by (intros x y ??; lia).
  apply (StronglySorted_unique Z.lt); [done | done |].
  apply NoDup_Permutation; [by apply canonical_NoDup..|].
  intros x. by rewrite <- !(elem_of_list_to_set (C := gset Z)), Hset.
Qed.

End zero_distance.

Section zero_table.
Context (cost : list Z → list Z → Qc).
Hypothesis cost_nonneg : ∀ p q, 0 ≤ cost p q.

Lemma edit_cell_nonneg A B i : ∀ j, 0 ≤ edit_cell cost A B i j.
Proof.
  induction i as [|i IHi]; intros j.
  - destruct j; apply of_nat_nonneg.
  - induction j as [|j IHj]; [apply of_nat_nonneg|].
    rewrite edit_cell_S_S.
    destruct (min3_cases (edit_cell cost A B i (S j) + 1)
                (edit_cell cost A B (S i) j + 1)
                (edit_cell cost A B i j
                 + cost (default [] (A !! i)) (default [] (B !! j))))
      as [->|[->| ->]].
    + apply Qclt_le_weak, plus_one_pos, IHi.
    + apply Qclt_le_weak, plus_one_pos, IHj.
    + apply Qcplus_nonneg_nonneg; [apply IHi | apply cost_nonneg].
Qed.

(** A sequence whose elements are at cost 0 from themselves is at distance
    0 from itself. *)
Lemma edit_cell_diagonal A i :
  (∀ a, a ∈ A → cost a a = 0) → (i ≤ length A)%nat →
  edit_cell cost A A i i = 0.
Proof.
  intros Hself. induction i as [|i IH]; intros Hi; [apply Z2Qc_inj_0|].
  rewrite edit_cell_S_S.
  destruct (lookup_lt_is_Some_2 A i) as [a Ha]; [lia|].
  rewrite Ha. simpl. rewrite IH by lia.
  rewrite (Hself a) by (by eapply list_elem_of_lookup_2).
  rewrite Qcplus_0_l. apply Qcle_antisym.
  - apply min3_le_3.
  - destruct (min3_cases (edit_cell cost A A i (S i) + 1)
                (edit_cell cost A A (S i) i + 1) 0) as [->|[->| ->]].
    + apply Qclt_le_weak, plus_one_pos, edit_cell_nonneg.
    + apply Qclt_le_weak, plus_one_pos, edit_cell_nonneg.
    + apply Qcle_refl.
Qed.

(** A cell is 0 only where the two prefixes are equal. *)
Lemma edit_cell_zero A B i :
  (∀ a b, a ∈ A → b ∈ B → cost a b = 0 → a = b) →
  ∀ j, (i ≤ length A)%nat → (j ≤ length B)%nat →
       edit_cell cost A B i j = 0 → take i A = take j B.
Proof.
  intros Hzero. induction i as [|i IHi]; intros j Hi Hj Hcell.
  - destruct j as [|j]; [done|]. exfalso.
    change (edit_cell cost A B 0 (S j)) with (of_nat (S j)) in Hcell.
    revert Hcell. by apply of_nat_nonzero.
  - induction j as [|j IHj].
    + exfalso. change (edit_cell cost A B (S i) 0) with (of_nat (S i)) in Hcell.
      revert Hcell. by apply of_nat_nonzero.
    + rewrite edit_cell_S_S in Hcell.
      destruct (lookup_lt_is_Some_2 A i) as [a Ha]; [lia|].
      destruct (lookup_lt_is_Some_2 B j) as [b Hb]; [lia|].
      rewrite Ha, Hb in Hcell. simpl in Hcell.
      destruct (min3_cases (edit_cell cost A B i (S j) + 1)
                  (edit_cell cost A B (S i) j + 1)
                  (edit_cell cost A B i j + cost a b)) as [Hm|[Hm|Hm]];
        rewrite Hm in Hcell.
      * exfalso. apply (Qclt_not_eq 0 (edit_cell cost A B i (S j) + 1));
          [apply plus_one_pos, edit_cell_nonneg | done].
      * exfalso. apply (Qclt_not_eq 0 (edit_cell cost A B (S i) j + 1));
          [apply plus_one_pos, edit_cell_nonneg | done].
      * apply plus_zero_inv in Hcell as [Hd Hc];
          [|apply edit_cell_nonneg|apply cost_nonneg].
        rewrite (take_S_r A i a Ha), (take_S_r B j b Hb).
        rewrite (IHi j) by (done || lia).
        f_equal. f_equal. apply Hzero; [| |done].
        -- by eapply list_elem_of_lookup_2.
        -- by eapply list_elem_of_lookup_2.
Qed.

End zero_table.

Section zero_levenshtein.

Lemma penalty_nonneg (z : Z) : 0 ≤ half * Qc_of_Z (Z.abs z).
Proof.
  apply Qcmult_nonneg_nonneg; [by apply Qcle_alt|].
  rewrite <- Z2Qc_inj_0. apply (proj1 (Z2Qc_inj_le _ _)). lia.
Qed.

Lemma normalized_dot_distance_nonneg p q : 0 ≤ normalized_dot_distance p q.
Proof. rewrite normalized_dot_distance_subCost. apply subCost_nonneg. Qed.

Lemma levenshtein_distance_table A B :
  levenshtein_distance A B
  = edit_cell normalized_dot_distance A B (length A) (length B)
    + half * Qc_of_Z (Z.abs (len A - len B)).
Proof.
  apply levenshtein_with_table. intros p q.
  rewrite !normalized_dot_distance_subCost. apply subCost_comm.
Qed.

Lemma levenshtein_distance_nonneg A B : 0 ≤ levenshtein_distance A B.
Proof.
  rewrite levenshtein_distance_table. apply Qcplus_nonneg_nonneg.
  - apply edit_cell_nonneg, normalized_dot_distance_nonneg.
  - apply penalty_nonneg.
Qed.

(** A sequence of non-empty patterns is at distance 0 from itself. *)
Lemma levenshtein_distance_self A :
  Forall (λ dots, dots ≠ []) A → levenshtein_distance A A = 0.
Proof.
  intros Hne. rewrite levenshtein_distance_table.
  rewrite edit_cell_diagonal; [| apply normalized_dot_distance_nonneg | | done].
  - rewrite Z.sub_diag. change (Z.abs 0) with 0%Z.
    by rewrite Z2Qc_inj_0, Qcmult_0_r, Qcplus_0_l.
  - intros a Ha. rewrite normalized_dot_distance_subCost.
    apply subCost_same. rewrite Forall_forall in Hne. specialize (Hne a Ha).
    destruct a as [|x a]; [done|]. set_solver.
Qed.

(** Sequences of canonical patterns at distance 0 are equal. *)
Lemma levenshtein_distance_zero A B :
  Forall canonical A → Forall canonical B →
  levenshtein_distance A B = 0 → A = B.
Proof.
  intros HA HB Hzero. rewrite levenshtein_distance_table in Hzero.
  apply plus_zero_inv in Hzero as [Hcell _];
    [|apply edit_cell_nonneg, normalized_dot_distance_nonneg
     |apply penalty_nonneg].
  apply (edit_cell_zero normalized_dot_distance
           normalized_dot_distance_nonneg A B (length A)) in Hcell;
    [|intros a b Ha Hb Hc|done..].
  - by rewrite !firstn_all in Hcell.
  - rewrite Forall_forall in HA, HB.
    apply canonical_set_eq; [by apply HA | by apply HB |].
    by apply subCost_zero.
Qed.

End zero_levenshtein.

(** * What the parser returns *)

Section parsed.

(** A non-empty token parses to a non-empty pattern. *)
Lemma keys_to_dots_nonempty token dots :
  token ≠ "" → keys_to_dots token = Return dots → dots ≠ [].
Proof.
  intros Hne. unfold keys_to_dots. destruct (decide (token = "")); [done|].
  destruct (decide _) as [Hsub|]; [|done]. intros [= <-] Hnil.
  pose proof (StrFacts.split_on_not_nil "+"%char token) as Hsplit.
  destruct (Str.split_on "+"%char token) as [|seg segs] eqn:Hsegs; [done|].
  assert (seg ∈ valid_keys) as Hvalid by (apply Hsub; set_solver).
  unfold valid_keys in Hvalid. apply elem_of_list_to_set in Hvalid.
  apply list_elem_of_fmap in Hvalid as ([dot key] & Hkey & Hin).
  simpl in Hkey. subst key.
  assert (dot ∈ (filter (λ dk : Z * string,
                           dk.2 ∈ (list_to_set (seg :: segs) : gset string))
                   DOT_TO_KEY).*1) as Hdot.
  { apply list_elem_of_fmap. exists (dot, seg). split; [done|].
    apply list_elem_of_filter. split; [|done]. simpl in *. set_solver. }
  unfold sorted_Z in Hnil.
  rewrite <- (merge_sort_Permutation Z.le), Hnil in Hdot.
  by apply elem_of_nil in Hdot.
Qed.

Lemma comprehension_Forall {A B} (f : A → outcome B) (P : A → Prop)
    (Q : B → Prop) (l : list A) (bs : list B) :
  (∀ a b, P a → f a = Return b → Q b) →
  Forall P l → comprehension f l = Return bs → Forall Q bs.
Proof.
  intros HPQ Hl. revert bs. induction Hl as [|a l Ha _ IH]; intros bs; simpl.
  - by intros [= <-].
  - destruct (f a) as [b|] eqn:Hb; simpl; [|done].
    destruct (comprehension f l) as [bs'|]; simpl; [|done].
    intros [= <-]. constructor; [by eapply HPQ | by apply IH].
Qed.

Lemma input_to_braille_nonempty input_seq input_dots :
  input_to_braille input_seq = Return input_dots →
  Forall (λ dots, dots ≠ []) input_dots.
Proof.
  apply (comprehension_Forall keys_to_dots (λ t, t ≠ "")).
  - intros a b. apply keys_to_dots_nonempty.
  - apply StrFacts.split_nonempty.
Qed.

End parsed.

(** * Insertion-ordered dicts *)

Section assoc.
Context {K V : Type} `{EqDecision K}.
Implicit Types (d : list (K * V)) (k : K) (v : V).

Lemma assoc_get_elem_of d k v : assoc_get d k = Some v → (k, v) ∈ d.
Proof.
  induction d as [|[k' v'] d IH]; simpl; [done|].
  destruct (decide (k' = k)) as [->|].
  - intros [= ->]. left.
  - intros H. right. by apply IH.
Qed.

Lemma assoc_get_None d k : assoc_get d k = None ↔ k ∉ d.*1.
Proof.
  induction d as [|[k' v'] d IH]; simpl.
  - split; [intros _; apply not_elem_of_nil | done].
  - rewrite not_elem_of_cons. destruct (decide (k' = k)) as [->|Hne].
    + split; [done | by intros [? _]].
    + rewrite IH. split; [by split | by intros [_ ?]].
Qed.

(** An entry of a dict with distinct keys is what its key reads. *)
Lemma assoc_get_NoDup d k v :
  NoDup (d.*1) → (k, v) ∈ d → assoc_get d k = Some v.
Proof.
  induction d as [|[k' v'] d IH]; simpl; [by intros _ ?%elem_of_nil|].
  intros [Hk' Hd]%NoDup_cons [Heq|Hin]%elem_of_cons.
  - injection Heq as -> ->. by destruct (decide (k' = k')).
  - destruct (decide (k' = k)) as [->|]; [|by apply IH].
    destruct Hk'. apply list_elem_of_fmap. by exists (k, v).
Qed.

(** Reading back what was written, and reading another key. *)
Lemma assoc_get_set_eq d k v : assoc_get (assoc_set d k v) k = Some v.
Proof.
  induction d as [|[k' v'] d IH]; simpl.
  - by destruct (decide (k = k)).
  - destruct (decide (k' = k)) as [->|Hne]; simpl.
    + by destruct (decide (k = k)).
    + by destruct (decide (k' = k)).
Qed.

Lemma assoc_get_set_ne d k k' v :
  k' ≠ k → assoc_get (assoc_set d k v) k' = assoc_get d k'.
Proof.
  intros Hne. induction d as [|[k0 v0] d IH]; simpl.
  - by destruct (decide (k = k')).
  - destruct (decide (k0 = k)) as [->|Hk0]; simpl.
    + destruct (decide (k = k')); [congruence|done].
    + destruct (decide (k0 = k')); [done|apply IH].
Qed.

(** Writing keeps the keys in place and puts a new key last. *)
Lemma assoc_set_keys_old d k v :
  k ∈ d.*1 → (assoc_set d k v).*1 = d.*1.
Proof.
  induction d as [|[k' v'] d IH]; [by intros ?%elem_of_nil|].
  rewrite fmap_cons. cbn [assoc_set fst].
  destruct (decide (k' = k)) as [->|Hne]; [done|].
  intros [?|Hin]%elem_of_cons; [done|].
  by rewrite fmap_cons, IH.
Qed.

Lemma assoc_set_keys_new d k v :
  k ∉ d.*1 → (assoc_set d k v).*1 = d.*1 ++ [k].
Proof.
  induction d as [|[k' v'] d IH]; [done|].
  rewrite fmap_cons. cbn [assoc_set fst].
  intros [Hne Hin]%not_elem_of_cons.
  destruct (decide (k' = k)) as [->|_]; [done|].
  by rewrite fmap_cons, IH.
Qed.

Lemma assoc_set_NoDup d k v : NoDup (d.*1) → NoDup ((assoc_set d k v).*1).
Proof.
  intros Hd. destruct (decide (k ∈ d.*1)) as [Hin|Hin].
  - by rewrite assoc_set_keys_old.
  - rewrite assoc_set_keys_new by done.
    apply NoDup_app. split; [done|]. split; [|apply NoDup_singleton].
    by intros x Hx ->%list_elem_of_singleton.
Qed.

Lemma assoc_set_Forall (P : K * V → Prop) d k v :
  Forall P d → P (k, v) → Forall P (assoc_set d k v).
Proof.
  intros Hd Hkv. induction Hd as [|[k' v'] d Hx Hd IH]; simpl.
  - by constructor.
  - destruct (decide (k' = k)); by constructor.
Qed.

End assoc.

(** * The invariant of the tries *)

Section invariant.

Lemma trie_ok_unfold cs e w :
  trie_ok (Node cs e w) ↔
  NoDup (cs.*1) ∧ Forall (λ kc, canonical kc.1 ∧ trie_ok kc.2) cs.
Proof.
  simpl. apply and_iff_compat_l.
  induction cs as [|[k c] cs IH]; [split; [constructor | done]|].
  rewrite Forall_cons, <- IH. simpl. tauto.
Qed.

Lemma root_ok_new : root_ok TrieNode_new.
Proof. split; [|done]. apply trie_ok_unfold. split; constructor. Qed.

(** Every pattern of the letter tables is canonical, and so is the empty
    pattern of a character without an entry. *)
Lemma tables_canonical language table char :
  assoc_get braille_maps language = Some table →
  canonical (default [] (assoc_get table char)).
Proof.
  intros Ht%assoc_get_elem_of.
  assert (Forall (λ lt : string * list (ascii * list Z),
                    Forall (λ cd : ascii * list Z, canonical cd.2) lt.2)
            braille_maps) as Hall.
  { apply (bool_decide_unpack _). by vm_compute. }
  rewrite Forall_forall in Hall. specialize (Hall _ Ht). simpl in Hall.
  destruct (assoc_get table char) as [dots|] eqn:Hc; simpl; [|constructor].
  apply assoc_get_elem_of in Hc. rewrite Forall_forall in Hall.
  by apply (Hall (char, dots)).
Qed.

Lemma child_ok cs dots :
  Forall (λ kc : list Z * TrieNode, canonical kc.1 ∧ trie_ok kc.2) cs →
  trie_ok (default TrieNode_new (assoc_get cs dots)).
Proof.
  intros Hall. destruct (assoc_get cs dots) as [child|] eqn:Hc; simpl.
  - apply assoc_get_elem_of in Hc. rewrite Forall_forall in Hall.
    by apply (Hall (dots, child)).
  - apply root_ok_new.
Qed.

Lemma add_word_from_ok language chars w :
  ∀ node node',
    trie_ok node → add_word_from language chars w node = Return node' →
    trie_ok node'.
Proof.
  induction chars as [|c chars IH]; intros [cs e wd] node' Hok;
    cbn [add_word_from children is_end word].
  - intros [= <-]. by rewrite trie_ok_unfold in *.
  - destruct (assoc_get braille_maps language) as [table|] eqn:Ht; [|done].
    apply trie_ok_unfold in Hok as [Hnd Hall].
    destruct (add_word_from language chars w
                (default TrieNode_new
                   (assoc_get cs (default [] (assoc_get table c)))))
      as [child'|] eqn:Hc; simpl; [|done].
    intros [= <-]. apply trie_ok_unfold.
    split; [by apply assoc_set_NoDup|].
    apply assoc_set_Forall; [done|]. split; [by eapply tables_canonical|].
    eapply IH; [|exact Hc]. by apply child_ok.
Qed.

Lemma lower_nil w : list_ascii_of_string (Str.lower w) = [] → w = "".
Proof. by destruct w. Qed.

Lemma add_word_from_root language w root root' :
  root_ok root →
  add_word_from language (list_ascii_of_string (Str.lower w)) w root
  = Return root' →
  root_ok root'.
Proof.
  intros [Hok Hcarry] Hadd. split; [by eapply add_word_from_ok|].
  destruct (list_ascii_of_string (Str.lower w)) as [|c chars] eqn:Hchars.
  - apply lower_nil in Hchars as ->. simpl in Hadd. by injection Hadd as <-.
  - destruct root as [cs e wd]. cbn [add_word_from children is_end word] in Hadd.
    destruct (assoc_get braille_maps language) as [table|]; [|done].
    destruct (add_word_from language chars w _); simpl in Hadd; [|done].
    by injection Hadd as <-.
Qed.

Lemma add_contraction_root w dots root :
  canonical dots → root_ok root → root_ok (add_contraction w dots root).
Proof.
  intros Hdots [Hok Hcarry]. destruct root as [cs e wd].
  apply trie_ok_unfold in Hok as [Hnd Hall].
  split; [|done]. unfold add_contraction. cbn [children is_end word].
  apply trie_ok_unfold. split; [by apply assoc_set_NoDup|].
  apply assoc_set_Forall; [done|]. split; [done|].
  pose proof (child_ok cs dots Hall) as Hchild.
  destruct (default TrieNode_new (assoc_get cs dots)) as [cs' e' w'].
  cbn [snd children]. apply trie_ok_unfold. by apply trie_ok_unfold in Hchild.
Qed.

Lemma dict_ok_get dicts language :
  dict_ok dicts →
  root_ok (defaultdict_get TrieNode_new dicts language).1 ∧
  dict_ok (defaultdict_get TrieNode_new dicts language).2.
Proof.
  intros Hd. unfold defaultdict_get.
  destruct (dicts !! language) as [root|] eqn:Hl; simpl.
  - split; [by eapply Hd | done].
  - split; [apply root_ok_new|]. intros l r.
    destruct (decide (language = l)) as [->|].
    + rewrite lookup_insert_eq. intros [= <-]. apply root_ok_new.
    + rewrite lookup_insert_ne by done. apply Hd.
Qed.

Lemma dict_ok_insert dicts language root :
  dict_ok dicts → root_ok root → dict_ok (<[language := root]> dicts).
Proof.
  intros Hd Hr l r. destruct (decide (language = l)) as [->|].
  - rewrite lookup_insert_eq. by intros [= <-].
  - rewrite lookup_insert_ne by done. apply Hd.
Qed.

Lemma add_word_ok w language self :
  state_ok self → state_ok (add_word w language self).2.
Proof.
  intros [Hd Hc]. unfold add_word.
  destruct (dict_ok_get (dictionaries self) language Hd) as [Hroot Hd'].
  destruct (defaultdict_get TrieNode_new (dictionaries self) language)
    as [root dicts]. simpl in Hroot, Hd'.
  destruct (add_word_from language _ w root) as [root'|e] eqn:Hadd;
    (split; [|done]); simpl; [|done].
  apply dict_ok_insert; [done|]. by eapply add_word_from_root.
Qed.

Lemma add_words_ok words language :
  ∀ self, state_ok self → state_ok (add_words words language self).2.
Proof.
  induction words as [|w words IH]; intros self Hok; simpl; [done|].
  pose proof (add_word_ok w language self Hok) as Hok'.
  destruct (add_word w language self) as [[[]|e] self']; simpl in *; [|done].
  by apply IH.
Qed.

Lemma add_contractions_ok language self :
  state_ok self → state_ok (add_contractions language self).
Proof.
  intros [Hd Hc]. unfold add_contractions, contractions, CONTRACTIONS. simpl.
  destruct (dict_ok_get (dictionaries self) language Hd) as [Hroot Hd'].
  destruct (defaultdict_get TrieNode_new (dictionaries self) language)
    as [root dicts]. simpl in Hroot, Hd'.
  split; [|done]. simpl. apply dict_ok_insert; [done|].
  apply add_contraction_root; [|done].
  apply (bool_decide_unpack _). by vm_compute.
Qed.

Lemma load_dictionary_ok words language self :
  state_ok self → state_ok (load_dictionary words language self).2.
Proof.
  intros Hok. unfold load_dictionary.
  pose proof (add_words_ok words language self Hok) as Hok'.
  destruct (add_words words language self) as [[[]|e] self']; simpl in *;
    [|done].
  destruct (decide (language = "english")); [|done].
  by apply add_contractions_ok.
Qed.

Lemma counts_ok_extends counts counts' :
  counts_ok counts → default_extends 0%Z counts counts' → counts_ok counts'.
Proof.
  intros Hc Hext w count Hw. destruct (Hext w) as [Heq|[_ Heq]].
  - rewrite Heq in Hw. by eapply Hc.
  - rewrite Heq in Hw. injection Hw as <-. done.
Qed.

Lemma suggest_word_ok input_seq language k self :
  state_ok self → state_ok (suggest_word input_seq language k self).2.
Proof.
  intros [Hd Hc].
  pose proof (suggest_word_cases input_seq language k self) as H.
  destruct (input_to_braille input_seq) as [[|dots input_dots]|e].
  - by rewrite H.
  - destruct H as (_ & Hdict & Hcounts). split.
    + rewrite Hdict. by apply dict_ok_get.
    + by eapply counts_ok_extends.
  - by rewrite H.
Qed.

Lemma learn_correction_ok input_seq w self :
  state_ok self → state_ok (learn_correction input_seq w self).2.
Proof.
  intros [Hd Hc]. split.
  - by rewrite learn_correction_dictionaries.
  - rewrite learn_correction_corrections. intros k count.
    destruct (decide (Str.lower w = k)) as [<-|].
    + rewrite lookup_insert_eq. intros [= <-]. unfold count_of, peek.
      destruct (corrections self !! Str.lower w) as [c|] eqn:Hk; simpl; [|lia].
      specialize (Hc _ _ Hk). lia.
    + rewrite lookup_insert_ne by done. apply Hc.
Qed.

(** Every state an object goes through satisfies the invariant. *)
Lemma reachable_ok self : reachable self → state_ok self.
Proof.
  induction 1.
  - split; intros ?? Hl; simpl in Hl; by rewrite lookup_empty in Hl.
  - by apply add_word_ok.
  - by apply load_dictionary_ok.
  - by apply suggest_word_ok.
  - by apply learn_correction_ok.
Qed.

End invariant.

(** * Stored words and recorded suggestions *)

Section stored.

Lemma stored_at_functional root path w w' :
  stored_at root path w → stored_at root path w' → w = w'.
Proof. intros (n & Hn & Hw) (n' & Hn' & Hw'). congruence. Qed.

Lemma trie_lookup_canonical path :
  ∀ node n, trie_ok node → trie_lookup node path = Some n →
            Forall canonical path.
Proof.
  induction path as [|dots path IH]; intros [cs e wd] n Hok; [constructor|].
  cbn [trie_lookup children].
  destruct (assoc_get cs dots) as [child|] eqn:Hc; [|done].
  apply trie_ok_unfold in Hok as [_ Hall].
  apply assoc_get_elem_of in Hc. rewrite Forall_forall in Hall.
  destruct (Hall _ Hc) as [Hdots Hchild]. intros Hlook.
  constructor; [done|]. by eapply IH.
Qed.

Lemma recorded_children_elem_of input_dots counts cs current_dots t :
  t ∈ recorded_children input_dots counts cs current_dots ↔
  ∃ dots child, (dots, child) ∈ cs ∧
                t ∈ recorded input_dots counts child (current_dots ++ [dots]).
Proof.
  induction cs as [|[d c] cs IH]; simpl.
  - split; [by intros ?%elem_of_nil|]. by intros (? & ? & ?%elem_of_nil & _).
  - rewrite elem_of_app, IH. split.
    + intros [Ht|(dots & child & Hin & Ht)].
      * exists d, c. split; [left|done].
      * exists dots, child. split; [by right|done].
    + intros (dots & child & [[= -> ->]|Hin]%elem_of_cons & Ht); [by left|].
      right. by exists dots, child.
Qed.

(** The suggestion of a stored word is recorded. *)
Lemma recorded_complete input_dots counts path :
  ∀ node current_dots w,
    stored_at node path w →
    let dist := levenshtein_distance input_dots (current_dots ++ path) in
    (dist - learn_bonus_of (peek 0%Z counts (Str.lower w)), dist, w)
    ∈ recorded input_dots counts node current_dots.
Proof.
  induction path as [|dots path IH]; intros [cs e wd] current_dots w
    (n & Hn & Hw); cbv zeta; rewrite recorded_unfold, elem_of_app.
  - injection Hn as <-. left. simpl in Hw. rewrite Hw, app_nil_r.
    apply list_elem_of_singleton. done.
  - right. cbn [trie_lookup children] in Hn.
    destruct (assoc_get cs dots) as [child|] eqn:Hc; [|done].
    apply recorded_children_elem_of. exists dots, child.
    split; [by apply assoc_get_elem_of|].
    replace (current_dots ++ dots :: path)
      with ((current_dots ++ [dots]) ++ path) by (by rewrite <- app_assoc).
    apply IH. by exists n.
Qed.

(** Every recorded suggestion is the suggestion of a stored word. *)
Lemma recorded_sound input_dots counts node :
  ∀ current_dots t,
    trie_ok node →
    t ∈ recorded input_dots counts node current_dots →
    ∃ path w,
      stored_at node path w ∧
      let dist := levenshtein_distance input_dots (current_dots ++ path) in
      t = (dist - learn_bonus_of (peek 0%Z counts (Str.lower w)), dist, w).
Proof.
  induction node as [cs e wd IH] using TrieNode_rect_children.
  intros current_dots t Hok. rewrite recorded_unfold, elem_of_app.
  apply trie_ok_unfold in Hok as [Hnd Hall]. intros [Ht|Ht].
  - destruct (carries_word e wd) as [w|] eqn:Hw; [|by apply elem_of_nil in Ht].
    apply list_elem_of_singleton in Ht. exists [], w. split.
    + by exists (Node cs e wd).
    + by rewrite app_nil_r.
  - apply recorded_children_elem_of in Ht as (dots & child & Hin & Ht).
    rewrite Forall_forall in IH, Hall.
    destruct (Hall _ Hin) as [_ Hchild].
    destruct (IH _ Hin (current_dots ++ [dots]) t Hchild Ht)
      as (path & w & (n & Hn & Hw) & Heq).
    exists (dots :: path), w. split.
    + exists n. split; [|done]. cbn [trie_lookup children].
      by rewrite (assoc_get_NoDup cs dots child Hnd Hin).
    + cbv zeta in *. by rewrite <- app_assoc in Heq.
Qed.

Lemma learn_bonus_of_zero : learn_bonus_of 0 = 0.
Proof.
  unfold learn_bonus_of, min2. rewrite Z2Qc_inj_0, Qcmult_0_r.
  destruct (decide (0 < half)) as [|Hn]; [done|].
  destruct Hn. by apply Qclt_alt.
Qed.

Lemma minus_zero x : x - 0 = x.
Proof. ring. Qed.

End stored.

(** C1. In a state reached through the methods of the object, take a
    request that parses to the path of a stored word [w], with no positive
    correction count in the store, and ask for at least one suggestion.  Then
    the distance computed for [w] is 0 and its recorded triple is
    [(0, 0, w)]; no recorded score is below 0, and every other recorded
    triple has a positive score; [w] is the first suggestion returned. *)
Theorem exact_match_first (self : BrailleAutocorrect)
    (input_seq language : string) (k : Z) (input_dots : list (list Z))
    (w : string) :
  reachable self →
  input_to_braille input_seq = Return input_dots →
  stored_at (peek TrieNode_new (dictionaries self) language) input_dots w →
  (∀ word, peek 0%Z (corrections self) word ≤ 0)%Z →
  (1 ≤ k)%Z →
  let root := peek TrieNode_new (dictionaries self) language in
  let pushed := (dfs input_dots root [] ([], corrections self)).1 in
  levenshtein_distance input_dots input_dots = 0 ∧
  (Q2Qc 0, Q2Qc 0, w) ∈ pushed ∧
  (∀ t, t ∈ pushed → 0 ≤ t.1.1) ∧
  (∀ t, t ∈ pushed → t ≠ (Q2Qc 0, Q2Qc 0, w) → 0 < t.1.1) ∧
  ∃ rest, (suggest_word input_seq language k self).1 = Return (w :: rest).
Proof.
  intros Hreach Hparse Hstored Hcounts Hk root pushed.
  destruct (reachable_ok self Hreach) as [Hdict Hcok].
  assert (root_ok root) as [Hroot Hroot_word].
  { unfold root, peek. destruct (dictionaries self !! language) eqn:Hl; simpl.
    - by eapply Hdict.
    - apply root_ok_new. }
  assert (∀ word, peek 0%Z (corrections self) word = 0%Z) as Hzero.
  { intros word. specialize (Hcounts word). unfold peek in *.
    destruct (corrections self !! word) as [c|] eqn:Hc; [|done].
    specialize (Hcok _ _ Hc). simpl in *. lia. }
  assert (input_dots ≠ []) as Hne.
  { intros ->. destruct Hstored as (n & [= <-] & Hw). fold root in Hw. congruence. }
  assert (Forall (λ dots, dots ≠ []) input_dots) as Hnonempty
    by (by eapply input_to_braille_nonempty).
  assert (levenshtein_distance input_dots input_dots = 0) as Hself
    by (by apply levenshtein_distance_self).
  set (triples := recorded input_dots (corrections self) root []).
  assert (pushed ≡ₚ triples) as Hperm.
  { pose proof (dfs_spec input_dots root [] [] (corrections self)) as [H _].
    exact H. }
  assert ((Q2Qc 0, Q2Qc 0, w) ∈ triples) as Hin.
  { pose proof (recorded_complete input_dots (corrections self) input_dots
                  root [] w Hstored) as H.
    cbv zeta in H. rewrite app_nil_l, Hself, Hzero, learn_bonus_of_zero in H.
    by rewrite minus_zero in H. }
  assert (∀ t, t ∈ triples →
               t = (Q2Qc 0, Q2Qc 0, w) ∨ (0 < t.1.1 ∧ 0 < t.1.2)) as Hall.
  { intros t Ht.
    destruct (recorded_sound input_dots (corrections self) root [] t Hroot Ht)
      as (path & w' & Hw' & ->). cbv zeta. rewrite app_nil_l.
    rewrite Hzero, learn_bonus_of_zero, minus_zero. simpl.
    destruct (Qcle_lt_or_eq _ _ (levenshtein_distance_nonneg input_dots path))
      as [Hpos|Hz]; [by right|]. left.
    assert (input_dots = path) as <-.
    { destruct Hstored as (n & Hn & _), Hw' as (n' & Hn' & _).
      apply levenshtein_distance_zero; [by eapply trie_lookup_canonical..|done]. }
    rewrite <- Hz. do 2 f_equal. by eapply stored_at_functional. }
  split; [exact Hself|]. split; [by rewrite Hperm|].
  split.
  { intros t Ht. rewrite Hperm in Ht.
    destruct (Hall t Ht) as [->|[Hpos _]]; [apply Qcle_refl|].
    by apply Qclt_le_weak. }
  split.
  { intros t Ht Hneq. rewrite Hperm in Ht.
    by destruct (Hall t Ht) as [->|[Hpos _]]. }
  destruct (suggest_word_parsed input_seq language k self input_dots Hparse Hne)
    as (Hres & _). cbv zeta in Hres. fold root triples in Hres.
  pose proof (merge_sort_Permutation tuple_le triples) as Hsp.
  pose proof (StronglySorted_merge_sort tuple_le triples) as Hss.
  destruct (merge_sort tuple_le triples) as [|h sorted] eqn:Hsorted.
  { rewrite <- Hsp in Hin. by apply elem_of_nil in Hin. }
  assert (h = (Q2Qc 0, Q2Qc 0, w)) as ->.
  { assert (h ∈ triples) as Hh by (rewrite <- Hsp; left).
    destruct (Hall h Hh) as [|[Hpos _]]; [done|]. exfalso.
    rewrite <- Hsp in Hin. apply elem_of_cons in Hin as [Heq|Hin].
    { subst h. simpl in Hpos. by apply (irreflexivity Qclt) in Hpos. }
    assert (lex_le h (Q2Qc 0, Q2Qc 0, w)) as Hle.
    { apply tuple_le_lex. apply StronglySorted_inv in Hss as [_ Hhd].
      rewrite Forall_forall in Hhd. by apply Hhd. }
    destruct Hle as [Hlt|[Heq _]]; simpl in *.
    - eapply (irreflexivity Qclt). by etrans.
    - rewrite Heq in Hpos. by apply (irreflexivity Qclt) in Hpos. }
  exists ((take (Z.to_nat k - 1) sorted).*2). rewrite Hres. f_equal.
  unfold slice_to. destruct (decide (k < 0)%Z); [lia|].
  destruct (Z.to_nat k) as [|k'] eqn:Hk'; [lia|].
  simpl. by rewrite Nat.sub_0_r.
Qed.

Lemma sample_reachable : reachable sample.
Proof. unfold sample. apply reachable_load_dictionary, reachable_load_dictionary, reachable_init. Qed.

Lemma exact_match_first_witness :
  reachable sample ∧
  input_to_braille "D+K D W+Q+K+O" = Return [[1; 4]; [1]; [2; 3; 4; 5]]%Z ∧
  stored_at (peek TrieNode_new (dictionaries sample) "english")
    [[1; 4]; [1]; [2; 3; 4; 5]]%Z "cat" ∧
  (∀ word, peek 0%Z (corrections sample) word ≤ 0)%Z ∧
  ∃ rest,
    (suggest_word "D+K D W+Q+K+O" "english" 1 sample).1 = Return ("cat" :: rest).
Proof.
  assert (input_to_braille "D+K D W+Q+K+O"
          = Return [[1; 4]; [1]; [2; 3; 4; 5]]%Z) as Hparse
    by (vm_compute; reflexivity).
  assert (stored_at (peek TrieNode_new (dictionaries sample) "english")
            [[1; 4]; [1]; [2; 3; 4; 5]]%Z "cat") as Hstored.
  { eexists. split; vm_compute; reflexivity. }
  assert (∀ word, peek 0%Z (corrections sample) word ≤ 0)%Z as Hcounts.
  { intros word. assert (corrections sample = ∅) as -> by (vm_compute; reflexivity).
    unfold peek. by rewrite lookup_empty. }
  split; [exact sample_reachable|]. split; [exact Hparse|].
  split; [exact Hstored|]. split; [exact Hcounts|].
  destruct (exact_match_first sample "D+K D W+Q+K+O" "english" 1 _ "cat"
              sample_reachable Hparse Hstored Hcounts) as (_ & _ & _ & _ & Hrest);
    [lia | exact Hrest].
Defined.

(** ** The learned bonus *)

Section bonus.

(** The traversal pushes the triple of every stored word. *)
Lemma dfs_pushes_stored input_dots root path wd counts :
  stored_at root path wd →
  let dist := levenshtein_distance input_dots path in
  (dist - learn_bonus_of (peek 0%Z counts (Str.lower wd)), dist, wd)
  ∈ (dfs input_dots root [] ([], counts)).1.
Proof.
  intros Hst. cbv zeta.
  pose proof (dfs_spec input_dots root [] [] counts) as [Hperm _].
  cbv zeta in Hperm. rewrite Hperm, app_nil_l.
  apply (recorded_complete input_dots counts path root [] wd Hst).
Qed.

End bonus.

(** C7. The traversal pushes, for every word stored in the trie, the
    triple whose score is the distance of the word's path less
    [min(0.5, 0.1 * count)], the count being the one stored under the
    lower-cased word; every pushed triple has a score of this form.  Every
    call of [learn_correction] adds one to the count of the lower-cased word
    and changes no other count, so no count ever decreases.  Starting from a
    count that is not negative, after 5 calls for [w] the triple pushed for
    a stored word with the lower-case form of [w] has the score
    [distance - 0.5] exactly; a 6th call still raises the stored count by
    one, but the triple pushed is the same, and so is every score and every
    suggestion.  The suggestions of a request are the words of the pushed
    triples, in the order of the triples. *)
Theorem learn_correction_bonus (self : BrailleAutocorrect)
    (input_seq w : string) :
  (0 ≤ count_of self w)%Z →
  let after5 := learn_times 5 input_seq w self in
  let after6 := (learn_correction input_seq w after5).2 in
  (∀ input_dots root path wd counts,
     stored_at root path wd →
     let dist := levenshtein_distance input_dots path in
     (dist - min2 half (tenth * Qc_of_Z (peek 0%Z counts (Str.lower wd))),
      dist, wd)
     ∈ (dfs input_dots root [] ([], counts)).1) ∧
  (∀ input_dots node current_dots counts t,
     t ∈ (dfs input_dots node current_dots ([], counts)).1 →
     t.1.1 = t.1.2 - min2 half (tenth * Qc_of_Z (peek 0%Z counts (Str.lower t.2)))) ∧
  (∀ s, count_of (learn_correction input_seq w s).2 w = (count_of s w + 1)%Z) ∧
  (∀ s k, peek 0%Z (corrections s) k
          ≤ peek 0%Z (corrections (learn_correction input_seq w s).2) k)%Z ∧
  (∀ s k, k ≠ Str.lower w →
          peek 0%Z (corrections (learn_correction input_seq w s).2) k
          = peek 0%Z (corrections s) k) ∧
  count_of after5 w = (count_of self w + 5)%Z ∧
  min2 half (tenth * Qc_of_Z (count_of after5 w)) = half ∧
  (count_of self w = 0%Z → tenth * Qc_of_Z (count_of after5 w) = half) ∧
  (∀ input_dots root path wd,
     stored_at root path wd → Str.lower wd = Str.lower w →
     let dist := levenshtein_distance input_dots path in
     (dist - half, dist, wd)
     ∈ (dfs input_dots root [] ([], corrections after5)).1 ∧
     (dist - half, dist, wd)
     ∈ (dfs input_dots root [] ([], corrections after6)).1) ∧
  count_of after6 w = (count_of after5 w + 1)%Z ∧
  min2 half (tenth * Qc_of_Z (count_of after6 w)) = half ∧
  (∀ input_dots node current_dots,
     recorded input_dots (corrections after6) node current_dots
     = recorded input_dots (corrections after5) node current_dots) ∧
  (∀ input_dots node current_dots,
     (dfs input_dots node current_dots ([], corrections after6)).1
     ≡ₚ (dfs input_dots node current_dots ([], corrections after5)).1) ∧
  (∀ request language k,
     (suggest_word request language k after6).1
     = (suggest_word request language k after5).1) ∧
  (∀ request language k s input_dots,
     input_to_braille request = Return input_dots → input_dots ≠ [] →
     (suggest_word request language k s).1
     = Return ((slice_to
                  (merge_sort tuple_le
                     (dfs input_dots
                        (peek TrieNode_new (dictionaries s) language) []
                        ([], corrections s)).1)
                  k).*2)).
Proof.
  intros Hc0 after5 after6.
  assert (count_of after5 w = (count_of self w + 5)%Z) as H5
    by apply (learn_times_count 5).
  assert (count_of after6 w = (count_of after5 w + 1)%Z) as H6
    by apply learn_correction_count.
  assert (∀ k, learn_bonus_of (peek 0%Z (corrections after6) k)
               = learn_bonus_of (peek 0%Z (corrections after5) k)) as Hbonus.
  { intros k. destruct (decide (k = Str.lower w)) as [->|Hk].
    - fold (count_of after6 w) (count_of after5 w).
      rewrite !learn_bonus_of_capped; [done|lia|lia].
    - unfold after6. by rewrite learn_correction_other. }
  assert (∀ input_dots node current_dots,
            recorded input_dots (corrections after6) node current_dots
            = recorded input_dots (corrections after5) node current_dots) as Hrec
    by (intros; by apply recorded_same_bonus).
  split; [intros; by apply dfs_pushes_stored|].
  split.
  { intros input_dots node current_dots counts t Ht.
    pose proof (dfs_spec input_dots node current_dots [] counts) as [Hperm _].
    cbv zeta in Hperm. rewrite Hperm in Ht. by eapply recorded_score. }
  split; [intros s; apply learn_correction_count|].
  split.
  { intros s k. destruct (decide (k = Str.lower w)) as [->|Hk].
    - fold (count_of (learn_correction input_seq w s).2 w) (count_of s w).
      rewrite learn_correction_count. lia.
    - by rewrite learn_correction_other. }
  split; [intros s k Hk; by apply learn_correction_other|].
  split; [exact H5|].
  split; [apply learn_bonus_of_capped; lia|].
  split; [intros H0; rewrite H5, H0; apply tenth_five|].
  split.
  { intros input_dots root path wd Hst Hlow. cbv zeta.
    pose proof (dfs_pushes_stored input_dots root path wd (corrections after5)
                  Hst) as Ha.
    pose proof (dfs_pushes_stored input_dots root path wd (corrections after6)
                  Hst) as Hb.
    cbv zeta in Ha, Hb. rewrite Hlow in Ha, Hb.
    fold (count_of after5 w) in Ha. fold (count_of after6 w) in Hb.
    rewrite learn_bonus_of_capped in Ha by lia.
    rewrite learn_bonus_of_capped in Hb by lia.
    split; [exact Ha | exact Hb]. }
  split; [exact H6|].
  split; [apply learn_bonus_of_capped; lia|].
  split; [exact Hrec|].
  split.
  { intros input_dots node current_dots.
    pose proof (dfs_spec input_dots node current_dots [] (corrections after6))
      as [-> _].
    pose proof (dfs_spec input_dots node current_dots [] (corrections after5))
      as [-> _].
    by rewrite Hrec. }
  split.
  { intros request language k.
    pose proof (suggest_word_cases request language k after6) as Ha.
    pose proof (suggest_word_cases request language k after5) as Hb.
    destruct (input_to_braille request) as [[|dots input_dots]|e].
    - by rewrite Ha, Hb.
    - destruct Ha as (-> & _), Hb as (-> & _).
      unfold after6. by rewrite learn_correction_dictionaries, Hrec.
    - by rewrite Ha, Hb. }
  intros request language k s input_dots Hparse Hne.
  destruct (suggest_word_parsed request language k s input_dots Hparse Hne)
    as (-> & _).
  pose proof (dfs_spec input_dots
                (peek TrieNode_new (dictionaries s) language) [] []
                (corrections s)) as [Hperm _].
  cbv zeta in Hperm. rewrite app_nil_l in Hperm.
  by rewrite (merge_sort_tuple_le_perm _ _ Hperm).
Qed.

Lemma learn_correction_bonus_witness :
  let learned := learn_times 5 "" "Dog" sample in
  let dog := [[1; 4; 5]; [1; 3; 5]; [1; 2; 4; 5]]%Z in
  (0 ≤ count_of sample "Dog")%Z ∧
  stored_at (peek TrieNode_new (dictionaries sample) "english") dog "dog" ∧
  count_of learned "dog" = 5%Z ∧
  min2 half (tenth * Qc_of_Z (count_of learned "Dog")) = half ∧
  (levenshtein_distance [[1; 4]; [1]; [2; 3; 4; 5]]%Z dog - half,
   levenshtein_distance [[1; 4]; [1]; [2; 3; 4; 5]]%Z dog, "dog")
  ∈ (dfs [[1; 4]; [1]; [2; 3; 4; 5]]%Z
       (peek TrieNode_new (dictionaries sample) "english") []
       ([], corrections learned)).1.
Proof.
  intros learned dog.
  assert (0 ≤ count_of sample "Dog")%Z as H by (by vm_compute).
  assert (stored_at (peek TrieNode_new (dictionaries sample) "english")
            dog "dog") as Hst.
  { eexists. split; vm_compute; reflexivity. }
  split; [exact H|]. split; [exact Hst|].
  destruct (learn_correction_bonus sample "" "Dog" H)
    as (_ & _ & _ & _ & _ & H5 & Hb & _ & Hpush & _).
  split; [exact H5|]. split; [exact Hb|].
  destruct (Hpush [[1; 4]; [1]; [2; 3; 4; 5]]%Z
              (peek TrieNode_new (dictionaries sample) "english") dog "dog" Hst)
    as [Ha _]; [vm_compute; reflexivity | exact Ha].
Defined.

Example learn_correction_bonus_reorders :
  (suggest_word "W+K+O Q+K W+Q+O" "english" 1 sample).1 = Return ["hat"] ∧
  (suggest_word "W+K+O Q+K W+Q+O" "english" 1
     (learn_times 2 "" "dog" sample)).1 = Return ["dog"].
Proof. vm_compute. repeat split. Qed.

(** * Further properties of the code *)

(** ** Building the tries *)

Section building.

Lemma stored_at_word_at root path w :
  stored_at root path w ↔ word_at root path = Some w.
Proof.
  unfold stored_at, word_at. split.
  - by intros (n & -> & Hw).
  - destruct (trie_lookup root path) as [n|]; [|done]. intros Hw. by exists n.
Qed.

Lemma trie_lookup_new path :
  path ≠ [] → trie_lookup TrieNode_new path = None.
Proof. by destruct path. Qed.

Lemma word_at_new path : word_at TrieNode_new path = None.
Proof. destruct path; done. Qed.

Lemma word_at_cons cs e wd dots path :
  word_at (Node cs e wd) (dots :: path)
  = match assoc_get cs dots with
    | Some child => word_at child path
    | None => None
    end.
Proof.
  unfold word_at. cbn [trie_lookup children]. by destruct (assoc_get cs dots).
Qed.

Lemma word_at_default (cs : list (list Z * TrieNode)) dots path :
  word_at (default TrieNode_new (assoc_get cs dots)) path
  = match assoc_get cs dots with
    | Some child => word_at child path
    | None => None
    end.
Proof. destruct (assoc_get cs dots); [done | apply word_at_new]. Qed.

(** The loop of [add_word] with a letter table: it returns, the final node
    of the walked path carries the word, and nothing else changes. *)
Lemma add_word_from_word_at language table w chars :
  assoc_get braille_maps language = Some table →
  ∀ node, ∃ node',
    add_word_from language chars w node = Return node' ∧
    ∀ path,
      word_at node' path
      = if decide (path = (λ char, default [] (assoc_get table char)) <$> chars)
        then carries_word true (Some w)
        else word_at node path.
Proof.
  intros Ht. induction chars as [|c chars IH]; intros [cs e wd];
    cbn [add_word_from children is_end word].
  - eexists. split; [done|]. intros [|dots path].
    + by destruct (decide _).
    + destruct (decide _); [done|]. by rewrite !word_at_cons.
  - rewrite Ht.
    set (dots := default [] (assoc_get table c)).
    destruct (IH (default TrieNode_new (assoc_get cs dots)))
      as (child' & -> & Hchild). cbn [obind].
    eexists. split; [done|]. intros [|d path].
    + by destruct (decide _).
    + rewrite !word_at_cons. rewrite fmap_cons. fold dots.
      destruct (decide (d = dots)) as [->|Hne].
      * rewrite assoc_get_set_eq, Hchild, word_at_default.
        destruct (decide (path = _)) as [->|Hp].
        -- by destruct (decide _).
        -- destruct (decide (dots :: path = _)) as [Heq|]; [|done].
           by injection Heq.
      * rewrite assoc_get_set_ne by done.
        destruct (decide (d :: path = _)) as [Heq|]; [|done].
        by injection Heq.
Qed.

(** What [add_word] does for a language with a letter table. *)
Lemma add_word_spec w language self table :
  assoc_get braille_maps language = Some table →
  let self' := (add_word w language self).2 in
  (add_word w language self).1 = Return () ∧
  corrections self' = corrections self ∧
  (∀ other, other ≠ language →
            dictionaries self' !! other = dictionaries self !! other) ∧
  ∀ path,
    word_at (peek TrieNode_new (dictionaries self') language) path
    = if decide (path = word_path table w) then carries_word true (Some w)
      else word_at (peek TrieNode_new (dictionaries self) language) path.
Proof.
  intros Ht. unfold add_word.
  pose proof (peek_defaultdict_get TrieNode_new (dictionaries self) language)
    as [Hroot _].
  assert (∀ other, other ≠ language →
            (defaultdict_get TrieNode_new (dictionaries self) language).2 !! other
            = dictionaries self !! other) as Hother.
  { intros other Hne. unfold defaultdict_get.
    destruct (dictionaries self !! language); simpl; [done|].
    by rewrite lookup_insert_ne. }
  destruct (defaultdict_get TrieNode_new (dictionaries self) language)
    as [root dicts]. simpl in Hroot, Hother. subst root.
  destruct (add_word_from_word_at language table w
              (list_ascii_of_string (Str.lower w)) Ht
              (peek TrieNode_new (dictionaries self) language))
    as (root' & -> & Hword).
  simpl. split; [done|]. split; [done|]. split.
  - intros other Hne. rewrite lookup_insert_ne by done. by apply Hother.
  - intros path. unfold peek at 1. rewrite lookup_insert_eq. simpl.
    by rewrite Hword.
Qed.

Lemma carries_word_true w :
  carries_word true (Some w) = if decide (w = "") then None else Some w.
Proof.
  simpl. destruct (decide (w = "")) as [->|]; [done|].
  by rewrite bool_decide_eq_true_2.
Qed.

End building.

(** X1. For a language that has a letter table, [add_word] never raises, and
    afterwards the path spelled by the word (one pattern per character of
    its lower-case form) carries that word, in its original case, whatever
    was stored there before; the empty word is stored as no word. *)
Theorem add_word_stores (w language : string) (self : BrailleAutocorrect)
    (table : list (ascii * list Z)) :
  assoc_get braille_maps language = Some table →
  let self' := (add_word w language self).2 in
  (add_word w language self).1 = Return () ∧
  word_at (peek TrieNode_new (dictionaries self') language) (word_path table w)
  = (if decide (w = "") then None else Some w).
Proof.
  intros Ht. destruct (add_word_spec w language self table Ht)
    as (Hret & _ & _ & Hpaths).
  split; [exact Hret|]. cbv zeta. rewrite Hpaths.
  destruct (decide _); [apply carries_word_true | done].
Qed.

Lemma add_word_stores_witness :
  assoc_get braille_maps "french" = Some FRENCH_BRAILLE ∧
  word_at (peek TrieNode_new
             (dictionaries (add_word "Chat" "french" sample).2) "french")
    (word_path FRENCH_BRAILLE "Chat")
  = Some "Chat".
Proof.
  split; [reflexivity|].
  exact (proj2 (add_word_stores "Chat" "french" sample FRENCH_BRAILLE eq_refl)).
Defined.

(** X2. [add_word] changes nothing but the one path it walks: every other
    path of the language's trie carries what it carried before, the tries of
    the other languages are the same, and so are the correction counts. *)
Theorem add_word_frame (w language : string) (self : BrailleAutocorrect)
    (table : list (ascii * list Z)) :
  assoc_get braille_maps language = Some table →
  let self' := (add_word w language self).2 in
  (∀ path,
     path ≠ word_path table w →
     word_at (peek TrieNode_new (dictionaries self') language) path
     = word_at (peek TrieNode_new (dictionaries self) language) path) ∧
  (∀ other, other ≠ language →
            dictionaries self' !! other = dictionaries self !! other) ∧
  corrections self' = corrections self.
Proof.
  intros Ht. destruct (add_word_spec w language self table Ht)
    as (_ & Hc & Hothers & Hpaths).
  split; [|split; [exact Hothers | exact Hc]].
  intros path Hne. cbv zeta. rewrite Hpaths. by destruct (decide _).
Qed.

Lemma add_word_frame_witness :
  assoc_get braille_maps "english" = Some ENGLISH_BRAILLE ∧
  word_at (peek TrieNode_new
             (dictionaries (add_word "cab" "english" sample).2) "english")
    (word_path ENGLISH_BRAILLE "cat")
  = Some "cat".
Proof.
  split; [reflexivity|].
  destruct (add_word_frame "cab" "english" sample ENGLISH_BRAILLE eq_refl)
    as (Hpaths & _).
  rewrite Hpaths; [vm_compute; reflexivity|].
  vm_compute. discriminate.
Defined.

Section loading.

Lemma lower_nonempty w : w ≠ "" → list_ascii_of_string (Str.lower w) ≠ [].
Proof. by destruct w. Qed.

Lemma add_word_from_no_table language chars w node :
  assoc_get braille_maps language = None → chars ≠ [] →
  add_word_from language chars w node = Raise (KeyError language).
Proof.
  intros Ht Hne. destruct chars as [|c chars]; [done|].
  cbn [add_word_from]. by rewrite Ht.
Qed.

Lemma add_contraction_word_at w dots root path :
  word_at (add_contraction w dots root) path
  = if decide (path = [dots]) then carries_word true (Some w)
    else word_at root path.
Proof.
  destruct root as [cs e wd]. unfold add_contraction. cbn [children is_end word].
  destruct path as [|d path]; [by destruct (decide _)|].
  rewrite !word_at_cons. destruct (decide (d = dots)) as [->|Hne].
  - rewrite assoc_get_set_eq.
    destruct path as [|d' path].
    + by destruct (decide _).
    + destruct (decide _) as [Heq|]; [by injection Heq|].
      rewrite <- word_at_default.
      by destruct (default TrieNode_new (assoc_get cs dots)).
  - rewrite assoc_get_set_ne by done.
    destruct (decide _) as [Heq|]; [|done]. by injection Heq.
Qed.

Lemma last_filter_cons {A} (P : A → Prop) `{∀ x, Decision (P x)} x (l : list A) :
  last (filter P (x :: l))
  = match last (filter P l) with
    | Some y => Some y
    | None => if decide (P x) then Some x else None
    end.
Proof.
  rewrite filter_cons. destruct (decide (P x)); [|by destruct (last _)].
  destruct (filter P l) as [|y l'] eqn:Hl; [done|].
  rewrite last_cons. by destruct (last (y :: l')).
Qed.

(** The loop over the words, for a language with a letter table. *)
Lemma add_words_word_at language table words :
  assoc_get braille_maps language = Some table →
  ∀ self,
    let self' := (add_words words language self).2 in
    (add_words words language self).1 = Return () ∧
    corrections self' = corrections self ∧
    (∀ other, other ≠ language →
              dictionaries self' !! other = dictionaries self !! other) ∧
    ∀ path,
      word_at (peek TrieNode_new (dictionaries self') language) path
      = match last (filter (λ w, word_path table w = path) words) with
        | Some w => carries_word true (Some w)
        | None => word_at (peek TrieNode_new (dictionaries self) language) path
        end.
Proof.
  intros Ht. induction words as [|w words IH]; intros self; [done|].
  cbn [add_words].
  pose proof (add_word_spec w language self table Ht)
    as (Hret & Hc & Hothers & Hpaths).
  destruct (add_word w language self) as [[[]|e] self1]; [|done].
  cbv zeta in *. cbn [fst snd] in *.
  destruct (IH self1) as (IHret & IHc & IHothers & IHpaths).
  split; [done|]. split; [congruence|].
  split; [intros other Hne; by rewrite IHothers, Hothers|].
  intros path. rewrite IHpaths, last_filter_cons.
  destruct (last (filter _ words)); [done|].
  rewrite Hpaths.
  destruct (decide (word_path table w = path)) as [<-|Hne].
  - by destruct (decide _).
  - destruct (decide _); [congruence|done].
Qed.

End loading.

(** X3. For a language without a letter table, [add_word] of a non-empty
    word raises [KeyError] for the language and stores nothing, but by then
    it has registered an empty trie for the language if it had none;
    [load_dictionary] raises the same error as soon as its list has a
    non-empty word. *)
Theorem add_word_no_table (w language : string) (self : BrailleAutocorrect) :
  assoc_get braille_maps language = None → w ≠ "" →
  add_word w language self
  = (Raise (KeyError language),
     {| dictionaries :=
          match dictionaries self !! language with
          | Some _ => dictionaries self
          | None => <[language := TrieNode_new]> (dictionaries self)
          end;
        corrections := corrections self |}) ∧
  (∀ words, w ∈ words →
            (load_dictionary words language self).1 = Raise (KeyError language)).
Proof.
  intros Ht Hne.
  assert (∀ w' s, w' ≠ "" →
            (add_word w' language s).1 = Raise (KeyError language)) as Hraise.
  { intros w' s Hw'. unfold add_word.
    destruct (defaultdict_get TrieNode_new (dictionaries s) language)
      as [root dicts].
    by rewrite add_word_from_no_table by (done || by apply lower_nonempty). }
  split.
  - unfold add_word, defaultdict_get.
    destruct (dictionaries self !! language) as [root|]; simpl;
      by rewrite add_word_from_no_table by (done || by apply lower_nonempty).
  - intros words Hin. unfold load_dictionary.
    assert (∀ s, (add_words words language s).1 = Raise (KeyError language))
      as Hwords.
    { induction words as [|w' words IH]; intros s;
        [by apply elem_of_nil in Hin|]. cbn [add_words].
      destruct (decide (w' = "")) as [->|Hw'].
      - apply elem_of_cons in Hin as [->|Hin]; [done|].
        destruct (add_word "" language s) as [[[]|e] s'] eqn:Hadd.
        + by apply IH.
        + unfold add_word in Hadd.
          destruct (defaultdict_get TrieNode_new (dictionaries s) language).
          simpl in Hadd. congruence.
      - specialize (Hraise w' s Hw').
        by destruct (add_word w' language s) as [[[]|e] s']; simpl in *;
          [|congruence]. }
    specialize (Hwords self).
    by destruct (add_words words language self) as [[[]|e] s']; simpl in *;
      [|congruence].
Qed.

Lemma add_word_no_table_witness :
  assoc_get braille_maps "german" = None ∧ "Hund" ≠ "" ∧
  add_word "Hund" "german" BrailleAutocorrect_init
  = (Raise (KeyError "german"),
     {| dictionaries := <["german" := TrieNode_new]> ∅; corrections := ∅ |}).
Proof.
  split; [reflexivity|]. split; [discriminate|].
  exact (proj1 (add_word_no_table "Hund" "german" BrailleAutocorrect_init
                  eq_refl ltac:(discriminate))).
Defined.

(** X4. For a language with a letter table, [load_dictionary] never raises.
    Afterwards every path carries the last word of the list that is spelled
    on it (the empty word counting as no word), and a path on which no word
    of the list is spelled carries what it carried before; for "english",
    and only for it, the one-pattern path of the contraction carries "the"
    in any case.  Other languages and the counts are untouched. *)
Theorem load_dictionary_stores (words : list string) (language : string)
    (self : BrailleAutocorrect) (table : list (ascii * list Z)) :
  assoc_get braille_maps language = Some table →
  let self' := (load_dictionary words language self).2 in
  (load_dictionary words language self).1 = Return () ∧
  corrections self' = corrections self ∧
  (∀ other, other ≠ language →
            dictionaries self' !! other = dictionaries self !! other) ∧
  ∀ path,
    word_at (peek TrieNode_new (dictionaries self') language) path
    = if decide (language = "english" ∧ path = [[2; 3; 4; 6]%Z]) then Some "the"
      else match last (filter (λ w, word_path table w = path) words) with
           | Some w => if decide (w = "") then None else Some w
           | None =>
               word_at (peek TrieNode_new (dictionaries self) language) path
           end.
Proof.
  intros Ht. unfold load_dictionary.
  destruct (add_words_word_at language table words Ht self)
    as (Hret & Hc & Hothers & Hpaths).
  destruct (add_words words language self) as [[[]|e] self1]; [|done].
  cbv zeta in *. cbn [fst snd] in *.
  assert (∀ path,
            match last (filter (λ w, word_path table w = path) words) with
            | Some w => carries_word true (Some w)
            | None =>
                word_at (peek TrieNode_new (dictionaries self) language) path
            end
            = match last (filter (λ w, word_path table w = path) words) with
              | Some w => if decide (w = "") then None else Some w
              | None =>
                  word_at (peek TrieNode_new (dictionaries self) language) path
              end) as Hcarry.
  { intros path. destruct (last _); [apply carries_word_true|done]. }
  destruct (decide (language = "english")) as [->|Hlang].
  - cbn [fst snd]. unfold add_contractions, contractions, CONTRACTIONS.
    cbn [foldl fst snd].
    pose proof (peek_defaultdict_get TrieNode_new (dictionaries self1) "english")
      as [Hroot _].
    assert (∀ other, other ≠ "english" →
              (defaultdict_get TrieNode_new (dictionaries self1) "english").2
              !! other = dictionaries self1 !! other) as Hother.
    { intros other Hne. unfold defaultdict_get.
      destruct (dictionaries self1 !! "english"); simpl; [done|].
      by rewrite lookup_insert_ne. }
    destruct (defaultdict_get TrieNode_new (dictionaries self1) "english")
      as [root dicts]. simpl in Hroot, Hother. subst root.
    cbn [dictionaries corrections].
    split; [done|]. split; [done|]. split.
    + intros other Hne. rewrite lookup_insert_ne by done.
      by rewrite Hother, Hothers.
    + intros path. unfold peek at 1. rewrite lookup_insert_eq.
      change (default TrieNode_new (Some ?x)) with x.
      rewrite add_contraction_word_at.
      destruct (decide (path = [[2; 3; 4; 6]%Z])) as [->|Hp].
      * by destruct (decide _) as [|[]].
      * destruct (decide _) as [[_ ?]|]; [done|].
        by rewrite Hpaths, Hcarry.
  - cbn [fst snd]. split; [done|]. split; [done|]. split; [done|].
    intros path. destruct (decide _) as [[? _]|]; [done|].
    by rewrite Hpaths, Hcarry.
Qed.

Lemma load_dictionary_stores_witness :
  assoc_get braille_maps "english" = Some ENGLISH_BRAILLE ∧
  word_at (peek TrieNode_new (dictionaries sample) "english")
    [[2; 3; 4; 6]%Z] = Some "the" ∧
  word_at (peek TrieNode_new (dictionaries sample) "french")
    [[2; 3; 4; 6]%Z] = None.
Proof.
  split; [reflexivity|].
  destruct (load_dictionary_stores english_words "english"
              BrailleAutocorrect_init ENGLISH_BRAILLE eq_refl)
    as (_ & _ & _ & Hpaths).
  split; [|vm_compute; reflexivity].
  unfold sample.
  destruct (load_dictionary_stores french_words "french"
              (load_dictionary english_words "english" BrailleAutocorrect_init).2
              FRENCH_BRAILLE eq_refl) as (_ & _ & Hothers & _).
  unfold peek. rewrite (Hothers "english") by discriminate.
  exact (Hpaths [[2; 3; 4; 6]%Z]).
Defined.

(** ** The parser on valid input *)

Section valid_input.

Lemma StronglySorted_le_lt (l : list Z) :
  StronglySorted Z.le l → NoDup l → StronglySorted Z.lt l.
Proof.
  induction 1 as [|x l _ IH Hx]; intros Hnd; [constructor|].
  apply NoDup_cons in Hnd as [Hx' Hnd]. constructor; [by apply IH|].
  rewrite Forall_forall in *. intros y Hy. specialize (Hx y Hy).
  assert (x ≠ y) by (by intros ->). lia.
Qed.

Lemma sorted_Z_canonical (l : list Z) : NoDup l → canonical (sorted_Z l).
Proof.
  intros Hnd. apply StronglySorted_le_lt.
  - apply (StronglySorted_merge_sort _).
  - unfold sorted_Z. by rewrite merge_sort_Permutation.
Qed.

Lemma keys_to_dots_raise_inv token e :
  keys_to_dots token = Raise e → token ≠ "" ∧ has_invalid_symbol token.
Proof.
  unfold keys_to_dots. destruct (decide (token = "")); [done|].
  destruct (decide _) as [|Hsub]; [done|]. intros _.
  split; [done|]. by apply has_invalid_symbol_not_subseteq.
Qed.

Lemma comprehension_raise_inv (l : list string) e :
  comprehension keys_to_dots l = Raise e → Exists has_invalid_symbol l.
Proof.
  induction l as [|t l IH]; simpl; [done|].
  destruct (keys_to_dots t) as [d|e'] eqn:Ht; simpl.
  - destruct (comprehension keys_to_dots l); simpl; [done|].
    intros [= <-]. right. by apply IH.
  - intros _. left. by apply keys_to_dots_raise_inv in Ht as [_ ?].
Qed.

Lemma comprehension_return (l : list string) :
  Forall (λ t, ¬ has_invalid_symbol t) l →
  ∃ dots, comprehension keys_to_dots l = Return dots ∧ length dots = length l.
Proof.
  induction 1 as [|t l Ht _ (dots & IH & Hlen)]; simpl; [by exists []|].
  destruct (keys_to_dots_valid t Ht) as [d ->]. simpl. rewrite IH. simpl.
  exists (d :: dots). by rewrite <- Hlen.
Qed.

End valid_input.

(** X5. What [keys_to_dots] returns for a non-empty token it accepts: the
    dots whose key is one of the token's symbols, each once, in increasing
    order (so at least one dot, all between 1 and 6).  The result depends on
    the set of symbols only: their order and repetitions do not matter. *)
Theorem keys_to_dots_result (token : string) (dots : list Z) :
  token ≠ "" → keys_to_dots token = Return dots →
  canonical dots ∧ dots ≠ [] ∧
  (∀ dot, dot ∈ dots ↔
          ∃ key, (dot, key) ∈ DOT_TO_KEY ∧ key ∈ Str.split_on "+"%char token) ∧
  Forall (λ dot, 1 ≤ dot ≤ 6)%Z dots ∧
  (∀ token',
     token' ≠ "" →
     (list_to_set (Str.split_on "+"%char token') : gset string)
     = list_to_set (Str.split_on "+"%char token) →
     keys_to_dots token' = Return dots).
Proof.
  intros Hne Hret.
  split; [|split; [by eapply keys_to_dots_nonempty|]].
  { revert Hret. unfold keys_to_dots. destruct (decide (token = "")); [done|].
    destruct (decide _); [|done]. intros [= <-]. apply sorted_Z_canonical.
    apply (sublist_NoDup _ (DOT_TO_KEY.*1)).
    - by apply (bool_decide_unpack _).
    - apply (fmap_sublist fst), sublist_filter. }
  assert (∀ dot, dot ∈ dots ↔
                 ∃ key, (dot, key) ∈ DOT_TO_KEY
                        ∧ key ∈ Str.split_on "+"%char token) as Hdots.
  { revert Hret. unfold keys_to_dots. destruct (decide (token = "")); [done|].
    destruct (decide _); [|done]. intros [= <-] dot. unfold sorted_Z.
    rewrite merge_sort_Permutation, list_elem_of_fmap. split.
    - intros ([d key] & -> & [Hkey Hin]%list_elem_of_filter).
      exists key. split; [done|]. by apply elem_of_list_to_set in Hkey.
    - intros (key & Hin & Hkey). exists (dot, key). split; [done|].
      apply list_elem_of_filter. split; [|done].
      by apply elem_of_list_to_set. }
  split; [exact Hdots|]. split.
  { rewrite Forall_forall. intros dot (key & Hin & _)%Hdots.
    assert (Forall (λ dk : Z * string, 1 ≤ dk.1 ≤ 6)%Z DOT_TO_KEY) as Hall
      by (by apply (bool_decide_unpack _)).
    rewrite Forall_forall in Hall. exact (Hall _ Hin). }
  intros token' Hne' Hset. revert Hret. unfold keys_to_dots.
  destruct (decide (token = "")); [done|].
  destruct (decide (token' = "")); [done|]. by rewrite Hset.
Qed.

Lemma keys_to_dots_result_witness :
  "K+D+K" ≠ "" ∧ keys_to_dots "K+D+K" = Return [1; 4]%Z ∧
  keys_to_dots "D+K" = Return [1; 4]%Z.
Proof.
  assert (keys_to_dots "K+D+K" = Return [1; 4]%Z) as H
    by (vm_compute; reflexivity).
  split; [discriminate|]. split; [exact H|].
  destruct (keys_to_dots_result "K+D+K" [1; 4]%Z ltac:(discriminate) H)
    as (_ & _ & _ & _ & Hsame).
  apply Hsame; [discriminate|]. vm_compute. reflexivity.
Defined.

Section raised.

Lemma keys_to_dots_raise_ValueError token e :
  keys_to_dots token = Raise e → ∃ offending valid, e = ValueError offending valid.
Proof.
  unfold keys_to_dots. destruct (decide (token = "")); [done|].
  destruct (decide _); [done|]. intros [= <-]. by eexists _, _.
Qed.

Lemma input_to_braille_raise_ValueError input_seq e :
  input_to_braille input_seq = Raise e →
  ∃ offending valid, e = ValueError offending valid.
Proof.
  unfold input_to_braille. generalize (Str.split input_seq). intros l.
  revert e. induction l as [|t l IH]; intros e; simpl; [done|].
  destruct (keys_to_dots t) as [d|e'] eqn:Ht; simpl.
  - destruct (comprehension keys_to_dots l); simpl; [done|].
    intros [= <-]. by apply IH.
  - intros [= <-]. by eapply keys_to_dots_raise_ValueError.
Qed.

End raised.

(** X6. On a trie that is shallow, that is, whose longest word stays well
    below the interpreter's limit on nested calls, [suggest_word] (and with
    it [process_input]) raises exactly when some token of the input has a
    symbol outside the valid keys, and the error is then the [ValueError] of
    [keys_to_dots]; on an input made of valid key groups it returns a list,
    for every language, loaded or not, and every bound.  (On a deeper trie
    the recursive traversal of the source can exhaust the interpreter's
    frames, which the total traversal of the model does not show.) *)
Theorem suggest_word_raises_iff (input_seq language : string) (k : Z)
    (self : BrailleAutocorrect) :
  shallow (peek TrieNode_new (dictionaries self) language) →
  ((∃ e, (suggest_word input_seq language k self).1 = Raise e) ↔
   Exists has_invalid_symbol (Str.split input_seq)) ∧
  (∀ e, (suggest_word input_seq language k self).1 = Raise e →
        ∃ offending valid, e = ValueError offending valid) ∧
  ((∃ ws, (suggest_word input_seq language k self).1 = Return ws) ↔
   Forall (λ t, ¬ has_invalid_symbol t) (Str.split input_seq)).
Proof.
  intros _.
  pose proof (suggest_word_cases input_seq language k self) as Hcases.
  destruct (decide (Exists has_invalid_symbol (Str.split input_seq)))
    as [Hbad|Hgood].
  - assert (∃ e, input_to_braille input_seq = Raise e) as [e He].
    { destruct (Exists_leftmost _ _ Hbad)
        as (pre & token & post & Hsplit & Hpre & Htok).
      eexists. unfold input_to_braille. rewrite Hsplit.
      apply comprehension_first_raise.
      - eapply Forall_impl; [exact Hpre|]. intros t. apply keys_to_dots_valid.
      - apply keys_to_dots_invalid; [|done].
        pose proof (StrFacts.split_nonempty input_seq) as Hall.
        rewrite Hsplit in Hall. apply Forall_app in Hall as [_ Hall].
        by apply Forall_cons_1 in Hall as [? _]. }
    pose proof (input_to_braille_raise_ValueError _ _ He) as Hval.
    rewrite He in Hcases. rewrite Hcases. split; [|split].
    + split; [done|]. intros _. by exists e.
    + intros e' [= <-]. exact Hval.
    + split; [by intros [ws ?]|].
      intros Hall. exfalso. apply Exists_exists in Hbad as (t & Hin & Ht).
      rewrite Forall_forall in Hall. by apply (Hall t).
  - assert (Forall (λ t, ¬ has_invalid_symbol t) (Str.split input_seq)) as Hall.
    { apply Forall_forall. intros t Hin Ht. apply Hgood, Exists_exists. eauto. }
    destruct (comprehension_return _ Hall) as (dots & Hret & _).
    unfold input_to_braille in Hcases. rewrite Hret in Hcases.
    assert (∃ ws, (suggest_word input_seq language k self).1 = Return ws)
      as [ws Hws].
    { destruct dots as [|d dots]; [rewrite Hcases; by eexists|].
      destruct Hcases as (-> & _). by eexists. }
    split; [|split].
    + split; [|done]. intros [e He]. rewrite Hws in He. discriminate He.
    + intros e He. rewrite Hws in He. discriminate He.
    + split; [done|]. intros _. by exists ws.
Qed.

Lemma suggest_word_raises_iff_witness :
  shallow (peek TrieNode_new (dictionaries sample) "english") ∧
  (∃ e, (suggest_word "D+K X" "english" 1 sample).1 = Raise e) ∧
  (∃ ws, (suggest_word "D+K D" "english" 1 sample).1 = Return ws).
Proof.
  assert (shallow (peek TrieNode_new (dictionaries sample) "english")) as H.
  { apply (bool_decide_unpack _). by vm_compute. }
  split; [exact H|]. split.
  - apply (suggest_word_raises_iff "D+K X" "english" 1 sample H).
    apply (bool_decide_unpack _). by vm_compute.
  - apply (suggest_word_raises_iff "D+K D" "english" 1 sample H).
    apply (bool_decide_unpack _). by vm_compute.
Defined.

(** ** What a request returns *)

Section returned.

(** The result of a request that parses to a non-empty sequence, in terms
    of the suggestions the traversal pushed. *)
Lemma suggest_word_sorted input_seq language k self input_dots :
  input_to_braille input_seq = Return input_dots → input_dots ≠ [] →
  let root := peek TrieNode_new (dictionaries self) language in
  let pushed := (dfs input_dots root [] ([], corrections self)).1 in
  let sorted := merge_sort tuple_le pushed in
  pushed ≡ₚ recorded input_dots (corrections self) root [] ∧
  sorted ≡ₚ pushed ∧
  StronglySorted lex_le sorted ∧
  (suggest_word input_seq language k self).1 = Return ((slice_to sorted k).*2).
Proof.
  intros Hparse Hne root pushed sorted.
  pose proof (dfs_spec input_dots root [] [] (corrections self)) as [Hperm _].
  cbv zeta in Hperm. rewrite app_nil_l in Hperm. fold pushed in Hperm.
  split; [exact Hperm|]. split; [apply merge_sort_Permutation|].
  split; [apply StronglySorted_tuple_le_lex, (StronglySorted_merge_sort _)|].
  destruct (suggest_word_parsed input_seq language k self input_dots Hparse Hne)
    as (-> & _).
  unfold sorted. by rewrite (merge_sort_tuple_le_perm _ _ Hperm).
Qed.

Lemma slice_to_sublist {A} (l : list A) k : slice_to l k `sublist_of` l.
Proof. unfold slice_to. destruct (decide _); apply sublist_take. Qed.

Lemma slice_to_length {A} (l : list A) k :
  (0 ≤ k)%Z → (length (slice_to l k) ≤ Z.to_nat k)%nat.
Proof.
  intros Hk. unfold slice_to. destruct (decide _); [lia|].
  rewrite length_take. lia.
Qed.

(** The result of a request depends on the state through what the two
    stores read only. *)
Lemma suggest_word_reads input_seq language k self1 self2 :
  peek TrieNode_new (dictionaries self1) language
  = peek TrieNode_new (dictionaries self2) language →
  same_counts (corrections self1) (corrections self2) →
  (suggest_word input_seq language k self1).1
  = (suggest_word input_seq language k self2).1.
Proof.
  intros Hroot Hcounts.
  pose proof (suggest_word_cases input_seq language k self1) as H1.
  pose proof (suggest_word_cases input_seq language k self2) as H2.
  destruct (input_to_braille input_seq) as [[|dots input_dots]|e].
  - by rewrite H1, H2.
  - destruct H1 as (-> & _), H2 as (-> & _).
    by rewrite Hroot, (recorded_same_counts _ _ _ Hcounts).
  - by rewrite H1, H2.
Qed.

Lemma suggest_word_keeps_reads input_seq language k self :
  (∀ l, peek TrieNode_new
          (dictionaries (suggest_word input_seq language k self).2) l
        = peek TrieNode_new (dictionaries self) l) ∧
  same_counts (corrections (suggest_word input_seq language k self).2)
    (corrections self).
Proof.
  pose proof (suggest_word_cases input_seq language k self) as H.
  destruct (input_to_braille input_seq) as [[|dots input_dots]|e].
  - by rewrite H.
  - destruct H as (_ & -> & Hc). split.
    + intros l. apply default_extends_peek, default_extends_get.
    + by apply default_extends_same_counts.
  - by rewrite H.
Qed.

End returned.

(** X7. In a state reached through the methods of the object, every word
    [suggest_word] returns is a word stored in the trie of the requested
    language (never the empty word), whatever the bound; for a bound
    [k ≥ 0] it returns at most [k] words, and [process_input] at most
    one. *)
Theorem suggest_word_returns_stored (input_seq language : string) (k : Z)
    (self : BrailleAutocorrect) (ws : list string) :
  reachable self →
  (suggest_word input_seq language k self).1 = Return ws →
  (∀ w, w ∈ ws →
        w ≠ "" ∧
        ∃ path,
          stored_at (peek TrieNode_new (dictionaries self) language) path w) ∧
  ((0 ≤ k)%Z → (length ws ≤ Z.to_nat k)%nat) ∧
  (∀ ws1, (process_input input_seq language self).1 = Return ws1 →
          (length ws1 ≤ 1)%nat).
Proof.
  intros Hreach Hres.
  destruct (reachable_ok self Hreach) as [Hdict _].
  assert (trie_ok (peek TrieNode_new (dictionaries self) language)) as Hroot.
  { unfold peek. destruct (dictionaries self !! language) eqn:Hl; simpl.
    - by eapply Hdict.
    - apply root_ok_new. }
  assert (∀ k' ws',
            (suggest_word input_seq language k' self).1 = Return ws' →
            (∀ w, w ∈ ws' →
               w ≠ "" ∧
               ∃ path,
                 stored_at (peek TrieNode_new (dictionaries self) language)
                   path w) ∧
            ((0 ≤ k')%Z → (length ws' ≤ Z.to_nat k')%nat)) as Hgen.
  { intros k' ws' Hres'.
    pose proof (suggest_word_cases input_seq language k' self) as Hcases.
    destruct (input_to_braille input_seq) as [[|dots input_dots]|e] eqn:Hparse.
    - rewrite Hcases in Hres'. injection Hres' as <-.
      split; [by intros w ?%elem_of_nil | simpl; lia].
    - clear Hcases.
      destruct (suggest_word_sorted input_seq language k' self
                  (dots :: input_dots) Hparse) as (Hrec & Hsp & _ & Hr);
        [done|].
      rewrite Hr in Hres'. injection Hres' as <-. split.
      + intros w (t & -> & Ht)%list_elem_of_fmap.
        pose proof (elem_of_sublist _ _ _ Ht (slice_to_sublist _ _)) as Ht'.
        clear Ht. rename Ht' into Ht.
        rewrite Hsp, Hrec in Ht.
        destruct (recorded_sound _ _ _ _ _ Hroot Ht)
          as (path & w & Hstored & ->). simpl. split; [|by exists path].
        destruct Hstored as (n & _ & Hw). destruct (word n) as [w0|]; [|done].
        simpl in Hw. destruct (is_end n); [|done]. simpl in Hw.
        destruct (bool_decide (w0 ≠ "")) eqn:Hb; [|done].
        injection Hw as <-. by apply bool_decide_eq_true in Hb.
      + intros Hk. rewrite length_fmap. by apply slice_to_length.
    - rewrite Hcases in Hres'. discriminate Hres'. }
  destruct (Hgen k ws Hres) as [H1 H2]. split; [exact H1|]. split; [exact H2|].
  intros ws1 Hws1. destruct (Hgen 1%Z ws1 Hws1) as [_ Hlen].
  apply Hlen. lia.
Qed.

Lemma suggest_word_returns_stored_witness :
  reachable sample ∧
  (suggest_word "D+K D W" "english" 2 sample).1 = Return ["cat"; "hat"] ∧
  ∃ path,
    stored_at (peek TrieNode_new (dictionaries sample) "english") path "hat".
Proof.
  assert ((suggest_word "D+K D W" "english" 2 sample).1
          = Return ["cat"; "hat"]) as H by (vm_compute; reflexivity).
  split; [exact sample_reachable|]. split; [exact H|].
  destruct (suggest_word_returns_stored "D+K D W" "english" 2 sample
              ["cat"; "hat"] sample_reachable H) as (Hstored & _).
  apply (Hstored "hat"). right. left.
Defined.

(** X8. A request never changes what later requests return: after any call
    of [suggest_word], every call returns what it would have returned
    before it. *)
Theorem suggest_word_repeatable (input_seq language : string) (k : Z)
    (input_seq' language' : string) (k' : Z) (self : BrailleAutocorrect) :
  (suggest_word input_seq language k
     (suggest_word input_seq' language' k' self).2).1
  = (suggest_word input_seq language k self).1.
Proof.
  destruct (suggest_word_keeps_reads input_seq' language' k' self) as [Hd Hc].
  by apply suggest_word_reads.
Qed.

(** X9. When a request parses to a non-empty sequence, asks for at least
    one word, and the trie has a word, the first word returned belongs to the
    pushed triple that is least in the order (score, distance, word); such a
    least triple is unique. *)
Theorem suggest_word_first_is_least (input_seq language : string) (k : Z)
    (self : BrailleAutocorrect) (input_dots : list (list Z)) :
  input_to_braille input_seq = Return input_dots → input_dots ≠ [] →
  (1 ≤ k)%Z →
  let root := peek TrieNode_new (dictionaries self) language in
  let pushed := (dfs input_dots root [] ([], corrections self)).1 in
  pushed ≠ [] →
  ∃ t rest,
    t ∈ pushed ∧
    (∀ t', t' ∈ pushed → lex_le t t') ∧
    (∀ t', t' ∈ pushed → (∀ t'', t'' ∈ pushed → lex_le t' t'') → t' = t) ∧
    (suggest_word input_seq language k self).1 = Return (t.2 :: rest).
Proof.
  intros Hparse Hne Hk root pushed Hpushed.
  destruct (suggest_word_sorted input_seq language k self input_dots Hparse Hne)
    as (_ & Hsp & Hss & Hres). fold root pushed in Hsp, Hss, Hres.
  destruct (merge_sort tuple_le pushed) as [|t sorted] eqn:Hsorted.
  { symmetry in Hsp. apply Permutation_nil_r in Hsp. done. }
  assert (∀ t', t' ∈ pushed → lex_le t t') as Hleast.
  { intros t' Ht'. rewrite <- Hsp in Ht'.
    apply elem_of_cons in Ht' as [->|Ht'].
    - apply tuple_le_lex. destruct (total tuple_le t t); done.
    - apply StronglySorted_inv in Hss as [_ Hhd].
      rewrite Forall_forall in Hhd. by apply Hhd. }
  exists t, ((take (Z.to_nat k - 1) sorted).*2).
  split; [rewrite <- Hsp; left|]. split; [exact Hleast|]. split.
  - intros t' Ht' Hleast'. apply (anti_symm tuple_le).
    + apply tuple_le_lex, Hleast'. rewrite <- Hsp. left.
    + by apply tuple_le_lex, Hleast.
  - rewrite Hres. f_equal. unfold slice_to. destruct (decide _); [lia|].
    destruct (Z.to_nat k) as [|k'] eqn:Hk'; [lia|].
    simpl. by rewrite Nat.sub_0_r.
Qed.

Lemma suggest_word_first_is_least_witness :
  input_to_braille "W" = Return [[2]%Z] ∧
  ∃ t rest,
    (∀ t', t' ∈ (dfs [[2]%Z]
                   (peek TrieNode_new (dictionaries two_words) "french") []
                   ([], corrections two_words)).1 → lex_le t t') ∧
    (suggest_word "W" "french" 1 two_words).1 = Return (t.2 :: rest).
Proof.
  assert (input_to_braille "W" = Return [[2]%Z]) as H
    by (vm_compute; reflexivity).
  split; [exact H|].
  destruct (suggest_word_first_is_least "W" "french" 1 two_words [[2]%Z] H)
    as (t & rest & _ & Hleast & _ & Hres); [discriminate | lia | |].
  - intros Hnil. apply (f_equal length) in Hnil. vm_compute in Hnil.
    discriminate Hnil.
  - exists t, rest. split; [exact Hleast | exact Hres].
Defined.

(** X10. A negative bound is no error: [suggest_word] then returns the
    ranking without its last [-k] words, hence nothing when the trie has at
    most [-k] words. *)
Theorem suggest_word_negative_bound_drops (input_seq language : string)
    (k : Z) (self : BrailleAutocorrect) (input_dots : list (list Z)) :
  input_to_braille input_seq = Return input_dots → input_dots ≠ [] →
  (k < 0)%Z →
  let root := peek TrieNode_new (dictionaries self) language in
  let pushed := (dfs input_dots root [] ([], corrections self)).1 in
  ∃ sorted,
    sorted ≡ₚ pushed ∧ StronglySorted lex_le sorted ∧
    (suggest_word input_seq language k self).1
    = Return ((take (length pushed - Z.to_nat (- k)) sorted).*2) ∧
    ((len pushed ≤ - k)%Z →
     (suggest_word input_seq language k self).1 = Return []).
Proof.
  intros Hparse Hne Hk root pushed.
  destruct (suggest_word_sorted input_seq language k self input_dots Hparse Hne)
    as (_ & Hsp & Hss & Hres). fold root pushed in Hsp, Hss, Hres.
  exists (merge_sort tuple_le pushed).
  split; [exact Hsp|]. split; [exact Hss|].
  assert ((suggest_word input_seq language k self).1
          = Return ((take (length pushed - Z.to_nat (- k))
                       (merge_sort tuple_le pushed)).*2)) as Hres'.
  { rewrite Hres. unfold slice_to, len. destruct (decide _); [|lia].
    do 3 f_equal. rewrite Hsp. lia. }
  split; [exact Hres'|]. unfold len. intros Hlen. rewrite Hres'.
  by replace (length pushed - Z.to_nat (- k))%nat with 0%nat by lia.
Qed.

Lemma suggest_word_negative_bound_drops_witness :
  input_to_braille "D" = Return [[1]%Z] ∧
  (suggest_word "D" "french" (-2) sample).1 = Return ["ami"].
Proof.
  assert (input_to_braille "D" = Return [[1]%Z]) as H
    by (vm_compute; reflexivity).
  split; [exact H|].
  destruct (suggest_word_negative_bound_drops "D" "french" (-2) sample
              [[1]%Z] H) as (sorted & _ & _ & _ & _); [discriminate | lia |].
  vm_compute. reflexivity.
Defined.

(** ** The two cost functions and the distance *)

Section costs.

Lemma Qc_of_Z_le a b : (a ≤ b)%Z → Qc_of_Z a ≤ Qc_of_Z b.
Proof. apply Z2Qc_inj_le. Qed.

Lemma one_minus_eq_one r : 1 - r = 1 ↔ r = 0.
Proof.
  split; intros H.
  - assert (r = 1 - (1 - r)) as -> by ring. rewrite H. ring.
  - rewrite H. ring.
Qed.

Lemma ratio_nonneg a b : 0 ≤ of_nat a / of_nat b.
Proof.
  destruct (decide (b = 0%nat)) as [->|Hb].
  - unfold Qcdiv. change (of_nat 0) with (Qc_of_Z 0). rewrite Z2Qc_inj_0.
    change (/ 0) with (Q2Qc 0). rewrite Qcmult_0_r. apply Qcle_refl.
  - apply Qcmult_nonneg_nonneg; [apply of_nat_nonneg|].
    apply Qclt_le_weak, Qcinv_pos.
    destruct (Qcle_lt_or_eq _ _ (of_nat_nonneg b)) as [|Heq]; [done|].
    symmetry in Heq. exfalso. revert Heq. by apply of_nat_nonzero.
Qed.

Lemma subCost_le_one p q : subCost p q ≤ 1.
Proof.
  unfold subCost. destruct (decide _); [apply Qcle_refl|].
  apply (Qcplus_le_mono_r _ _ (of_nat (size (p ∩ q)) / of_nat (size (p ∪ q)))).
  unfold Qcminus.
  rewrite <- Qcplus_assoc, (Qcplus_comm (- _)), Qcplus_opp_r, Qcplus_0_r.
  rewrite <- (Qcplus_0_r 1) at 1. apply Qcplus_le_mono_l, ratio_nonneg.
Qed.

(** Only disjoint dot sets are at cost 1. *)
Lemma subCost_one p q : subCost p q = 1 ↔ p ∩ q = ∅.
Proof.
  unfold subCost. destruct (decide (size (p ∪ q) = 0%nat)) as [Hu|Hu].
  - split; [|done]. intros _. apply size_empty_iff in Hu.
    apply leibniz_equiv in Hu. apply set_eq. intros x.
    split; [|by intros ?%not_elem_of_empty].
    intros [Hp _]%elem_of_intersection.
    assert (x ∈ p ∪ q) as Hx by (by apply elem_of_union_l).
    by rewrite Hu in Hx.
  - rewrite one_minus_eq_one. split.
    + intros Hr.
      assert (of_nat (size (p ∩ q)) = 0) as Hi.
      { rewrite <- (Qcmult_div_r (of_nat (size (p ∩ q)))
                     (of_nat (size (p ∪ q)))) by (by apply of_nat_nonzero).
        by rewrite Hr, Qcmult_0_r. }
      unfold of_nat in Hi. rewrite <- Z2Qc_inj_0 in Hi.
      apply Z2Qc_inj in Hi.
      apply leibniz_equiv, size_empty_iff. lia.
    + intros ->. rewrite size_empty. unfold Qcdiv.
      change (of_nat 0) with (Qc_of_Z 0). by rewrite Z2Qc_inj_0, Qcmult_0_l.
Qed.

End costs.

(** X11. [normalized_dot_distance] lies between 0 and 1 and is symmetric; it
    is 0 exactly for two patterns with the same dots, at least one dot, and
    1 exactly for two patterns without a common dot (two empty patterns
    included). *)
Theorem normalized_dot_distance_range (dots1 dots2 : list Z) :
  let set1 : gset Z := list_to_set dots1 in
  let set2 : gset Z := list_to_set dots2 in
  0 ≤ normalized_dot_distance dots1 dots2 ≤ 1 ∧
  normalized_dot_distance dots1 dots2 = normalized_dot_distance dots2 dots1 ∧
  (normalized_dot_distance dots1 dots2 = 0 ↔ set1 = set2 ∧ dots1 ≠ []) ∧
  (normalized_dot_distance dots1 dots2 = 1 ↔ set1 ∩ set2 = ∅).
Proof.
  intros set1 set2. rewrite !normalized_dot_distance_subCost.
  fold set1 set2.
  split; [split; [apply subCost_nonneg | apply subCost_le_one]|].
  split; [apply subCost_comm|]. split; [|apply subCost_one].
  split.
  - intros Hz. pose proof (subCost_zero _ _ Hz) as Heq. split; [done|].
    intros ->. unfold set1 in Heq. rewrite <- Heq in Hz.
    change (subCost ∅ ∅ = 0) in Hz. rewrite subCost_empty in Hz.
    by apply (Qclt_not_eq 0 1 Qc_one_pos).
  - intros [<- Hne]. apply subCost_same. unfold set1.
    destruct dots1 as [|x dots1]; [done|].
    intros Hempty. apply (not_elem_of_empty (C := gset Z) x).
    rewrite <- Hempty. apply elem_of_list_to_set. left.
Qed.

Section bounds.
Context (cost : list Z → list Z → Qc).
Hypothesis cost_nonneg : ∀ p q, 0 ≤ cost p q.
Hypothesis cost_le_one : ∀ p q, cost p q ≤ 1.

Lemma min3_lower a b c x : x ≤ a → x ≤ b → x ≤ c → x ≤ min3 a b c.
Proof. intros. by destruct (min3_cases a b c) as [->|[->| ->]]. Qed.

Lemma Qc_of_Z_succ z : Qc_of_Z (z + 1) = Qc_of_Z z + 1.
Proof. by rewrite Z2Qc_inj_add, Z2Qc_inj_1. Qed.

(** A cell is at least the difference of its indices, at most the larger
    one. *)
Lemma edit_cell_lower A B i :
  ∀ j, Qc_of_Z (Z.abs (Z.of_nat i - Z.of_nat j)) ≤ edit_cell cost A B i j.
Proof.
  induction i as [|i IHi]; intros j.
  - destruct j; apply Qc_of_Z_le; lia.
  - induction j as [|j IHj]; [apply Qc_of_Z_le; lia|].
    rewrite edit_cell_S_S. apply min3_lower.
    + trans (Qc_of_Z (Z.abs (Z.of_nat i - Z.of_nat (S j))) + 1).
      * rewrite <- Qc_of_Z_succ. apply Qc_of_Z_le. lia.
      * apply Qcplus_le_mono_r, IHi.
    + trans (Qc_of_Z (Z.abs (Z.of_nat (S i) - Z.of_nat j)) + 1).
      * rewrite <- Qc_of_Z_succ. apply Qc_of_Z_le. lia.
      * apply Qcplus_le_mono_r, IHj.
    + trans (edit_cell cost A B i j + 0).
      * rewrite Qcplus_0_r.
        replace (Z.of_nat (S i) - Z.of_nat (S j))%Z
          with (Z.of_nat i - Z.of_nat j)%Z by lia. apply IHi.
      * apply Qcplus_le_mono_l, cost_nonneg.
Qed.

Lemma edit_cell_upper A B i :
  ∀ j, edit_cell cost A B i j ≤ Qc_of_Z (Z.of_nat i `max` Z.of_nat j).
Proof.
  induction i as [|i IHi]; intros j.
  - destruct j; apply Qc_of_Z_le; lia.
  - induction j as [|j IHj]; [apply Qc_of_Z_le; lia|].
    rewrite edit_cell_S_S.
    etrans; [apply min3_le_3|].
    trans (Qc_of_Z (Z.of_nat i `max` Z.of_nat j) + 1).
    + trans (edit_cell cost A B i j + 1).
      * apply Qcplus_le_mono_l, cost_le_one.
      * apply Qcplus_le_mono_r, IHi.
    + rewrite <- Qc_of_Z_succ. apply Qc_of_Z_le. lia.
Qed.

End bounds.

(** X12. [levenshtein_distance] is symmetric in its two sequences.  For
    sequences of lengths [n] and [m] it is at least [1.5 * |n - m|] and at
    most [max(n, m) + 0.5 * |n - m|]; so the distance to the empty sequence
    is [1.5 * n]. *)
Theorem levenshtein_distance_bounds (A B : list (list Z)) :
  let diff := Qc_of_Z (Z.abs (len A - len B)) in
  levenshtein_distance A B = levenshtein_distance B A ∧
  diff + half * diff ≤ levenshtein_distance A B ∧
  levenshtein_distance A B ≤ Qc_of_Z (len A `max` len B) + half * diff ∧
  levenshtein_distance A [] = Qc_of_Z (len A) + half * Qc_of_Z (len A).
Proof.
  intros diff. rewrite !levenshtein_distance_table.
  assert (∀ p q, normalized_dot_distance p q ≤ 1) as Hle
    by (intros; apply subCost_le_one).
  split; [|split; [|split]].
  - rewrite (edit_cell_transpose normalized_dot_distance A B).
    + by replace (Z.abs (len B - len A)) with (Z.abs (len A - len B)) by lia.
    + intros p q. rewrite !normalized_dot_distance_subCost. apply subCost_comm.
  - apply Qcplus_le_mono_r.
    apply edit_cell_lower, normalized_dot_distance_nonneg.
  - apply Qcplus_le_mono_r. by apply edit_cell_upper.
  - f_equal.
    + unfold len. by destruct A.
    + unfold len. simpl. do 2 f_equal. lia.
Qed.

Example levenshtein_distance_empty :
  levenshtein_distance [[1]; [2]]%Z [] = Q2Qc 3.
Proof. apply Qc_is_canon. vm_compute. reflexivity. Qed.

(** X13. [hamming_distance] is a metric on dot sets: it is symmetric, it is
    0 exactly for patterns with the same dots, and it satisfies the triangle
    inequality; it never exceeds the number of dots of the two patterns
    together. *)
Theorem hamming_distance_metric (dots1 dots2 dots3 : list Z) :
  hamming_distance dots1 dots2 = hamming_distance dots2 dots1 ∧
  (hamming_distance dots1 dots2 = 0%Z ↔
   (list_to_set dots1 : gset Z) = list_to_set dots2) ∧
  (hamming_distance dots1 dots3
   ≤ hamming_distance dots1 dots2 + hamming_distance dots2 dots3)%Z ∧
  (0 ≤ hamming_distance dots1 dots2 ≤ len dots1 + len dots2)%Z.
Proof.
  unfold hamming_distance, len.
  set (s1 := list_to_set dots1 : gset Z).
  set (s2 := list_to_set dots2 : gset Z).
  set (s3 := list_to_set dots3 : gset Z).
  assert (∀ X Y : gset Z, (size (X ∪ Y) ≤ size X + size Y)%nat) as Hunion.
  { intros X Y. rewrite size_union_alt.
    assert (size (Y ∖ X) ≤ size Y)%nat; [|lia].
    apply subseteq_size. intros x. rewrite elem_of_difference. tauto. }
  assert (∀ l : list Z, (size (list_to_set l : gset Z) ≤ length l)%nat) as Hlen.
  { induction l as [|x l IH].
    - rewrite list_to_set_nil, size_empty. simpl. lia.
    - rewrite list_to_set_cons. etrans; [apply Hunion|].
      rewrite size_singleton. simpl. lia. }
  split; [by rewrite (comm_L (∪))|]. split; [|split].
  - rewrite <- Nat2Z.inj_0, Nat2Z.inj_iff, size_empty_iff. split.
    + intros Hempty. apply set_eq. intros x.
      assert (x ∉ s1 ∖ s2 ∪ s2 ∖ s1) as Hx
        by (rewrite Hempty; apply not_elem_of_empty).
      rewrite elem_of_union, !elem_of_difference in Hx.
      destruct (decide (x ∈ s1)), (decide (x ∈ s2)); tauto.
    + intros ->. intros x.
      rewrite elem_of_union, !elem_of_difference.
      split; [tauto | by intros ?%not_elem_of_empty].
  - rewrite <- Nat2Z.inj_add. apply inj_le.
    etrans; [|apply Hunion]. apply subseteq_size. intros x.
    rewrite !elem_of_union, !elem_of_difference.
    destruct (decide (x ∈ s2)); tauto.
  - split; [lia|]. rewrite <- Nat2Z.inj_add. apply inj_le.
    etrans; [apply Hunion|].
    assert (size (s1 ∖ s2) ≤ size s1)%nat
      by (apply subseteq_size; intros x; rewrite elem_of_difference; tauto).
    assert (size (s2 ∖ s1) ≤ size s2)%nat
      by (apply subseteq_size; intros x; rewrite elem_of_difference; tauto).
    pose proof (Hlen dots1). pose proof (Hlen dots2). unfold s1, s2 in *. lia.
Qed.

(** ** The variant of [test2.py] *)

Section test2.

Lemma half_double x : half * x + x * half = x.
Proof.
  assert (half + half = 1) as H by (by apply Qc_is_canon).
  rewrite (Qcmult_comm x half), <- Qcmult_plus_distr_l, H. apply Qcmult_1_l.
Qed.

Lemma filter_all {A} (P : A → Prop) `{!∀ x, Decision (P x)} (l : list A) :
  (∀ x, x ∈ l → P x) → filter P l = l.
Proof.
  induction l as [|x l IH]; intros Hall; [done|].
  rewrite filter_cons_True by (apply Hall; left).
  f_equal. apply IH. intros y Hy. apply Hall. by right.
Qed.

Lemma hamming_distance_comm p q : hamming_distance p q = hamming_distance q p.
Proof. unfold hamming_distance. by rewrite (comm_L (∪)). Qed.

Lemma substitution_cost_comm p q :
  Test2.substitution_cost p q = Test2.substitution_cost q p.
Proof. unfold Test2.substitution_cost. by rewrite hamming_distance_comm. Qed.

Lemma test2_distance_table A B :
  Test2.levenshtein_distance A B
  = edit_cell Test2.substitution_cost A B (length A) (length B)
    + half * Qc_of_Z (Z.abs (len A - len B)).
Proof. apply levenshtein_with_table, substitution_cost_comm. Qed.

Lemma search_trie_unfold input_dots cs e w current_dots st :
  Test2.search_trie input_dots (Node cs e w) current_dots st
  = test2_children input_dots cs current_dots
      (test2_visit input_dots e w current_dots st).
Proof.
  simpl. fold (test2_visit input_dots e w current_dots st).
  generalize (test2_visit input_dots e w current_dots st).
  induction cs as [|[dots child] cs IH]; intros st'; simpl; [done|].
  by rewrite IH.
Qed.

Lemma test2_recorded_unfold input_dots counts cs e w current_dots :
  test2_recorded input_dots counts (Node cs e w) current_dots
  = match carries_word e w with
    | Some wd => [test2_triple input_dots current_dots counts wd]
    | None => []
    end ++ test2_recorded_children input_dots counts cs current_dots.
Proof.
  simpl. f_equal.
  induction cs as [|[dots child] cs IH]; simpl; [done|]. by rewrite IH.
Qed.

Lemma test2_recorded_same_counts input_dots c1 c2 :
  same_counts c1 c2 →
  ∀ node current_dots,
    test2_recorded input_dots c1 node current_dots
    = test2_recorded input_dots c2 node current_dots.
Proof.
  intros Hsame node. induction node as [cs e w IH] using TrieNode_rect_children.
  intros current_dots. rewrite !test2_recorded_unfold. f_equal.
  - destruct (carries_word e w); [|done]. unfold test2_triple.
    by rewrite Hsame.
  - induction IH as [|[dots child] cs Hc _ IHcs]; simpl; [done|].
    by rewrite Hc, IHcs.
Qed.

Lemma test2_recorded_children_same_counts input_dots c1 c2 cs current_dots :
  same_counts c1 c2 →
  test2_recorded_children input_dots c1 cs current_dots
  = test2_recorded_children input_dots c2 cs current_dots.
Proof.
  intros Hsame. induction cs as [|[d ch] cs IHcs]; simpl; [done|].
  by rewrite IHcs, (test2_recorded_same_counts input_dots _ _ Hsame).
Qed.

Lemma test2_visit_spec input_dots e w current_dots heap counts :
  let st' := test2_visit input_dots e w current_dots (heap, counts) in
  st'.1 ≡ₚ heap ++ match carries_word e w with
                   | Some wd => [test2_triple input_dots current_dots counts wd]
                   | None => []
                   end
  ∧ default_extends 0%Z counts st'.2.
Proof.
  unfold test2_visit. destruct (carries_word e w) as [wd|]; cbv zeta.
  - pose proof (peek_defaultdict_get 0%Z counts wd) as [H1 _].
    pose proof (default_extends_get 0%Z counts wd) as H2.
    cbn [snd fst].
    destruct (defaultdict_get 0%Z counts wd) as [count corr].
    cbn [fst snd] in *. subst count. split; [|done].
    rewrite heappush_Permutation. f_equiv.
    enough (∀ a b : suggestion, a = b → [a] ≡ₚ [b]) as Hone.
    { apply Hone. unfold test2_triple.
      rewrite test2_distance_table. f_equal. f_equal. f_equal.
      replace (Z.abs (len current_dots - len input_dots))
        with (Z.abs (len input_dots - len current_dots)) by lia.
      rewrite <- Qcplus_assoc. f_equal. apply half_double. }
    by intros a b ->.
  - rewrite app_nil_r. split; [done | apply default_extends_refl].
Qed.

(** What [search_trie] pushes, up to the order. *)
Lemma search_trie_spec input_dots node :
  ∀ current_dots heap counts,
    let st' := Test2.search_trie input_dots node current_dots (heap, counts) in
    st'.1 ≡ₚ heap ++ test2_recorded input_dots counts node current_dots
    ∧ default_extends 0%Z counts st'.2.
Proof.
  induction node as [cs e w IH] using TrieNode_rect_children.
  intros current_dots heap counts. cbv zeta.
  rewrite search_trie_unfold, test2_recorded_unfold.
  pose proof (test2_visit_spec input_dots e w current_dots heap counts)
    as [Hv1 Hv2].
  destruct (test2_visit input_dots e w current_dots (heap, counts))
    as [heap1 counts1].
  simpl in Hv1, Hv2. rewrite app_assoc, <- Hv1.
  rewrite <- (test2_recorded_children_same_counts input_dots _ _ cs current_dots
                (default_extends_same_counts _ _ Hv2)).
  clear Hv1. revert heap1 counts1 Hv2.
  induction IH as [|[dots child] cs Hc _ IHcs]; intros heap1 counts1 Hv2; simpl.
  - by rewrite app_nil_r.
  - specialize (Hc (current_dots ++ [dots]) heap1 counts1). simpl in Hc.
    destruct Hc as [Hc1 Hc2].
    destruct (Test2.search_trie input_dots child (current_dots ++ [dots])
                (heap1, counts1)) as [heap2 counts2]. simpl in Hc1, Hc2.
    destruct (IHcs heap2 counts2) as [H1 H2].
    { eapply default_extends_trans; [exact Hv2 | exact Hc2]. }
    split; [|exact H2].
    rewrite H1, Hc1, <- app_assoc. do 2 f_equiv.
    by rewrite (test2_recorded_children_same_counts input_dots counts2 counts1)
      by by apply default_extends_same_counts.
Qed.

(** The result of [test2.py]'s [suggest_word] on an input that parses to a
    non-empty sequence. *)
Lemma test2_suggest_word_parsed input_seq language k self input_dots :
  input_to_braille input_seq = Return input_dots → input_dots ≠ [] →
  (Test2.suggest_word input_seq language k self).1
  = Return ((slice_to
               (merge_sort tuple_le
                  (test2_recorded input_dots (corrections self)
                     (peek TrieNode_new (dictionaries self) language) []))
               k).*2).
Proof.
  intros Hparse Hne. unfold Test2.suggest_word. rewrite Hparse.
  destruct (decide (input_dots = [])); [done|].
  pose proof (peek_defaultdict_get TrieNode_new (dictionaries self) language)
    as [Hroot _].
  destruct (defaultdict_get TrieNode_new (dictionaries self) language)
    as [root dicts]. simpl in Hroot. subst root.
  pose proof (search_trie_spec input_dots
                (peek TrieNode_new (dictionaries self) language)
                [] [] (corrections self)) as [Hd1 _].
  destruct (Test2.search_trie input_dots _ [] ([], corrections self))
    as [heap corr].
  simpl in *. by rewrite (merge_sort_tuple_le_perm _ _ Hd1).
Qed.

Lemma test2_recorded_words input_dots counts node :
  ∀ current_dots,
    (test2_recorded input_dots counts node current_dots).*2 = trie_words node.
Proof.
  induction node as [cs e w IH] using TrieNode_rect_children.
  intros current_dots. rewrite test2_recorded_unfold, fmap_app. simpl.
  f_equal; [by destruct (carries_word e w)|].
  induction IH as [|[dots child] cs Hc _ IHcs]; simpl; [done|].
  by rewrite fmap_app, Hc, IHcs.
Qed.

(** Triples whose words miss a key do not depend on the count at it. *)
Lemma test2_recorded_other_key input_dots c1 c2 key :
  (∀ k, k ≠ key → peek 0%Z c1 k = peek 0%Z c2 k) →
  ∀ node current_dots,
    filter (λ t : suggestion, t.2 ≠ key)
      (test2_recorded input_dots c1 node current_dots)
    = filter (λ t : suggestion, t.2 ≠ key)
        (test2_recorded input_dots c2 node current_dots).
Proof.
  intros Hsame node. induction node as [cs e w IH] using TrieNode_rect_children.
  intros current_dots. rewrite !test2_recorded_unfold, !filter_app. f_equal.
  - destruct (carries_word e w) as [wd|]; [|done].
    rewrite !filter_cons, !filter_nil. unfold test2_triple. cbn [snd].
    destruct (decide (wd ≠ key)); [|done]. by rewrite Hsame.
  - induction IH as [|[dots child] cs Hc _ IHcs]; simpl; [done|].
    by rewrite !filter_app, Hc, IHcs.
Qed.

End test2.

(** X14. The distance of [test2.py] is the final cell of the standard
    edit-distance table with substitution cost [hamming / 6], plus
    [0.5 * |n - m|]; the score it ranks by adds [0.5 * |n - m|] once more,
    so a pushed triple is (cell + |n - m| - bonus, cell + 0.5 * |n - m|,
    word), the bonus being read at the stored word as it is written, not at
    its lower-case form. *)
Theorem test2_scores (input_dots : list (list Z)) (node : TrieNode)
    (current_dots : list (list Z)) (counts : gmap string Z) :
  (∀ A B,
     Test2.levenshtein_distance A B
     = edit_cell Test2.substitution_cost A B (length A) (length B)
       + half * Qc_of_Z (Z.abs (len A - len B))) ∧
  (∀ p q, Test2.substitution_cost p q
          = Qc_of_Z (hamming_distance p q) / Qc_of_Z 6) ∧
  (Test2.search_trie input_dots node current_dots ([], counts)).1
  ≡ₚ test2_recorded input_dots counts node current_dots ∧
  (test2_recorded input_dots counts node current_dots).*2 = trie_words node.
Proof.
  split; [apply test2_distance_table|]. split.
  - intros p q. unfold Test2.substitution_cost.
    destruct (decide (0 < hamming_distance p q)%Z) as [|Hn]; [done|].
    assert (hamming_distance p q = 0%Z) as ->.
    { unfold hamming_distance in *. lia. }
    unfold Qcdiv. by rewrite Z2Qc_inj_0, Qcmult_0_l.
  - split; [|apply test2_recorded_words].
    pose proof (search_trie_spec input_dots node current_dots [] counts)
      as [H _]. exact H.
Qed.

(** X15. In [test2.py] the learning store is written under the lower-case
    word and read under the stored word.  So a call of [learn_correction]
    for [w] changes the triple of a stored word only if that word is the
    lower-case form of [w]; when the trie of a language has no such word, for
    instance when [w] is stored capitalised, no suggestion of [test2.py]
    changes, however often [w] is learned. *)
Theorem test2_learning_key (self : BrailleAutocorrect) (input_seq w : string) :
  let self' := (learn_correction input_seq w self).2 in
  (∀ input_dots node current_dots,
     filter (λ t : suggestion, t.2 ≠ Str.lower w)
       (test2_recorded input_dots (corrections self') node current_dots)
     = filter (λ t : suggestion, t.2 ≠ Str.lower w)
         (test2_recorded input_dots (corrections self) node current_dots)) ∧
  (∀ request language k,
     Str.lower w
     ∉ trie_words (peek TrieNode_new (dictionaries self) language) →
     (Test2.suggest_word request language k self').1
     = (Test2.suggest_word request language k self).1).
Proof.
  intros self'.
  assert (∀ input_dots node current_dots,
     filter (λ t : suggestion, t.2 ≠ Str.lower w)
       (test2_recorded input_dots (corrections self') node current_dots)
     = filter (λ t : suggestion, t.2 ≠ Str.lower w)
         (test2_recorded input_dots (corrections self) node current_dots))
    as Hfilter.
  { intros. apply test2_recorded_other_key. intros k Hk.
    by apply learn_correction_other. }
  split; [exact Hfilter|].
  intros request language k Hwords.
  destruct (input_to_braille request) as [[|dots input_dots]|e] eqn:Hparse.
  - unfold Test2.suggest_word. by rewrite Hparse.
  - rewrite !(test2_suggest_word_parsed request language k _
                (dots :: input_dots)) by done.
    unfold self'. rewrite learn_correction_dictionaries.
    do 4 f_equal.
    set (root := peek TrieNode_new (dictionaries self) language) in *.
    specialize (Hfilter (dots :: input_dots) root []).
    assert (∀ counts,
              filter (λ t : suggestion, t.2 ≠ Str.lower w)
                (test2_recorded (dots :: input_dots) counts root [])
              = test2_recorded (dots :: input_dots) counts root []) as Hall.
    { intros counts. apply filter_all. intros t Ht Heq.
      apply Hwords. rewrite <- Heq.
      rewrite <- (test2_recorded_words (dots :: input_dots) counts root []).
      apply list_elem_of_fmap. by exists t. }
    by rewrite !Hall in Hfilter.
  - unfold Test2.suggest_word. by rewrite Hparse.
Qed.

Example test2_capitalised_word_earns_nothing :
  let self := (load_dictionary ["Cat"; "hat"] "french" BrailleAutocorrect_init).2 in
  let learned := learn_times 5 "" "Cat" self in
  (suggest_word "D+K+W+O D W+Q+K+O" "french" 1 self).1 = Return ["hat"] ∧
  (suggest_word "D+K+W+O D W+Q+K+O" "french" 1 learned).1 = Return ["Cat"] ∧
  (Test2.suggest_word "D+K+W+O D W+Q+K+O" "french" 1 self).1 = Return ["hat"] ∧
  (Test2.suggest_word "D+K+W+O D W+Q+K+O" "french" 1 learned).1
  = Return ["hat"].
Proof. vm_compute. repeat split. Qed.

Lemma test2_learning_key_witness :
  let self := (load_dictionary ["Cat"; "hat"] "french" BrailleAutocorrect_init).2 in
  Str.lower "Cat" ∉ trie_words (peek TrieNode_new (dictionaries self) "french") ∧
  (Test2.suggest_word "D+K D W+Q+K+O" "french" 2
     (learn_correction "D+K D W+Q+K+O" "Cat" self).2).1
  = (Test2.suggest_word "D+K D W+Q+K+O" "french" 2 self).1.
Proof.
  intros self.
  assert (Str.lower "Cat"
          ∉ trie_words (peek TrieNode_new (dictionaries self) "french")) as H.
  { apply (bool_decide_unpack _). by vm_compute. }
  split; [exact H|].
  destruct (test2_learning_key self "D+K D W+Q+K+O" "Cat") as [_ Hsame].
  apply (Hsame "D+K D W+Q+K+O" "french" 2%Z H).
Defined.

(** * Learning and the ranking *)

Section promotion.

Lemma recorded_rescore input_dots c1 c2 node :
  ∀ current_dots,
    recorded input_dots c2 node current_dots
    = rescore c2 <$> recorded input_dots c1 node current_dots.
Proof.
  induction node as [cs e w IH] using TrieNode_rect_children.
  intros current_dots. rewrite !recorded_unfold, fmap_app. f_equal.
  - by destruct (carries_word e w).
  - induction IH as [|[dots child] cs Hc _ IHcs]; cbn [recorded_children];
      [done|].
    by rewrite fmap_app, Hc, IHcs.
Qed.

Lemma recorded_rescore_id input_dots counts node current_dots t :
  t ∈ recorded input_dots counts node current_dots → rescore counts t = t.
Proof.
  intros Ht. apply recorded_score in Ht. destruct t as [[s d] wd].
  unfold rescore. cbn [fst snd] in *. unfold learn_bonus_of. by rewrite <- Ht.
Qed.

Lemma learn_bonus_of_mono c c' :
  (c ≤ c')%Z → learn_bonus_of c ≤ learn_bonus_of c'.
Proof.
  intros Hc. unfold learn_bonus_of.
  assert (tenth * Qc_of_Z c ≤ tenth * Qc_of_Z c') as H.
  { apply Qcmult_le_mono_nonneg_l; [apply tenth_nonneg | by apply Qc_of_Z_le]. }
  destruct (min2_cases half (tenth * Qc_of_Z c')) as [-> | ->].
  - apply min2_le_l.
  - etrans; [apply min2_le_r | exact H].
Qed.

Lemma minus_lt_mono_r (a b c : Qc) : a - c < b - c ↔ a < b.
Proof. unfold Qcminus. symmetry. apply Qcplus_lt_mono_r. Qed.

Lemma minus_inj_r (a b c : Qc) : a - c = b - c → a = b.
Proof. unfold Qcminus. apply (inj (λ x, x + - c)). Qed.

Lemma minus_le_mono_l (a b c : Qc) : b ≤ c → a - c ≤ a - b.
Proof.
  intros H. unfold Qcminus. apply Qcplus_le_mono_l. by apply Qcopp_le_compat.
Qed.

(** Raising the bonus of one key keeps a triple of that key before the
    triples it came before. *)
Lemma rescore_least counts counts' key (t0 t : suggestion) :
  (∀ k, k ≠ key → peek 0%Z counts' k = peek 0%Z counts k) →
  (peek 0%Z counts key ≤ peek 0%Z counts' key)%Z →
  rescore counts t0 = t0 → rescore counts t = t →
  Str.lower t0.2 = key →
  lex_le t0 t → lex_le (rescore counts' t0) (rescore counts' t).
Proof.
  intros Hother Hkey H0 Ht Hlow Hle.
  destruct t0 as [[s0 d0] w0], t as [[s d] w].
  unfold rescore in *. cbn [fst snd] in *.
  injection H0 as Hs0. injection Ht as Hs. rewrite Hlow in *.
  pose proof (learn_bonus_of_mono _ _ Hkey) as Hb.
  unfold lex_le in *. cbn [fst snd] in *.
  destruct (decide (Str.lower w = key)) as [Hw|Hw].
  - rewrite Hw in *. revert Hs0 Hs Hb.
    generalize (learn_bonus_of (peek 0%Z counts key)).
    generalize (learn_bonus_of (peek 0%Z counts' key)).
    intros b' b Hs0 Hs _. subst s0 s.
    destruct Hle as [Hlt|[Heq Hrest]].
    + left. apply minus_lt_mono_r. by apply minus_lt_mono_r in Hlt.
    + right. split; [|exact Hrest]. apply minus_inj_r in Heq. by rewrite Heq.
  - rewrite (Hother _ Hw), Hs. revert Hs0 Hb.
    generalize (learn_bonus_of (peek 0%Z counts key)).
    generalize (learn_bonus_of (peek 0%Z counts' key)).
    intros b' b Hs0 Hb. subst s0.
    pose proof (minus_le_mono_l d0 b b' Hb) as Hle'.
    destruct Hle as [Hlt|[Heq Hrest]].
    + left. by eapply Qcle_lt_trans.
    + apply Qcle_lt_or_eq in Hle' as [Hlt'|Heq'].
      * left. by rewrite <- Heq.
      * right. split; [by rewrite Heq', Heq | exact Hrest].
Qed.

Lemma take_head {A} (l l' : list A) n x r x' l1' :
  length l = length l' → take n l = x :: r → l' = x' :: l1' →
  ∃ r', take n l' = x' :: r' ∧ length r' = length r.
Proof.
  intros Hlen Ht ->. destruct n as [|n]; [done|].
  destruct l as [|y l1]; [done|]. cbn [take] in *.
  injection Ht as _ <-. exists (take n l1'). split; [done|].
  cbn [length] in Hlen. rewrite !length_take. lia.
Qed.

Lemma slice_to_head {A} (l l' : list A) k x r x' l1' :
  length l = length l' → slice_to l k = x :: r → l' = x' :: l1' →
  ∃ r', slice_to l' k = x' :: r' ∧ length r' = length r.
Proof.
  intros Hlen Hs Hl'. unfold slice_to, len in *. rewrite <- Hlen.
  destruct (decide (k < 0)%Z); by eapply take_head.
Qed.

Lemma slice_to_cons_inv {A} (l : list A) k x r :
  slice_to l k = x :: r → ∃ l1, l = x :: l1.
Proof.
  unfold slice_to. destruct l as [|y l1].
  - destruct (decide _); by rewrite take_nil.
  - destruct (decide _) as [?|?];
      (match goal with |- take ?n _ = _ → _ => destruct n as [|n'] end;
       [done|]; cbn [take]; intros [= -> _]; by exists l1).
Qed.

End promotion.

(** X16. Learning never demotes the learned word.  When a request returns
    a list that starts with a word whose lower-case form is that of [w], then
    after [learn_correction] for [w], whatever its input sequence, the same
    request returns a list of the same length that starts with the same
    word. *)
Theorem learn_correction_keeps_first (request language : string) (k : Z)
    (self : BrailleAutocorrect) (input_seq w first : string)
    (rest : list string) :
  (suggest_word request language k self).1 = Return (first :: rest) →
  Str.lower first = Str.lower w →
  ∃ rest',
    (suggest_word request language k (learn_correction input_seq w self).2).1
    = Return (first :: rest') ∧
    length rest' = length rest.
Proof.
  intros Hres Hlow.
  pose proof (suggest_word_cases request language k self) as Ha.
  pose proof (suggest_word_cases request language k
                (learn_correction input_seq w self).2) as Hb.
  destruct (input_to_braille request) as [[|dots input_dots]|e].
  - rewrite Ha in Hres. discriminate Hres.
  - destruct Ha as (Ha & _), Hb as (Hb & _). rewrite Ha in Hres. rewrite Hb.
    clear Ha Hb. rewrite learn_correction_dictionaries.
    set (counts := corrections self) in *.
    set (counts' := corrections (learn_correction input_seq w self).2).
    set (root := peek TrieNode_new (dictionaries self) language) in *.
    rewrite (recorded_rescore _ counts counts').
    set (R := recorded (dots :: input_dots) counts root []) in *.
    assert (∀ key, key ≠ Str.lower w →
                   peek 0%Z counts' key = peek 0%Z counts key) as Hother
      by (intros key Hkey; by apply learn_correction_other).
    assert (peek 0%Z counts (Str.lower w) ≤ peek 0%Z counts' (Str.lower w))%Z
      as Hkey.
    { pose proof (learn_correction_count input_seq w self) as Hc.
      unfold count_of in Hc. fold counts counts' in Hc. lia. }
    injection Hres as Hres.
    destruct (slice_to (merge_sort tuple_le R) k) as [|t0 r] eqn:Hslice;
      [discriminate Hres|].
    rewrite fmap_cons in Hres. injection Hres as Hfirst Hrest.
    destruct (slice_to_cons_inv _ _ _ _ Hslice) as [sorted Hsorted].
    pose proof (merge_sort_Permutation tuple_le R) as Hperm.
    pose proof (StronglySorted_merge_sort tuple_le R) as Hss.
    rewrite Hsorted in Hperm, Hss.
    pose proof (merge_sort_Permutation tuple_le (rescore counts' <$> R))
      as Hperm'.
    pose proof (StronglySorted_merge_sort tuple_le (rescore counts' <$> R))
      as Hss'.
    assert (length (merge_sort tuple_le R)
            = length (merge_sort tuple_le (rescore counts' <$> R))) as Hlen.
    { by rewrite !merge_sort_Permutation, length_fmap. }
    destruct (merge_sort tuple_le (rescore counts' <$> R))
      as [|t' sorted'] eqn:Hsorted'.
    { rewrite Hsorted in Hlen. discriminate Hlen. }
    assert (t' = rescore counts' t0) as Ht'.
    { apply (anti_symm tuple_le).
      - assert (rescore counts' t0 ∈ t' :: sorted') as Hin.
        { rewrite Hperm', <- Hperm. apply list_elem_of_fmap.
          exists t0. split; [done | left]. }
        apply elem_of_cons in Hin as [->|Hin].
        + by destruct (total tuple_le t' t').
        + apply StronglySorted_inv in Hss' as [_ Hhd].
          rewrite Forall_forall in Hhd. by apply Hhd.
      - assert (t' ∈ rescore counts' <$> (t0 :: sorted)) as Hin.
        { rewrite Hperm, <- Hperm'. left. }
        apply list_elem_of_fmap in Hin as (t & -> & Hin).
        apply tuple_le_lex.
        apply (rescore_least counts counts' (Str.lower w)); try done.
        + apply (recorded_rescore_id (dots :: input_dots) counts root []).
          fold R. rewrite <- Hperm. left.
        + apply (recorded_rescore_id (dots :: input_dots) counts root []).
          fold R. by rewrite <- Hperm.
        + by rewrite Hfirst.
        + apply tuple_le_lex. apply elem_of_cons in Hin as [->|Hin].
          * by destruct (total tuple_le t0 t0).
          * apply StronglySorted_inv in Hss as [_ Hhd].
            rewrite Forall_forall in Hhd. by apply Hhd. }
    destruct (slice_to_head (merge_sort tuple_le R) (t' :: sorted') k
                t0 r t' sorted' ) as (r' & Hslice' & Hlen'); [|done|done|].
    { rewrite Hlen. done. }
    exists (r'.*2). rewrite Hslice', fmap_cons, !length_fmap, Ht'.
    cbn [rescore snd]. rewrite Hfirst, <- Hrest, length_fmap. done.
  - rewrite Ha in Hres. discriminate Hres.
Qed.

Lemma learn_correction_keeps_first_witness :
  (suggest_word "D+K D W" "english" 2 sample).1 = Return ["cat"; "hat"] ∧
  ∃ rest',
    (suggest_word "D+K D W" "english" 2
       (learn_correction "D+K D W" "CAT" sample).2).1
    = Return ("cat" :: rest') ∧ length rest' = 1%nat.
Proof.
  assert ((suggest_word "D+K D W" "english" 2 sample).1
          = Return ["cat"; "hat"]) as H by (vm_compute; reflexivity).
  split; [exact H|].
  apply (learn_correction_keeps_first "D+K D W" "english" 2 sample
           "D+K D W" "CAT" "cat" ["hat"] H).
  vm_compute. reflexivity.
Defined.

(** [lower] on the capitals of Latin-1: 201 is E with an acute accent, 233
    its lower-case form; 215 and 223 have no other case. *)
Example lower_latin1 :
  Str.lower (String (ascii_of_nat 201) "Cole") = String (ascii_of_nat 233) "cole" ∧
  Str.lower (String (ascii_of_nat 215) "") = String (ascii_of_nat 215) "" ∧
  Str.lower (String (ascii_of_nat 223) "") = String (ascii_of_nat 223) "".
Proof. vm_compute. repeat split. Qed.

(** A stored lower-case word outside the letter table is learned through
    its capital form, in [test2.py] too. *)
Example test2_learning_latin1 :
  let e_acute := String (ascii_of_nat 233) "" in
  let E_acute := String (ascii_of_nat 201) "" in
  let self := (load_dictionary ["c"; e_acute] "french" BrailleAutocorrect_init).2 in
  (Test2.suggest_word "D" "french" 1 self).1 = Return ["c"] ∧
  (Test2.suggest_word "D" "french" 1 (learn_correction "" E_acute self).2).1
  = Return [e_acute].
Proof. vm_compute. repeat split. Qed.
